(** * envar: loading [.env] files and binding them to struct fields

    A shallow embedding of the Go package [envar] (files [load.go],
    [envar.go], [covert.go] and the variant of [load.go] that expands
    [${NAME}] placeholders), together with the properties that its
    specification states about it.

    Go strings are byte sequences; they are modelled by [string], whose
    characters are the 256 byte values.  Functions of the Go standard
    library that the package calls are modelled after the behaviour of
    the library; each says which function it stands for. *)

From Stdlib Require Import ZArith Ascii String List Bool Lia.
From Stdlib Require Import Floats.SpecFloat.
From stdpp Require Import base option list strings gmap.

Local Open Scope string_scope.

(** ** Bytes and strings *)

Module GoString.

Definition byte_of (n : N) : ascii := ascii_of_N n.
Definition code (c : ascii) : N := N_of_ascii c.

(** [len(s)] *)
Definition len (s : string) : nat := String.length s.

(** The white space of [unicode.IsSpace], as UTF-8 byte sequences:
    the six ASCII characters, U+0085, U+00A0, U+1680, U+2000..U+200A,
    U+2028, U+2029, U+202F, U+205F and U+3000. *)
Definition ascii_space (c : ascii) : bool :=
  let n := code c in
  ((9 <=? n) && (n <=? 13) || (n =? 32))%N.

(** Width in bytes of the white-space rune that starts [s]; 0 when [s]
    does not start with one. *)
Definition space_width (s : string) : nat :=
  match s with
  | EmptyString => 0
  | String c r =>
      if ascii_space c then 1 else
      match r with
      | String d r' =>
          if ((code c =? 194) && ((code d =? 133) || (code d =? 160)))%N then 2
          else
            match r' with
            | String e _ =>
                if ((code c =? 225) && (code d =? 154) && (code e =? 128))%N then 3
                else if ((code c =? 226) && (code d =? 128) &&
                         ((128 <=? code e) && (code e <=? 138) || (code e =? 168)
                          || (code e =? 169) || (code e =? 175)))%N then 3
                else if ((code c =? 226) && (code d =? 129) && (code e =? 159))%N then 3
                else if ((code c =? 227) && (code d =? 128) && (code e =? 128))%N then 3
                else 0
            | EmptyString => 0
            end
      | EmptyString => 0
      end
  end.

(** The same test on a string read backwards (last byte first). *)
Definition space_width_rev (s : string) : nat :=
  match s with
  | EmptyString => 0
  | String c r =>
      if ascii_space c then 1 else
      match r with
      | String d r' =>
          if ((code d =? 194) && ((code c =? 133) || (code c =? 160)))%N
          then 2
          else match r' with
               | String e _ =>
                   if (space_width (String e (String d (String c ""))) =? 3)%nat
                   then 3 else 0
               | EmptyString => 0
               end
      | EmptyString => 0
      end
  end.

(** [s[n:]] and [s[:n]] (clamped to the length of [s]). *)
Fixpoint skip (n : nat) (s : string) : string :=
  match n, s with
  | S n', String _ r => skip n' r
  | _, _ => s
  end.

Fixpoint take (n : nat) (s : string) : string :=
  match n, s with
  | S n', String c r => String c (take n' r)
  | _, _ => EmptyString
  end.

(** Removes leading white-space runes, one rune per round. *)
Fixpoint drop_spaces (width : string -> nat) (fuel : nat) (s : string) : string :=
  match fuel with
  | O => s
  | S fuel' =>
      match width s with
      | O => s
      | S k => drop_spaces width fuel' (skip (S k) s)
      end
  end.

(** [strings.TrimLeftFunc(s, unicode.IsSpace)] *)
Definition TrimLeft (s : string) : string := drop_spaces space_width (len s) s.

(** [strings.TrimRightFunc(s, unicode.IsSpace)] *)
Definition TrimRight (s : string) : string :=
  String.rev (drop_spaces space_width_rev (len s) (String.rev s)).

(** [strings.TrimSpace] *)
Definition TrimSpace (s : string) : string := TrimRight (TrimLeft s).

(** [strings.HasPrefix] *)
Fixpoint HasPrefix (s p : string) {struct p} : bool :=
  match p, s with
  | EmptyString, _ => true
  | String a p', String b s' => Ascii.eqb a b && HasPrefix s' p'
  | String _ _, EmptyString => false
  end.

(** [strings.Index(s, sep)]: position of the first occurrence. *)
Fixpoint Index (s sep : string) : option nat :=
  if HasPrefix s sep then Some 0 else
  match s with
  | EmptyString => None
  | String _ r => S <$> Index r sep
  end.

(** The loop of [strings.genSplit] for a non-empty separator: at most
    [n] cuts, then the remainder. *)
Fixpoint split_loop (n : nat) (s sep : string) : list string :=
  match n with
  | O => [s]
  | S n' =>
      match Index s sep with
      | None => [s]
      | Some m => take m s :: split_loop n' (skip (m + len sep) s) sep
      end
  end.

(** [strings.Count(s, sep)] for a non-empty separator. *)
Fixpoint count_loop (fuel : nat) (s sep : string) : nat :=
  match fuel with
  | O => 0
  | S fuel' =>
      match Index s sep with
      | None => 0
      | Some m => S (count_loop fuel' (skip (m + len sep) s) sep)
      end
  end.
Definition Count (s sep : string) : nat := count_loop (len s) s sep.

(** [strings.SplitN(s, sep, n)] for [n > 0] and a non-empty [sep]:
    [genSplit] lowers [n] to [len(s)+1] and makes [n-1] cuts. *)
Definition SplitN (s sep : string) (n : nat) : list string :=
  match Nat.min n (S (len s)) with
  | O => []
  | S cuts => split_loop cuts s sep
  end.

(** [strings.Split(s, sep)] is [genSplit(s, sep, 0, -1)]: the count of
    pieces is [Count(s, sep) + 1]. *)
Definition Split (s sep : string) : list string :=
  SplitN s sep (S (Count s sep)).

End GoString.

Import GoString.

(** ** Parsers of the standard library ([strconv], [time]) *)

Module Strconv.

(** [strconv.ErrSyntax] and [strconv.ErrRange]. *)
Inductive num_err := ErrSyntax | ErrRange.

(** The error of a failed parse: a [*strconv.NumError] with the name
    of the function and the text it was given, or the error value of
    [time.ParseDuration] with its message. *)
Inductive parse_error :=
| NumError (func num : string) (err : num_err)
| DurationError (msg : string).

Inductive parsed (A : Type) :=
| Ok (a : A)
| Fail (e : parse_error).
Arguments Ok {A} a.
Arguments Fail {A} e.

Definition is_digit (c : ascii) : bool := ((48 <=? code c) && (code c <=? 57))%N.
Definition digit_val (c : ascii) : Z := Z.of_N (code c) - 48.

(** The digit loop of [strconv.ParseUint(s, 10, 64)]. *)
Fixpoint uint_loop (s : string) (n : Z) : Z + num_err :=
  match s with
  | EmptyString => inl n
  | String c r =>
      if is_digit c then
        if (n >=? (2 ^ 64 - 1) / 10 + 1)%Z then inr ErrRange
        else
          let n1 := (n * 10 + digit_val c)%Z in
          if (n1 >? 2 ^ 64 - 1)%Z then inr ErrRange else uint_loop r n1
      else inr ErrSyntax
  end.

Definition uint_digits (s : string) : Z + num_err :=
  match s with
  | EmptyString => inr ErrSyntax
  | _ => uint_loop s 0
  end.

(** [strconv.ParseUint(s, 10, 64)] *)
Definition ParseUint (s : string) : parsed Z :=
  match uint_digits s with
  | inl n => Ok n
  | inr e => Fail (NumError "ParseUint" s e)
  end.

(** [strconv.ParseInt(s, 10, 64)] *)
Definition ParseInt (s : string) : parsed Z :=
  match s with
  | EmptyString => Fail (NumError "ParseInt" s ErrSyntax)
  | String c r =>
      let neg := if Ascii.eqb c "-"%char then true else false in
      let body :=
        if Ascii.eqb c "+"%char then r else if neg then r else s in
      match uint_digits body with
      | inr ErrSyntax => Fail (NumError "ParseInt" s ErrSyntax)
      | inr ErrRange => Fail (NumError "ParseInt" s ErrRange)
      | inl un =>
          if negb neg && (un >=? 2 ^ 63)%Z then Fail (NumError "ParseInt" s ErrRange)
          else if neg && (un >? 2 ^ 63)%Z then Fail (NumError "ParseInt" s ErrRange)
          else Ok (if neg then - un else un)%Z
      end
  end.

(** [strconv.ParseBool] *)
Definition ParseBool (s : string) : parsed bool :=
  if existsb (String.eqb s) ["1"; "t"; "T"; "TRUE"; "true"; "True"] then Ok true
  else if existsb (String.eqb s) ["0"; "f"; "F"; "FALSE"; "false"; "False"] then Ok false
  else Fail (NumError "ParseBool" s ErrSyntax).

(** *** Floating point: binary64 and binary32 values as [spec_float] *)

Definition round64 (neg : bool) (m : Z) (e : Z) : spec_float :=
  match m with
  | Zpos p => binary_round 53 1024 neg p e
  | _ => S754_zero neg
  end.

(** The binary64 value nearest to [m * 10^e10] (ties to even). *)
Definition decimal64 (neg : bool) (m e10 : Z) : spec_float :=
  match m with
  | Zpos p =>
      if (0 <=? e10)%Z then round64 neg (m * 10 ^ e10) 0
      else
        let '(q, e, l) := SFdiv_core_binary 53 1024 m 0 (10 ^ (- e10)) 0 in
        binary_round_aux 53 1024 neg q e l
  | _ => S754_zero neg
  end.

(** [float32(x)], still written as a [spec_float]. *)
Definition to_float32 (x : spec_float) : spec_float :=
  match x with
  | S754_finite s m e => binary_round 24 128 s m e
  | _ => x
  end.

Definition is_inf (x : spec_float) : bool :=
  match x with S754_infinity _ => true | _ => false end.

(** [lower(c)] of strconv: [c | ('x' - 'X')]. *)
Definition lower (c : ascii) : N := N.lor (code c) 32.

Definition hex_letter (c : ascii) : bool := ((97 <=? lower c) && (lower c <=? 102))%N.

(** [commonPrefixLenIgnoreCase(s, prefix)], [prefix] in lower case. *)
Fixpoint commonPrefixLenIgnoreCase (s prefix : string) : nat :=
  match s, prefix with
  | String c r, String p q =>
      let c' := if ((65 <=? code c) && (code c <=? 90))%N then (code c + 32)%N else code c in
      if (c' =? code p)%N then S (commonPrefixLenIgnoreCase r q) else 0
  | _, _ => 0
  end.

(** [special(s)]: infinities and NaN, with the count of bytes read. *)
Definition special (s : string) : option (spec_float * nat) :=
  match s with
  | EmptyString => None
  | String c r =>
      let inf (sign : bool) (nsign : nat) (t : string) :=
        let n := commonPrefixLenIgnoreCase t "infinity" in
        let n := if ((3 <? n) && (n <? 8))%nat then 3 else n in
        if ((n =? 3) || (n =? 8))%nat then Some (S754_infinity sign, nsign + n) else None in
      if Ascii.eqb c "+"%char then inf false 1 r
      else if Ascii.eqb c "-"%char then inf true 1 r
      else if (lower c =? 105)%N then inf false 0 s
      else if (lower c =? 110)%N then
        if (commonPrefixLenIgnoreCase s "nan" =? 3)%nat then Some (S754_nan, 3) else None
      else None
  end.

(** The state of the digit loop of [readFloat], with the mantissa kept
    in full. *)
Record digits := {
  mantissa : Z; nd : Z; dp : Z;
  sawdot : bool; sawdigits : bool; underscores : bool }.

Fixpoint digit_loop (hex : bool) (st : digits) (s : string) : digits * string :=
  match s with
  | EmptyString => (st, s)
  | String c r =>
      let base := if hex then 16%Z else 10%Z in
      if Ascii.eqb c "_"%char then
        digit_loop hex {| mantissa := mantissa st; nd := nd st; dp := dp st;
                          sawdot := sawdot st; sawdigits := sawdigits st;
                          underscores := true |} r
      else if Ascii.eqb c "."%char then
        if sawdot st then (st, s)
        else digit_loop hex {| mantissa := mantissa st; nd := nd st; dp := nd st;
                               sawdot := true; sawdigits := sawdigits st;
                               underscores := underscores st |} r
      else if is_digit c then
        if Ascii.eqb c "0"%char && (nd st =? 0)%Z then
          digit_loop hex {| mantissa := mantissa st; nd := nd st; dp := (dp st - 1)%Z;
                            sawdot := sawdot st; sawdigits := true;
                            underscores := underscores st |} r
        else
          digit_loop hex {| mantissa := (mantissa st * base + digit_val c)%Z;
                            nd := (nd st + 1)%Z; dp := dp st;
                            sawdot := sawdot st; sawdigits := true;
                            underscores := underscores st |} r
      else if hex && hex_letter c then
        digit_loop hex {| mantissa := (mantissa st * 16 + (Z.of_N (lower c) - 97 + 10))%Z;
                          nd := (nd st + 1)%Z; dp := dp st;
                          sawdot := sawdot st; sawdigits := true;
                          underscores := underscores st |} r
      else (st, s)
  end.

(** The digits of the exponent: [e] grows while it is below 10000. *)
Fixpoint exp_loop (e : Z) (us : bool) (s : string) : Z * bool * string :=
  match s with
  | EmptyString => (e, us, s)
  | String c r =>
      if Ascii.eqb c "_"%char then exp_loop e true r
      else if is_digit c then
        exp_loop (if (e <? 10000)%Z then (e * 10 + digit_val c)%Z else e) us r
      else (e, us, s)
  end.

(** [underscoreOK(s)]; [saw] is the class of the last byte seen. *)
Inductive saw := SawStart | SawDigit | SawUnderscore | SawOther.

Fixpoint underscore_loop (hex : bool) (sw : saw) (s : string) : bool :=
  match s with
  | EmptyString => match sw with SawUnderscore => false | _ => true end
  | String c r =>
      if is_digit c || hex && hex_letter c then underscore_loop hex SawDigit r
      else if Ascii.eqb c "_"%char then
        match sw with
        | SawDigit => underscore_loop hex SawUnderscore r
        | _ => false
        end
      else
        match sw with
        | SawUnderscore => false
        | _ => underscore_loop hex SawOther r
        end
  end.

Definition underscoreOK (s : string) : bool :=
  let s :=
    match s with
    | String c r => if Ascii.eqb c "-"%char || Ascii.eqb c "+"%char then r else s
    | _ => s
    end in
  match s with
  | String "0" (String p r) =>
      if ((lower p =? 98) || (lower p =? 111) || (lower p =? 120))%N
      then underscore_loop (lower p =? 120)%N SawDigit r
      else underscore_loop false SawStart s
  | _ => underscore_loop false SawStart s
  end.

(** [readFloat(s)]: sign, base, mantissa and exponent of the number at
    the start of [s], and what follows it. *)
Record number := { neg : bool; hex : bool; mant : Z; exp : Z; after : string }.

Definition readFloat (s : string) : option number :=
  match s with
  | EmptyString => None
  | String c r =>
      let neg := if Ascii.eqb c "-"%char then true else false in
      let s1 := if Ascii.eqb c "+"%char then r else if neg then r else s in
      let '(hex, s2) :=
        match s1 with
        | String "0" (String x (String y t)) =>
            if (lower x =? 120)%N then (true, String y t) else (false, s1)
        | _ => (false, s1)
        end in
      let '(st, s3) :=
        digit_loop hex {| mantissa := 0; nd := 0; dp := 0; sawdot := false;
                          sawdigits := false; underscores := false |} s2 in
      if negb (sawdigits st) then None else
      let dp0 := if sawdot st then dp st else nd st in
      let dp1 := if hex then (dp0 * 4)%Z else dp0 in
      let nd1 := if hex then (nd st * 4)%Z else nd st in
      let exp_char := if hex then 112%N else 101%N in
      let finish (dp2 : Z) (us : bool) (s4 : string) :=
        if us && negb (underscoreOK (take (len s - len s4) s)) then None
        else Some {| neg := neg; hex := hex; mant := mantissa st;
                     exp := if (mantissa st =? 0)%Z then 0%Z else (dp2 - nd1)%Z;
                     after := s4 |} in
      match s3 with
      | String x t =>
          if (lower x =? exp_char)%N then
            match t with
            | EmptyString => None
            | String y u =>
                let esign := if Ascii.eqb y "-"%char then (-1)%Z else 1%Z in
                let t1 := if Ascii.eqb y "+"%char || Ascii.eqb y "-"%char then u else t in
                match t1 with
                | String z _ =>
                    if is_digit z then
                      let '(e, us, s4) := exp_loop 0 (underscores st) t1 in
                      finish (dp1 + e * esign)%Z us s4
                    else None
                | EmptyString => None
                end
            end
          else if hex then None else finish dp1 (underscores st) s3
      | EmptyString => if hex then None else finish dp1 (underscores st) s3
      end
  end.

(** [parseFloatPrefix(s, 64)]: the value, rounded to the nearest
    binary64, whether it overflowed, and the rest of [s]. *)
Definition parseFloatPrefix (s : string) : option (spec_float * bool * string) :=
  match special s with
  | Some (f, n) => Some (f, false, skip n s)
  | None =>
      match readFloat s with
      | None => None
      | Some x =>
          let f := if hex x then round64 (neg x) (mant x) (exp x)
                   else decimal64 (neg x) (mant x) (exp x) in
          Some (f, is_inf f, after x)
      end
  end.

(** [strconv.ParseFloat(s, 64)] *)
Definition ParseFloat (s : string) : parsed spec_float :=
  match parseFloatPrefix s with
  | Some (f, range, EmptyString) =>
      if range then Fail (NumError "ParseFloat" s ErrRange) else Ok f
  | _ => Fail (NumError "ParseFloat" s ErrSyntax)
  end.

(** [strconv.ParseComplex(s, 128)] *)
Definition ParseComplex (s : string) : parsed (spec_float * spec_float) :=
  let syntax := Fail (NumError "ParseComplex" s ErrSyntax) in
  let inner :=
    match s with
    | String "(" r =>
        if (2 <=? len s)%nat && String.eqb (skip (len s - 1) s) ")"
        then take (len s - 2) r else s
    | _ => s
    end in
  match parseFloatPrefix inner with
  | None => syntax
  | Some (re, range1, s1) =>
      let finish (re im : spec_float) (range : bool) :=
        if range then Fail (NumError "ParseComplex" s ErrRange) else Ok (re, im) in
      match s1 with
      | EmptyString => finish re (S754_zero false) range1
      | String c t =>
          let second (s2 : string) :=
            match parseFloatPrefix s2 with
            | None => syntax
            | Some (im, range2, s3) =>
                if String.eqb s3 "i" then finish re im (range1 || range2) else syntax
            end in
          if Ascii.eqb c "+"%char then
            match t with
            | String d _ => if Ascii.eqb d "+"%char then second s1 else second t
            | EmptyString => second s1
            end
          else if Ascii.eqb c "-"%char then second s1
          else if Ascii.eqb c "i"%char then
            match t with
            | EmptyString => finish (S754_zero false) re range1
            | _ => syntax
            end
          else syntax
      end
  end.

(** *** [time.ParseDuration] *)

Definition wrap64 (n : Z) : Z := (n mod 2 ^ 64)%Z.

(** [leadingInt(s)]: [None] on overflow. *)
Fixpoint leadingInt (x : Z) (s : string) : option (Z * string) :=
  match s with
  | EmptyString => Some (x, s)
  | String c r =>
      if is_digit c then
        if (x >? 2 ^ 63 / 10)%Z then None
        else
          let x1 := (x * 10 + digit_val c)%Z in
          if (x1 >? 2 ^ 63)%Z then None else leadingInt x1 r
      else Some (x, s)
  end.

(** [leadingFraction(s)]: digits after an overflow are passed over;
    [scale] is a power of ten below [10^20], exact in binary64. *)
Fixpoint leadingFraction (x scale : Z) (overflow : bool) (s : string) : Z * Z * string :=
  match s with
  | EmptyString => (x, scale, s)
  | String c r =>
      if is_digit c then
        if overflow then leadingFraction x scale true r
        else if (x >? (2 ^ 63 - 1) / 10)%Z then leadingFraction x scale true r
        else
          let y := (x * 10 + digit_val c)%Z in
          if (y >? 2 ^ 63)%Z then leadingFraction x scale true r
          else leadingFraction y (scale * 10)%Z false r
      else (x, scale, s)
  end.

(** The unit of a duration: the bytes up to the next digit or dot. *)
Fixpoint unit_len (s : string) : nat :=
  match s with
  | EmptyString => 0
  | String c r => if Ascii.eqb c "."%char || is_digit c then 0 else S (unit_len r)
  end.

Definition micro_sign : string := String (byte_of 194) (String (byte_of 181) "s").
Definition greek_mu : string := String (byte_of 206) (String (byte_of 188) "s").

(** [unitMap] *)
Definition unitMap (u : string) : option Z :=
  if String.eqb u "ns" then Some 1%Z
  else if String.eqb u "us" || String.eqb u micro_sign || String.eqb u greek_mu
  then Some 1000%Z
  else if String.eqb u "ms" then Some 1000000%Z
  else if String.eqb u "s" then Some 1000000000%Z
  else if String.eqb u "m" then Some 60000000000%Z
  else if String.eqb u "h" then Some 3600000000000%Z
  else None.

(** [uint64(x)] for a binary64 [x] that is not negative: truncation. *)
Definition trunc_float (x : spec_float) : Z :=
  match x with
  | S754_finite false m e =>
      if (0 <=? e)%Z then (Zpos m * 2 ^ e)%Z else (Zpos m / 2 ^ (- e))%Z
  | _ => 0%Z
  end.

(** [uint64(float64(f) * (float64(unit) / scale))] *)
Definition fraction_ns (f unit scale : Z) : Z :=
  trunc_float
    (SFmul 53 1024 (round64 false f 0)
       (SFdiv 53 1024 (round64 false unit 0) (round64 false scale 0))).

(** The loop over the terms of a duration; [d] is a [uint64].  Every
    round reads at least one byte, so [len s] rounds read all of [s]. *)
Fixpoint duration_loop (fuel : nat) (d : Z) (s : string) : Z + string :=
  match fuel with
  | O => inl d
  | S fuel' =>
      match s with
      | EmptyString => inl d
      | String c _ =>
          if negb (Ascii.eqb c "."%char || is_digit c) then inr "invalid duration"
          else
            match leadingInt 0 s with
            | None => inr "invalid duration"
            | Some (v, s1) =>
                let pre := negb (len s =? len s1)%nat in
                let '(f, scale, s2, post) :=
                  match s1 with
                  | String "." t =>
                      let '(f, scale, s2) := leadingFraction 0 1 false t in
                      (f, scale, s2, negb (len t =? len s2)%nat)
                  | _ => (0%Z, 1%Z, s1, false)
                  end in
                if negb pre && negb post then inr "invalid duration"
                else
                  let i := unit_len s2 in
                  if (i =? 0)%nat then inr "missing unit in duration"
                  else
                    match unitMap (take i s2) with
                    | None => inr "unknown unit in duration"
                    | Some unit =>
                        if (v >? 2 ^ 63 / unit)%Z then inr "invalid duration"
                        else
                          let v1 := (v * unit)%Z in
                          let v2 := if (0 <? f)%Z
                                    then wrap64 (v1 + fraction_ns f unit scale) else v1 in
                          if (0 <? f)%Z && (v2 >? 2 ^ 63)%Z then inr "invalid duration"
                          else
                            let d1 := wrap64 (d + v2) in
                            if (d1 >? 2 ^ 63)%Z then inr "invalid duration"
                            else duration_loop fuel' d1 (skip i s2)
                    end
            end
      end
  end.

(** [int64(d)] for a [uint64] [d]. *)
Definition to_int64 (d : Z) : Z :=
  let r := (d mod 2 ^ 64)%Z in if (r <? 2 ^ 63)%Z then r else (r - 2 ^ 64)%Z.

(** [time.ParseDuration(s)], in nanoseconds. *)
Definition ParseDuration (s : string) : parsed Z :=
  let neg := match s with String "-" _ => true | _ => false end in
  let body := match s with
              | String c r => if Ascii.eqb c "-"%char || Ascii.eqb c "+"%char then r else s
              | _ => s
              end in
  if String.eqb body "0" then Ok 0%Z
  else if String.eqb body "" then Fail (DurationError "invalid duration")
  else
    match duration_loop (len body) 0 body with
    | inr msg => Fail (DurationError msg)
    | inl d =>
        if neg then Ok (to_int64 (- to_int64 d))
        else if (d >? 2 ^ 63 - 1)%Z then Fail (DurationError "invalid duration")
        else Ok d
    end.

End Strconv.

Import Strconv.

(** ** The process environment ([os.Getenv], [os.Setenv]) *)

Module Os.

(** The environment of the process: variable name to value. *)
Abbreviation environ := (gmap string string).

Definition has_byte (n : N) (s : string) : bool :=
  existsb (fun c => (code c =? n)%N) (list_ascii_of_string s).

(** [os.Getenv]: the value, or the empty string for a variable that is
    not set (and for the empty name). *)
Definition Getenv (env : environ) (key : string) : string :=
  if decide (key = "") then "" else default "" (env !! key).

(** [os.Setenv]: fails with EINVAL for an empty name, a name holding
    [=] or a NUL byte, and a value holding a NUL byte. *)
Definition setenv_ok (key value : string) : bool :=
  negb (len key =? 0)%nat && negb (has_byte 61 key) && negb (has_byte 0 key)
  && negb (has_byte 0 value).

Definition Setenv (env : environ) (key value : string) : option environ :=
  if setenv_ok key value then Some (<[key := value]> env) else None.

(** What [os.Stat] and [os.Open] followed by a [bufio.Scanner] find at
    a path: nothing, a file that cannot be opened, or a file read as
    the lines that [Scan] yields, with the error [scanner.Err()]
    reports after the last of them (a read error, a line that is too
    long), if any. *)
Inductive file_state :=
| Missing
| Unopenable (cause : string)
| Readable (lines : list string) (scan_err : option string).

Definition filesystem := string -> file_state.

(** [filepath.Join(dir, name)]: an empty [dir] is left out.  The
    cleaning of the joined path is not modelled: a [filesystem] is keyed
    by the joined string. *)
Definition filepath_Join (dir name : string) : string :=
  if String.eqb dir "" then name else dir +:+ "/" +:+ name.

End Os.

Import Os.

(** ** Reflection ([reflect]) *)

Module Reflect.

(** [reflect.Kind] *)
Inductive Kind :=
| Invalid | Bool | Int | Int8 | Int16 | Int32 | Int64
| Uint | Uint8 | Uint16 | Uint32 | Uint64 | Uintptr
| Float32 | Float64 | Complex64 | Complex128
| Array | Chan | Func | Interface | Map | Pointer | Slice | String_
| Struct | UnsafePointer.

Global Instance Kind_eq_dec : EqDecision Kind.
Proof. solve_decision. Defined.

(** [Kind.String()] *)
Definition Kind_String (k : Kind) : string :=
  match k with
  | Invalid => "invalid" | Bool => "bool" | Int => "int" | Int8 => "int8"
  | Int16 => "int16" | Int32 => "int32" | Int64 => "int64" | Uint => "uint"
  | Uint8 => "uint8" | Uint16 => "uint16" | Uint32 => "uint32"
  | Uint64 => "uint64" | Uintptr => "uintptr" | Float32 => "float32"
  | Float64 => "float64" | Complex64 => "complex64"
  | Complex128 => "complex128" | Array => "array" | Chan => "chan"
  | Func => "func" | Interface => "interface" | Map => "map"
  | Pointer => "ptr" | Slice => "slice" | String_ => "string"
  | Struct => "struct" | UnsafePointer => "unsafe.Pointer"
  end.

(** Go types, as far as [convert] tells them apart. *)
Inductive gotype :=
| Basic (k : Kind)                      (* a predeclared type: bool, int8, string, ... *)
| Duration                              (* time.Duration, defined as int64 *)
| Named (name : string) (def : gotype)  (* any other defined type *)
| SliceOf (elem : gotype)               (* []elem *)
| Composite (k : Kind).                 (* array, chan, func, interface, map,
                                           pointer and struct types *)

Global Instance gotype_eq_dec : EqDecision gotype.
Proof. solve_decision. Defined.

(** [Type.Kind()] *)
Fixpoint kind_of (t : gotype) : Kind :=
  match t with
  | Basic k => k
  | Duration => Int64
  | Named _ def => kind_of def
  | SliceOf _ => Slice
  | Composite k => k
  end.

(** The underlying type. *)
Fixpoint underlying (t : gotype) : gotype :=
  match t with
  | Duration => Basic Int64
  | Named _ def => underlying def
  | _ => t
  end.

(** Whether a value of type [[]string] may be assigned to a variable
    of type [t]: the types are identical, or [t] is a defined type
    whose underlying type is [[]string]. *)
Definition assignable_from_strings (t : gotype) : bool :=
  bool_decide (underlying t = SliceOf (Basic String_)).

(** The values fields hold.  Integers are kept as [Z] within the range
    of their type, floats as [spec_float]. *)
Inductive value :=
| VString (s : string)
| VInt (n : Z)
| VUint (n : Z)
| VBool (b : bool)
| VFloat (f : spec_float)
| VComplex (re im : spec_float)
| VStrings (l : list string)
| VOther.

(** A field of a struct value reached through a pointer:
    [t.Field(i)] and [v.Field(i)]. *)
Record field := {
  name : string;
  tag : list (string * string);   (* the struct tag, as key/value pairs *)
  ftype : gotype;
  exported : bool;
  fvalue : value }.

Definition set_value (x : value) (f : field) : field :=
  {| name := name f; tag := tag f; ftype := ftype f; exported := exported f;
     fvalue := x |}.

(** [StructTag.Get(key)]: the value of the first pair with that key,
    or the empty string. *)
Fixpoint Tag_Get (tg : list (string * string)) (key : string) : string :=
  match tg with
  | [] => ""
  | (k, x) :: tg' => if String.eqb k key then x else Tag_Get tg' key
  end.

(** [Value.CanSet()] for such a field: it is addressable, so it can be
    set when it is exported. *)
Definition CanSet (f : field) : bool := exported f.

(** Width in bits of the integer kinds (64-bit platform). *)
Definition int_bits (k : Kind) : Z :=
  match k with
  | Int8 | Uint8 => 8 | Int16 | Uint16 => 16 | Int32 | Uint32 => 32
  | _ => 64
  end.

(** [Value.SetInt(x)]: [x] is truncated to the width of the field. *)
Definition SetInt (k : Kind) (x : Z) : value :=
  let w := int_bits k in
  let r := (x mod 2 ^ w)%Z in
  VInt (if (r <? 2 ^ (w - 1))%Z then r else (r - 2 ^ w)%Z).

(** [Value.SetUint(x)] *)
Definition SetUint (k : Kind) (x : Z) : value := VUint (x mod 2 ^ int_bits k)%Z.

(** [Value.SetFloat(x)]: rounded to binary32 for a [float32] field. *)
Definition SetFloat (k : Kind) (x : spec_float) : value :=
  VFloat (match k with Float32 => to_float32 x | _ => x end).

(** [Value.SetComplex(x)] *)
Definition SetComplex (k : Kind) (re im : spec_float) : value :=
  match k with
  | Complex64 => VComplex (to_float32 re) (to_float32 im)
  | _ => VComplex re im
  end.

(** What [Bind] may be handed as its first argument, an
    [interface{}]. *)
Inductive iface :=
| NilInterface                       (* nil *)
| NotPointer (t : gotype)            (* a value of a type that is not a pointer type *)
| NilPointer                         (* a nil pointer, of any pointer type *)
| PointerTo (t : gotype)             (* a pointer to a variable that is not a struct *)
| PointerToStruct (fields : list field).

(** [reflect.TypeOf(i).Kind()]; [None] where [TypeOf] returns the nil
    [Type], on which the call of [Kind] panics. *)
Definition TypeOf_Kind (i : iface) : option Kind :=
  match i with
  | NilInterface => None
  | NotPointer t => Some (kind_of t)
  | NilPointer | PointerTo _ | PointerToStruct _ => Some Pointer
  end.

(** [reflect.ValueOf(i).Elem().Kind()] for a pointer: the zero [Value]
    of a nil pointer has kind [Invalid]. *)
Definition Elem_Kind (i : iface) : Kind :=
  match i with
  | PointerTo t => kind_of t
  | PointerToStruct _ => Struct
  | _ => Invalid
  end.

(** The fields of [reflect.ValueOf(i).Elem()]. *)
Definition Elem_fields (i : iface) : list field :=
  match i with
  | PointerToStruct fields => fields
  | _ => []
  end.

(** The type as [%v] prints it; only told apart by the argument. *)
Definition type_text (i : iface) : string :=
  match i with
  | NilInterface => "<nil>"
  | NotPointer t => Kind_String (kind_of t)
  | NilPointer => "*T"
  | PointerTo t => "*" +:+ Kind_String (kind_of t)
  | PointerToStruct _ => "*struct"
  end.

End Reflect.

Import Reflect.

(** ** Errors and log lines *)

(** The errors the package builds with [fmt.Errorf], by format string. *)
Inductive error :=
| ErrOpening (filePath cause : string)          (* "Error opening .env file %s: %v" *)
| ErrFileNotFound (filePath : string)           (* "Error .env file not found: %s" *)
| ErrExpanding (key cause : string)             (* "Error expanding variables in %s: %v" *)
| ErrSetting (key cause : string)               (* "Error setting environment variable %s: %v" *)
| ErrReading (filePath cause : string)          (* "Error reading .env file %s: %v" *)
| ErrExpectedPointer (got : string)             (* "expected a pointer to a struct, got %v" *)
| ErrConversion (value target : string) (cause : parse_error)
                                                (* "failed to convert %s to <target>: %v" *)
| ErrUnsupported (kind : Kind) (value : string).
                                                (* "unsupported field type %s for value %s" *)

(** The lines written with [log.Printf] and [log.Println]. *)
Inductive log_line :=
| WarnFileNotFound (filePath : string)          (* "Warning: .env file not found: %s" *)
| LogError (e : error)                          (* log.Println(err) *)
| WarnConvert (tag : string) (e : error)        (* "Warning: Could not convert env variable %s ..." *)
| WarnCannotSet (tag : string)                  (* "Warning: Field %s cannot be set ..." *)
| WarnVarNotFound (tag : string).               (* "Warning: Environment variable %s not found" *)

(** ** Placeholder expansion ([expandVariables], load.go with expansion) *)

Module Expand.

(** A compiled regular expression, as the length of its match at the
    start of a string, if any. *)
Definition regexp := string -> option nat.

(** Bytes before the first [}] of [s]. *)
Fixpoint name_end (s : string) : option nat :=
  match s with
  | EmptyString => None
  | String c r => if decide (c = "}"%char) then Some 0 else S <$> name_end r
  end.

(** [regexp.MustCompile(`\${([^}]+)}`)]: a dollar sign, an opening
    brace, one or more bytes other than [}], a closing brace. *)
Definition re : regexp := fun s =>
  match s with
  | String "$" (String "{" r) =>
      match name_end r with
      | Some (S n) => Some (S n + 3)
      | _ => None
      end
  | _ => None
  end.

(** [re.ReplaceAllStringFunc(src, repl)]: the leftmost matches, none
    overlapping another, each replaced by [repl] of the matched text.
    [inside] counts the bytes still to pass of the match being
    replaced.  (Empty matches are not modelled; [re] has none.) *)
Fixpoint replace_from (rx : regexp) (repl : string -> string)
    (inside : nat) (src : string) : string :=
  match src with
  | EmptyString => EmptyString
  | String c r =>
      match inside with
      | S k => replace_from rx repl k r
      | O =>
          match rx src with
          | Some (S m) => repl (take (S m) src) +:+ replace_from rx repl m r
          | _ => String c (replace_from rx repl 0 r)
          end
      end
  end.

Definition ReplaceAllStringFunc (rx : regexp) (src : string)
    (repl : string -> string) : string :=
  replace_from rx repl 0 src.

(** The closure [replacer]: [match[2 : len(match)-1]] names the
    variable; an empty value keeps the placeholder. *)
Definition replacer (env : environ) (match_ : string) : string :=
  let varName := take (len match_ - 1 - 2) (skip 2 match_) in
  let varValue := Getenv env varName in
  if decide (varValue = "") then match_ else varValue.

(** One round of replacement. *)
Definition expand_once (env : environ) (value : string) : string :=
  ReplaceAllStringFunc re value (replacer env).

(** The loop [for { ... }] of [expandVariables]; [None] when [fuel]
    rounds have not reached a round without change. *)
Fixpoint expand_loop (fuel : nat) (env : environ) (expandedValue : string)
    : option string :=
  match fuel with
  | O => None
  | S fuel' =>
      let expandedValueNew := expand_once env expandedValue in
      if decide (expandedValueNew = expandedValue) then Some expandedValue
      else expand_loop fuel' env expandedValueNew
  end.

(** [expandVariables(value)]: the expanded value and the error, which
    the function never sets. *)
Definition expandVariables (fuel : nat) (env : environ) (value : string)
    : option (string * option error) :=
  match expand_loop fuel env (expand_once env value) with
  | Some expandedValue => Some (expandedValue, None)
  | None => None
  end.

End Expand.

Import Expand.

(** ** The loader ([load], load.go) *)

(** The two versions of [load]: load.go as it stands, which warns about a
    missing file and commits the raw value, and the version that expands
    placeholders first and reports a missing file as an error. *)
Inductive variant := Plain | Expanding.

(** A buffered channel of errors: [make(chan error, capacity)]. *)
Record channel := { capacity : nat; buffer : list error }.

(** What the goroutines of one [Bind] call share. *)
Record shared := {
  env : environ;                    (* the process environment *)
  loadedVars : gmap string bool;    (* map[string]bool *)
  Ce : channel;                     (* the error channel *)
  logged : list log_line            (* the log, oldest line first *)
}.

Definition set_env (e : environ) (sh : shared) : shared :=
  {| env := e; loadedVars := loadedVars sh; Ce := Ce sh; logged := logged sh |}.
Definition set_loaded (m : gmap string bool) (sh : shared) : shared :=
  {| env := env sh; loadedVars := m; Ce := Ce sh; logged := logged sh |}.
Definition send (e : error) (sh : shared) : shared :=
  {| env := env sh; loadedVars := loadedVars sh;
     Ce := {| capacity := capacity (Ce sh); buffer := (buffer (Ce sh) ++ [e])%list |};
     logged := logged sh |}.
Definition log_add (l : log_line) (sh : shared) : shared :=
  {| env := env sh; loadedVars := loadedVars sh; Ce := Ce sh;
     logged := (logged sh ++ [l])%list |}.

(** [loadedVars[key]]: a missing key reads as [false]. *)
Definition is_loaded (m : gmap string bool) (key : string) : bool :=
  default false (m !! key).

(** What one line of the file asks for: nothing, or a key and a value
    (load.go, lines 37-51). *)
Definition parse_line (text : string) : option (string * string) :=
  let line := TrimSpace text in
  if (len line =? 0)%nat || HasPrefix line "#" then None
  else
    match SplitN line "=" 2 with
    | [part0; part1] => Some (TrimSpace part0, TrimSpace part1)
    | _ => None
    end.

(** The lines still to scan and the error the scanner will report. *)
Record cursor := { filePath : string; rest : list string; scan_err : option string }.

Definition advance (c : cursor) : cursor :=
  {| filePath := filePath c; rest := tail (rest c); scan_err := scan_err c |}.

(** Where a running [load] stands.  Every access to the shared state is a
    step of its own, so that steps of concurrent loads interleave as the
    statements of the source do. *)
Inductive pc :=
| AtStart (path : string)                         (* before os.Stat *)
| AtScan (c : cursor)                             (* for scanner.Scan() *)
| AtExpand (key cur : string) (c : cursor)        (* in the loop of expandVariables *)
| AtCheck (key value : string) (c : cursor)       (* if !loadedVars[key] *)
| AtSetenv (key value : string) (c : cursor)      (* os.Setenv(key, value) *)
| AtMark (key : string) (c : cursor)              (* loadedVars[key] = true *)
| AtSend (e : error)                              (* ce <- err *)
| Finished.                                       (* returned; wg.Done() has run *)

(** One step of [load]; [None] when it cannot move: it has returned, or
    it waits to send on a full channel. *)
Definition load_step (v : variant) (fs : filesystem) (sh : shared) (p : pc)
    : option (shared * pc) :=
  match p with
  | AtStart path =>
      match fs path with
      | Missing =>
          match v with
          | Plain => Some (log_add (WarnFileNotFound path) sh, Finished)
          | Expanding => Some (sh, AtSend (ErrFileNotFound path))
          end
      | Unopenable cause => Some (sh, AtSend (ErrOpening path cause))
      | Readable lines serr =>
          Some (sh, AtScan {| filePath := path; rest := lines; scan_err := serr |})
      end
  | AtScan c =>
      match rest c with
      | [] =>
          match scan_err c with
          | Some cause => Some (sh, AtSend (ErrReading (filePath c) cause))
          | None => Some (sh, Finished)
          end
      | text :: _ =>
          match parse_line text with
          | None => Some (sh, AtScan (advance c))
          | Some (key, value) =>
              match v with
              | Plain => Some (sh, AtCheck key value (advance c))
              | Expanding =>
                  Some (sh, AtExpand key (expand_once (env sh) value) (advance c))
              end
          end
      end
  | AtExpand key cur c =>
      (* expandVariables returns a nil error, so the branch of load that
         sends "Error expanding variables" is never taken *)
      let new := expand_once (env sh) cur in
      if decide (new = cur) then Some (sh, AtCheck key cur c)
      else Some (sh, AtExpand key new c)
  | AtCheck key value c =>
      if is_loaded (loadedVars sh) key then Some (sh, AtScan c)
      else Some (sh, AtSetenv key value c)
  | AtSetenv key value c =>
      match Setenv (env sh) key value with
      | None => Some (sh, AtSend (ErrSetting key "setenv: invalid argument"))
      | Some e => Some (set_env e sh, AtMark key c)
      end
  | AtMark key c => Some (set_loaded (<[key := true]> (loadedVars sh)) sh, AtScan c)
  | AtSend e =>
      if (length (buffer (Ce sh)) <? capacity (Ce sh))%nat
      then Some (send e sh, Finished)
      else None
  | Finished => None
  end.

(** The goroutines of one call, with what they share. *)
Record system := { state : shared; tasks : list pc }.

(** Task [i] takes a step if it can; otherwise nothing changes. *)
Definition sys_step (v : variant) (fs : filesystem) (i : nat) (s : system) : system :=
  match tasks s !! i with
  | Some p =>
      match load_step v fs (state s) p with
      | Some (sh, p') => {| state := sh; tasks := <[i := p']> (tasks s) |}
      | None => s
      end
  | None => s
  end.

(** A schedule names the task that moves at each instant. *)
Definition run (v : variant) (fs : filesystem) (sched : list nat) (s : system) : system :=
  fold_left (fun s i => sys_step v fs i s) sched s.

Definition finished (p : pc) : bool :=
  match p with Finished => true | _ => false end.

(** [wg.Wait()] returns once every load has returned. *)
Definition all_finished (s : system) : bool := forallb finished (tasks s).

(** [load] run alone, from its call to its return, for at most [fuel]
    steps: the sequential reading of the function. *)
Fixpoint load_from (v : variant) (fs : filesystem) (fuel : nat) (sh : shared) (p : pc)
    : option shared :=
  match fuel with
  | O => None
  | S fuel' =>
      match p with
      | Finished => Some sh
      | _ =>
          match load_step v fs sh p with
          | Some (sh', p') => load_from v fs fuel' sh' p'
          | None => None
          end
      end
  end.

Definition load (v : variant) (fs : filesystem) (fuel : nat) (path : string)
    (sh : shared) : option shared :=
  load_from v fs fuel sh (AtStart path).

(** ** The converter ([convert], covert.go) *)

(** How a call ends: it returns, with a result or with an error, or it
    panics. *)
Inductive outcome (A : Type) :=
| Returned (a : A)
| Failed (e : error)
| Panicked (msg : string).
Arguments Returned {A} a.
Arguments Failed {A} e.
Arguments Panicked {A} msg.

(** The setters of [reflect.Value] ([SetString], [SetInt], [Set], ...)
    panic on a field that cannot be set. *)
Definition assign (x : value) (fld : field) : outcome field :=
  if CanSet fld then Returned (set_value x fld)
  else Panicked "reflect: value obtained using unexported field".

(** [convert(value, field)]: the field after the assignment, or the
    error returned, or the panic of [reflect]. *)
Definition convert (value : string) (fld : field) : outcome field :=
  match kind_of (ftype fld) with
  | String_ => assign (VString value) fld
  | Int | Int8 | Int16 | Int32 | Int64 =>
      if decide (ftype fld = Duration) then
        match ParseDuration value with
        | Fail err => Failed (ErrConversion value "time.Duration" err)
        | Ok durationValue => assign (VInt durationValue) fld
        end
      else
        match ParseInt value with
        | Fail err => Failed (ErrConversion value "int" err)
        | Ok intValue => assign (SetInt (kind_of (ftype fld)) intValue) fld
        end
  | Uint | Uint8 | Uint16 | Uint32 | Uint64 =>
      match ParseUint value with
      | Fail err => Failed (ErrConversion value "uint" err)
      | Ok uintValue => assign (SetUint (kind_of (ftype fld)) uintValue) fld
      end
  | Bool =>
      match ParseBool value with
      | Fail err => Failed (ErrConversion value "bool" err)
      | Ok boolValue => assign (VBool boolValue) fld
      end
  | Float32 | Float64 =>
      match ParseFloat value with
      | Fail err => Failed (ErrConversion value "float" err)
      | Ok floatValue => assign (SetFloat (kind_of (ftype fld)) floatValue) fld
      end
  | Complex64 | Complex128 =>
      match ParseComplex value with
      | Fail err => Failed (ErrConversion value "complex" err)
      | Ok (re, im) => assign (SetComplex (kind_of (ftype fld)) re im) fld
      end
  | Slice =>
      (* field.Set(reflect.ValueOf(strings.Split(value, ","))) *)
      if CanSet fld && negb (assignable_from_strings (ftype fld))
      then Panicked "reflect.Set: value of type []string is not assignable"
      else assign (VStrings (Split value ",")) fld
  | k => Failed (ErrUnsupported k value)
  end.

(** ** The binder ([Bind], envar.go) *)

(** The process and its surroundings, as [Bind] sees them. *)
Record world := {
  files : filesystem;
  cwd : string;              (* os.Getwd(), the empty string if it fails *)
  environment : environ;
  log_lines : list log_line }.

(** One round of the loop over the fields: the field afterwards and the
    lines logged, or the message of the panic of [convert]. *)
Definition bind_field (e : environ) (fld : field) : field * list log_line + string :=
  let tag := Tag_Get (tag fld) "env" in
  let envValue := Getenv e tag in
  if negb (String.eqb envValue "") then
    if CanSet fld then
      match convert envValue fld with
      | Returned fld' => inl (fld', [])
      | Failed err => inl (fld, [WarnConvert tag err])
      | Panicked msg => inr msg
      end
    else inl (fld, [WarnCannotSet tag])
  else inl (fld, [WarnVarNotFound tag]).

(** The loop over the fields.  The struct is changed in place, so the
    fields set before a panic stay set. *)
Fixpoint bind_fields (e : environ) (fields : list field)
    : list field * list log_line * option string :=
  match fields with
  | [] => ([], [], None)
  | fld :: fields' =>
      match bind_field e fld with
      | inl (fld', l) =>
          let '(done, l', p) := bind_fields e fields' in
          (fld' :: done, (l ++ l')%list, p)
      | inr msg => (fields, [], Some msg)
      end
  end.

(** The goroutines [Bind] starts: one for the default file when no path
    is given, else one for each path. *)
Definition start_tasks (w : world) (rPath : list string) : list pc :=
  match rPath with
  | [] => [AtStart (filepath_Join (cwd w) ".env")]
  | _ => map (fun path => AtStart (filepath_Join path ".env")) rPath
  end.

Definition start_system (w : world) (rPath : list string) : system :=
  {| state := {| env := environment w; loadedVars := ∅;
                 Ce := {| capacity := 10; buffer := [] |};
                 logged := log_lines w |};
     tasks := start_tasks w rPath |}.

(** What a call of [Bind] leaves behind: how it ended, the world, and
    the argument with the struct it points to. *)
Record bound := {
  result : outcome unit;     (* [Returned tt] is the nil error *)
  after_world : world;
  after_target : iface }.

Definition with_state (w : world) (sh : shared) : world :=
  {| files := files w; cwd := cwd w; environment := env sh; log_lines := logged sh |}.

(** The part of [Bind] after [wg.Wait()]. *)
Definition Bind_finish (w : world) (i : iface) (sh : shared) : bound :=
  let errors := buffer (Ce sh) in
  match last errors with
  | Some err =>
      {| result := Failed err;
         after_world := with_state w
           {| env := env sh; loadedVars := loadedVars sh; Ce := Ce sh;
              logged := (logged sh ++ map LogError errors)%list |};
         after_target := i |}
  | None =>
      let '(fields, lines, p) := bind_fields (env sh) (Elem_fields i) in
      {| result := match p with Some msg => Panicked msg | None => Returned tt end;
         after_world := with_state w
           {| env := env sh; loadedVars := loadedVars sh; Ce := Ce sh;
              logged := (logged sh ++ lines)%list |};
         after_target := match i with
                         | PointerToStruct _ => PointerToStruct fields
                         | _ => i
                         end |}
  end.

(** [Bind(i, rPath...)] under a schedule of its goroutines; [None] when
    the schedule ends before every load has returned, so that
    [wg.Wait()] has not returned either. *)
Definition Bind (v : variant) (sched : list nat) (w : world) (i : iface)
    (rPath : list string) : option bound :=
  match TypeOf_Kind i with
  | None =>
      Some {| result := Panicked "invalid memory address or nil pointer dereference";
              after_world := w; after_target := i |}
  | Some k =>
      if negb (bool_decide (k = Pointer)) || negb (bool_decide (Elem_Kind i = Struct))
      then Some {| result := Failed (ErrExpectedPointer (type_text i));
                   after_world := w; after_target := i |}
      else
        let s := run v (files w) sched (start_system w rPath) in
        if all_finished s then Some (Bind_finish w i (state s)) else None
  end.

(** * Vocabulary of the properties *)

Definition signed_kind (k : Kind) : bool :=
  match k with Int | Int8 | Int16 | Int32 | Int64 => true | _ => false end.

(** The binary64 value nearest to 3.14 and its rounding to binary32. *)
Definition float64_3_14 : spec_float := S754_finite false 7070651414971679 (-51).
Definition float32_3_14 : spec_float := S754_finite false 13170115 (-22).

Definition int_field : field :=
  {| name := "Port"; tag := [("env", "PORT")]; ftype := Basic Int;
     exported := true; fvalue := VInt 0 |}.

(** A field declared as a slice of integers, [[]int]. *)
Definition ints_field : field :=
  {| name := "Ports"; tag := [("env", "PORTS")]; ftype := SliceOf (Basic Int);
     exported := true; fvalue := VOther |}.

(** What [convert] returns when it returns an error: a conversion error
    that carries the text given and the target, or an unsupported-type
    error that carries the kind of the field and the text. *)
Definition names_input (value : string) (fld : field) (e : error) : Prop :=
  (exists target cause, e = ErrConversion value target cause) \/
  e = ErrUnsupported (kind_of (ftype fld)) value.

(** The arguments that are not a pointer to a struct, the nil interface
    apart. *)
Definition not_struct_pointer (i : iface) : Prop :=
  match i with
  | NilInterface => False
  | NotPointer _ => True
  | NilPointer => True
  | PointerTo t => kind_of t <> Struct
  | PointerToStruct _ => False
  end.

(** The rule in the words of the specification: the first byte that is
    not white space, and the cut at the first occurrence of a byte. *)
Definition first_non_space (text : string) : option ascii :=
  match TrimLeft text with
  | String c _ => Some c
  | EmptyString => None
  end.

Fixpoint cut_first (sep : ascii) (s : string) : option (string * string) :=
  match s with
  | EmptyString => None
  | String c r =>
      if Ascii.eqb c sep then Some (EmptyString, r)
      else
        match cut_first sep r with
        | Some (before, behind) => Some (String c before, behind)
        | None => None
        end
  end.

Definition parse_line_rule (text : string) : option (string * string) :=
  let line := TrimSpace text in
  if decide (line = "") then None
  else if decide (first_non_space text = Some "#"%char) then None
  else
    match cut_first "="%char line with
    | None => None
    | Some (key, value) => Some (TrimSpace key, TrimSpace value)
    end.

Definition one_line : cursor :=
  {| filePath := "a/.env"; rest := [" PORT = 8080 "]; scan_err := None |}.
Definition fresh : shared :=
  {| env := ∅; loadedVars := ∅; Ce := {| capacity := 10; buffer := [] |};
     logged := [] |}.

(** The replacement of a placeholder in the words of the specification:
    the current value of the variable when it is set, the placeholder
    itself when it is not. *)
Definition replacer_as_specified (env : environ) (match_ : string) : string :=
  match env !! take (len match_ - 1 - 2) (skip 2 match_) with
  | Some varValue => varValue
  | None => match_
  end.

Definition expand_once_as_specified (env : environ) (value : string) : string :=
  ReplaceAllStringFunc re value (replacer_as_specified env).

(** The value after [n] rounds of replacement. *)
Fixpoint rounds (n : nat) (env : environ) (value : string) : string :=
  match n with
  | O => value
  | S n' => rounds n' env (expand_once env value)
  end.

(** No byte of [s] is a closing brace. *)
Fixpoint no_close (s : string) : bool :=
  match s with
  | EmptyString => true
  | String c r => negb (Ascii.eqb c "}") && no_close r
  end.

(** The placeholder for a name. *)
Definition placeholder (name : string) : string := "${" +:+ name +:+ "}".

(** A variable whose value holds its own placeholder. *)
Definition cyclic_env : environ := <["A" := "${A}x"]> ∅.

(** A variable set to the empty string. *)
Definition empty_env : environ := <["A" := ""]> ∅.

Fixpoint xs (n : nat) : string :=
  match n with O => "" | S n' => String "x" (xs n') end.

Definition env_A_B : environ := <["A" := "x"]> (<["B" := "y"]> ∅).

(** A task about to call [os.Setenv] for [key]. *)
Definition armed (key : string) (p : pc) : Prop :=
  exists value c, p = AtSetenv key value c.

(** A task about to mark [key] as loaded. *)
Definition marking (key : string) (p : pc) : Prop :=
  exists c, p = AtMark key c.

(** [k] is marked and task [i] is not about to set it. *)
Definition settled (k : string) (i : nat) (s : system) : Prop :=
  is_loaded (loadedVars (state s)) k = true /\
  forall p, tasks s !! i = Some p -> ~ armed k p.

(** The entries of the environment that differ from the start belong
    to keys that are marked or about to be. *)
Definition accounted (e0 : environ) (s : system) : Prop :=
  forall k, env (state s) !! k = e0 !! k \/
            is_loaded (loadedVars (state s)) k = true \/
            exists i p, tasks s !! i = Some p /\ marking k p.

(** A world with one file, and a struct with one field. *)
Definition port_file : filesystem := fun path =>
  if String.eqb path "/app/.env" then Readable ["PORT=8080"; "HOST="] None else Missing.
Definition port_world : world :=
  {| files := port_file; cwd := "/app";
     environment := <["PORT" := "80"]> (<["HOME" := "/root"]> ∅); log_lines := [] |}.
Definition port_config : iface := PointerToStruct [int_field].

Definition port_bound : bound :=
  {| result := Returned tt;
     after_world :=
       {| files := port_file; cwd := "/app";
          environment :=
            <["HOST" := ""]> (<["PORT" := "8080"]> (<["HOME" := "/root"]> ∅));
          log_lines := [] |};
     after_target := PointerToStruct [set_value (VInt 8080) int_field] |}.

(** A load that has returned after it set and marked PORT, and a load
    that has yet to scan its line for PORT. *)
Definition marked_system : system :=
  {| state := {| env := <["PORT" := "8080"]> ∅; loadedVars := <["PORT" := true]> ∅;
                 Ce := {| capacity := 10; buffer := [] |}; logged := [] |};
     tasks := [Finished;
               AtScan {| filePath := "b/.env"; rest := ["PORT=9090"]; scan_err := None |}] |}.

(** The loads that have returned. *)
Definition count_finished (l : list pc) : nat :=
  length (filter (fun p => finished p = true) l).

(** A load whose file cannot be opened: it is at its start, or about to
    send its error, or it has returned. *)
Definition failing (fs : filesystem) (p : pc) : Prop :=
  (exists path cause, p = AtStart path /\ fs path = Unopenable cause) \/
  (exists e, p = AtSend e) \/ p = Finished.

(** Every load fails to open its file, and no more loads have
    returned than the channel holds errors. *)
Definition clogged (fs : filesystem) (s : system) : Prop :=
  Forall (failing fs) (tasks s) /\
  count_finished (tasks s) <= length (buffer (Ce (state s))) /\
  length (buffer (Ce (state s))) <= capacity (Ce (state s)).

(** A struct with a field of type [[]int], the variable of the field
    set, and no file to load. *)
Definition ints_world : world :=
  {| files := fun _ => Missing; cwd := "/app";
     environment := <["PORTS" := "80,443"]> ∅; log_lines := [] |}.
Definition ints_config : iface := PointerToStruct [ints_field].

Definition ints_bound : bound :=
  {| result := Panicked "reflect.Set: value of type []string is not assignable";
     after_world :=
       {| files := files ints_world; cwd := "/app";
          environment := <["PORTS" := "80,443"]> ∅;
          log_lines := [WarnFileNotFound "/app/.env"] |};
     after_target := ints_config |}.

(** Eleven directories whose file cannot be opened. *)
Definition locked_world : world :=
  {| files := fun _ => Unopenable "permission denied"; cwd := "/app";
     environment := ∅; log_lines := [] |}.
Definition eleven : list string :=
  ["d1"; "d2"; "d3"; "d4"; "d5"; "d6"; "d7"; "d8"; "d9"; "d10"; "d11"].

(** A field bound to HOST, which the file sets to the empty string. *)
Definition host_field : field :=
  {| name := "Host"; tag := [("json", "host"); ("env", "HOST")];
     ftype := Basic String_; exported := true; fvalue := VString "localhost" |}.
Definition host_config : iface := PointerToStruct [int_field; host_field].

Definition host_bound : bound :=
  {| result := Returned tt;
     after_world :=
       {| files := port_file; cwd := "/app";
          environment :=
            <["HOST" := ""]> (<["PORT" := "8080"]> (<["HOME" := "/root"]> ∅));
          log_lines := [WarnVarNotFound "HOST"] |};
     after_target := PointerToStruct [set_value (VInt 8080) int_field; host_field] |}.

(** A file whose first line gives A a value that holds the placeholder
    of A, and whose second line expands that placeholder. *)
Definition cyclic_file : filesystem := fun _ => Readable ["A=${A}x"; "B=${A}"] None.
Definition cyclic_world : world :=
  {| files := cyclic_file; cwd := "/app"; environment := ∅; log_lines := [] |}.

(** The load of that file, [n] rounds into the expansion of the second
    line. *)
Definition spinning (n : nat) : system :=
  {| state := {| env := cyclic_env; loadedVars := <["A" := true]> ∅;
                 Ce := {| capacity := 10; buffer := [] |}; logged := [] |};
     tasks := [AtExpand "B" (placeholder "A" +:+ xs (S n))
                 {| filePath := "/app/.env"; rest := []; scan_err := None |}] |}.

(** Steps that a load of load.go still takes, at most. *)
Definition steps_left (fs : filesystem) (p : pc) : nat :=
  match p with
  | AtStart path =>
      match fs path with
      | Readable lines _ => 4 * length lines + 3
      | _ => 2
      end
  | AtScan c => 4 * length (rest c) + 2
  | AtExpand _ _ c => 0
  | AtCheck _ _ c => 4 * length (rest c) + 5
  | AtSetenv _ _ c => 4 * length (rest c) + 4
  | AtMark _ c => 4 * length (rest c) + 3
  | AtSend _ => 1
  | Finished => 0
  end.

Definition expanding (p : pc) : bool :=
  match p with AtExpand _ _ _ => true | _ => false end.

(** The channel has room for an error of every load that has not
    returned. *)
Definition roomy (s : system) : Prop :=
  length (tasks s) <= capacity (Ce (state s)) /\
  length (buffer (Ce (state s))) <= count_finished (tasks s) /\
  Forall (fun p => expanding p = false) (tasks s).

(** The loop of [load] over the lines of a file, read as sequential code
    (load.go, lines 36-63): the environment and the marks when the loop
    is left, and the error that made [load] return from inside it. *)
Fixpoint load_lines (lines : list string) (e : environ) (m : gmap string bool)
    : environ * gmap string bool * option error :=
  match lines with
  | [] => (e, m, None)
  | text :: lines' =>
      match parse_line text with
      | None => load_lines lines' e m
      | Some (key, value) =>
          if is_loaded m key then load_lines lines' e m
          else
            match Setenv e key value with
            | None => (e, m, Some (ErrSetting key "setenv: invalid argument"))
            | Some e' => load_lines lines' e' (<[key := true]> m)
            end
      end
  end.

(** The end of [load] after the loop (load.go, lines 57-69): the error
    of the loop or of the scanner is sent. *)
Definition load_end (path : string) (serr : option string)
    (r : environ * gmap string bool * option error) (sh : shared) : shared :=
  let '(e, m, err) := r in
  let sh' := set_loaded m (set_env e sh) in
  match err with
  | Some er => send er sh'
  | None =>
      match serr with
      | Some cause => send (ErrReading path cause) sh'
      | None => sh'
      end
  end.

(** What a load of load.go that stands at [p] leaves behind when it runs
    on alone and the channel has room. *)
Definition load_rest (fs : filesystem) (sh : shared) (p : pc) : shared :=
  match p with
  | AtStart path =>
      match fs path with
      | Missing => log_add (WarnFileNotFound path) sh
      | Unopenable cause => send (ErrOpening path cause) sh
      | Readable lines serr =>
          load_end path serr (load_lines lines (env sh) (loadedVars sh)) sh
      end
  | AtScan c =>
      load_end (filePath c) (scan_err c)
        (load_lines (rest c) (env sh) (loadedVars sh)) sh
  | AtExpand _ _ _ => sh                 (* load.go has no such step *)
  | AtCheck key value c =>
      load_end (filePath c) (scan_err c)
        (if is_loaded (loadedVars sh) key
         then load_lines (rest c) (env sh) (loadedVars sh)
         else
           match Setenv (env sh) key value with
           | None => (env sh, loadedVars sh,
                      Some (ErrSetting key "setenv: invalid argument"))
           | Some e' => load_lines (rest c) e' (<[key := true]> (loadedVars sh))
           end) sh
  | AtSetenv key value c =>
      load_end (filePath c) (scan_err c)
        (match Setenv (env sh) key value with
         | None => (env sh, loadedVars sh,
                    Some (ErrSetting key "setenv: invalid argument"))
         | Some e' => load_lines (rest c) e' (<[key := true]> (loadedVars sh))
         end) sh
  | AtMark key c =>
      load_end (filePath c) (scan_err c)
        (load_lines (rest c) (env sh) (<[key := true]> (loadedVars sh))) sh
  | AtSend e => send e sh
  | Finished => sh
  end.

(** [load(path, ...)] of load.go read as sequential code. *)
Definition load_seq (fs : filesystem) (path : string) (sh : shared) : shared :=
  load_rest fs sh (AtStart path).

(** The value of the first line of a file that names [k]. *)
Fixpoint first_value (lines : list string) (k : string) : option string :=
  match lines with
  | [] => None
  | text :: lines' =>
      match parse_line text with
      | Some (key, value) =>
          if decide (key = k) then Some value else first_value lines' k
      | None => first_value lines' k
      end
  end.

(** The shared state with which [Bind] starts its loads. *)
Definition start_state (w : world) : shared :=
  {| env := environment w; loadedVars := ∅;
     Ce := {| capacity := 10; buffer := [] |}; logged := log_lines w |}.

(** A file whose second line has an empty key. *)
Definition broken_file : filesystem := fun _ => Readable ["A=1"; "=x"; "B=2"] None.
Definition broken_world : world :=
  {| files := broken_file; cwd := "/app"; environment := ∅; log_lines := [] |}.
Definition broken_bound : bound :=
  {| result := Failed (ErrSetting "" "setenv: invalid argument");
     after_world :=
       {| files := broken_file; cwd := "/app"; environment := <["A" := "1"]> ∅;
          log_lines := [LogError (ErrSetting "" "setenv: invalid argument")] |};
     after_target := port_config |}.

(** Two fields that differ in their values at most. *)
Definition same_declaration (f g : field) : Prop :=
  name g = name f /\ tag g = tag f /\ ftype g = ftype f /\ exported g = exported f.

(** The struct of the tests of the package, [Cfg] with its zero value,
    and a world whose default file sets the variable of its field. *)
Definition Cfg : iface :=
  PointerToStruct
    [{| name := "PostgresUrl"; tag := [("env", "POSTGRES_URL")];
        ftype := Basic String_; exported := true; fvalue := VString "" |}].
Definition test_world : world :=
  {| files := fun path =>
       if String.eqb path "/app/.env"
       then Readable ["# database"; "POSTGRES_URL = postgres://db:5432/app?sslmode=disable"]
              None
       else Missing;
     cwd := "/app"; environment := ∅; log_lines := [] |}.
Definition test_bound : bound :=
  {| result := Returned tt;
     after_world :=
       {| files := files test_world; cwd := "/app";
          environment := <["POSTGRES_URL" := "postgres://db:5432/app?sslmode=disable"]> ∅;
          log_lines := [] |};
     after_target :=
       PointerToStruct
         [{| name := "PostgresUrl"; tag := [("env", "POSTGRES_URL")];
             ftype := Basic String_; exported := true;
             fvalue := VString "postgres://db:5432/app?sslmode=disable" |}] |}.

(** What a second call leaves behind in the world with the file for
    PORT and HOST: the same, with the warning logged again. *)
Definition host_bound_again : bound :=
  {| result := Returned tt;
     after_world :=
       {| files := port_file; cwd := "/app";
          environment :=
            <["HOST" := ""]> (<["PORT" := "8080"]> (<["HOME" := "/root"]> ∅));
          log_lines := [WarnVarNotFound "HOST"; WarnVarNotFound "HOST"] |};
     after_target := PointerToStruct [set_value (VInt 8080) int_field; host_field] |}.

(** The errors that a load sends. *)
Definition load_error (e : error) : Prop :=
  match e with
  | ErrOpening _ _ | ErrFileNotFound _ | ErrSetting _ _ | ErrReading _ _ => True
  | _ => False
  end.

(** Every error in the channel and every error about to be sent is an
    error of a load. *)
Definition load_errors_only (s : system) : Prop :=
  Forall load_error (buffer (Ce (state s))) /\
  forall i e, tasks s !! i = Some (AtSend e) -> load_error e.

(** The error with which [load] returns before it reads a line: none for
    a file that it can read, and none in load.go for a file that is
    missing, which is a warning there. *)
Definition open_error (v : variant) (fs : filesystem) (path : string) : option error :=
  match fs path with
  | Missing =>
      match v with
      | Plain => None
      | Expanding => Some (ErrFileNotFound path)
      end
  | Unopenable cause => Some (ErrOpening path cause)
  | Readable _ _ => None
  end.

(** Two directories: the file of the first can be read, the file of
    the second cannot be opened. *)
Definition mixed_files : filesystem := fun path =>
  if String.eqb path "a/.env" then Readable ["PORT=1"; "HOST=a"] None
  else if String.eqb path "b/.env" then Unopenable "permission denied"
  else Missing.
Definition mixed_world : world :=
  {| files := mixed_files; cwd := "/app"; environment := ∅; log_lines := [] |}.
Definition mixed_bound : bound :=
  {| result := Failed (ErrOpening "b/.env" "permission denied");
     after_world :=
       {| files := mixed_files; cwd := "/app";
          environment := <["HOST" := "a"]> (<["PORT" := "1"]> ∅);
          log_lines := [LogError (ErrOpening "b/.env" "permission denied")] |};
     after_target := port_config |}.

(** No file anywhere, and PORT set in the environment. *)
Definition bare_world : world :=
  {| files := fun _ => Missing; cwd := "/app"; environment := <["PORT" := "80"]> ∅;
     log_lines := [] |}.
Definition bare_bound : bound :=
  {| result := Returned tt;
     after_world :=
       {| files := files bare_world; cwd := "/app";
          environment := <["PORT" := "80"]> ∅;
          log_lines := [WarnFileNotFound "/app/.env"] |};
     after_target := PointerToStruct [set_value (VInt 80) int_field] |}.

(** Task [i], started for a file with an error at its opening, has not
    returned without its error in the channel. *)
Definition reports (i : nat) (path : string) (err : error) (s : system) : Prop :=
  tasks s !! i = Some (AtStart path) \/
  tasks s !! i = Some (AtSend err) \/
  (tasks s !! i = Some Finished /\ err ∈ buffer (Ce (state s))).

(** Nothing has happened but warnings about missing files: every load
    started from [start] is where it was or has returned, with its
    warning in the log. *)
Definition only_warned (start : system) (s : system) : Prop :=
  env (state s) = env (state start) /\
  buffer (Ce (state s)) = buffer (Ce (state start)) /\
  (forall l, l ∈ logged (state start) -> l ∈ logged (state s)) /\
  forall i path, tasks start !! i = Some (AtStart path) ->
    tasks s !! i = Some (AtStart path) \/
    (tasks s !! i = Some Finished /\ WarnFileNotFound path ∈ logged (state s)).

(** No more errors are in the channel than loads have returned, and
    the channel is the one [Bind] made. *)
Definition one_error_each (n : nat) (s : system) : Prop :=
  length (tasks s) = n /\
  capacity (Ce (state s)) = 10 /\
  length (buffer (Ce (state s))) <= count_finished (tasks s).

(** No byte of [s] is a dollar sign. *)
Definition no_dollar (s : string) : bool := negb (has_byte 36 s).

(** ASCII white space only. *)
Fixpoint blanks (s : string) : bool :=
  match s with
  | EmptyString => true
  | String c r => ascii_space c && blanks r
  end.

(** An ASCII byte that is not white space. *)
Definition visible (c : ascii) : bool := negb (ascii_space c) && (code c <? 128)%N.

Definition starts_visible (s : string) : bool :=
  match s with
  | String c _ => visible c
  | EmptyString => false
  end.

Fixpoint ends_visible (s : string) : bool :=
  match s with
  | EmptyString => false
  | String c EmptyString => visible c
  | String _ r => ends_visible r
  end.

(** A text that is empty or begins and ends with a visible byte. *)
Definition tidy (s : string) : bool :=
  match s with
  | EmptyString => true
  | _ => starts_visible s && ends_visible s
  end.

(** [strings.Join(l, sep)] *)
Fixpoint join (sep : string) (l : list string) : string :=
  match l with
  | [] => ""
  | [a] => a
  | a :: l' => a +:+ sep +:+ join sep l'
  end.

(** Some file of the call gives [k] the value [x] in the first of its
    lines that name [k]. *)
Definition first_of_a_file (fs : filesystem) (start : list pc) (k x : string) : Prop :=
  exists path lines serr,
    AtStart path ∈ start /\ fs path = Readable lines serr /\
    first_value lines k = Some x.

(** The variable [k] holds such a value. *)
Definition holds_first (fs : filesystem) (start : list pc) (k : string)
    (sh : shared) : Prop :=
  exists x, first_of_a_file fs start k x /\ env sh !! k = Some x.

(** Where a load of load.go for the file at [path] stands, as far as
    the variable [k] goes: the lines that it has dealt with name [k]
    only if [k] is marked, it is about to set [k] only from the first
    line of its file that names [k], and it has returned without an
    error only after all lines of its file. *)
Definition on_track (fs : filesystem) (start : list pc) (k : string)
    (path : string) (sh : shared) (p : pc) : Prop :=
  match p with
  | AtStart path' => path' = path
  | AtScan c =>
      exists before, fs path = Readable (before ++ rest c) (scan_err c) /\
        (is_Some (first_value before k) -> is_loaded (loadedVars sh) k = true)
  | AtExpand _ _ _ => False
  | AtCheck key value c =>
      exists before text,
        fs path = Readable (before ++ text :: rest c) (scan_err c) /\
        parse_line text = Some (key, value) /\
        (is_Some (first_value before k) -> is_loaded (loadedVars sh) k = true)
  | AtSetenv key value c =>
      exists before text,
        fs path = Readable (before ++ text :: rest c) (scan_err c) /\
        parse_line text = Some (key, value) /\
        (is_Some (first_value before k) -> is_loaded (loadedVars sh) k = true) /\
        (key = k -> first_value before k = None)
  | AtMark key c =>
      exists before text value,
        fs path = Readable (before ++ text :: rest c) (scan_err c) /\
        parse_line text = Some (key, value) /\
        (is_Some (first_value before k) -> is_loaded (loadedVars sh) k = true) /\
        (key = k -> holds_first fs start k sh)
  | AtSend _ => True
  | Finished =>
      buffer (Ce sh) <> [] \/ fs path = Missing \/
      exists lines serr, fs path = Readable lines serr /\
        (is_Some (first_value lines k) -> is_loaded (loadedVars sh) k = true)
  end.

(** The loads started as [start] are all on track, and [k] is as it was
    in [e0] or holds the first value of a file, which it does when it is
    marked. *)
Definition first_values (fs : filesystem) (start : list pc) (k : string)
    (e0 : environ) (s : system) : Prop :=
  length (tasks s) = length start /\
  (forall i path, start !! i = Some (AtStart path) ->
     exists p, tasks s !! i = Some p /\ on_track fs start k path (state s) p) /\
  (env (state s) !! k = e0 !! k \/ holds_first fs start k (state s)) /\
  (is_loaded (loadedVars (state s)) k = true -> holds_first fs start k (state s)).

(** Two files that both name PORT, the first of them twice. *)
Definition two_files : filesystem := fun path =>
  if String.eqb path "a/.env" then Readable ["PORT=1"; "HOST=a"; "PORT=3"] None
  else if String.eqb path "b/.env" then Readable ["PORT=2"] None
  else Missing.
Definition two_world : world :=
  {| files := two_files; cwd := "/app"; environment := <["HOME" := "/root"]> ∅;
     log_lines := [] |}.
(** A schedule under which both loads test PORT before either marks
    it. *)
Definition racing : list nat :=
  [0; 1; 0; 1; 0; 1; 0; 1; 0; 1; 0; 1; 0; 0; 0; 0; 0; 0; 0; 0; 0; 0].
(** A schedule under which both loads test PORT, and the first of them
    then sets and marks it while the second stands before its call of
    [os.Setenv]. *)
Definition both_tested : list nat := [0; 1; 0; 1; 0; 1; 0; 0].
Definition two_bound : bound :=
  {| result := Returned tt;
     after_world :=
       {| files := two_files; cwd := "/app";
          environment :=
            <["HOST" := "a"]> (<["PORT" := "2"]> (<["HOME" := "/root"]> ∅));
          log_lines := [] |};
     after_target := PointerToStruct [set_value (VInt 2) int_field] |}.

(** A line whose value, if it has one, holds no dollar sign. *)
Definition plain_line (text : string) : bool :=
  match parse_line text with
  | Some (_, value) => no_dollar value
  | None => true
  end.

(** A load whose file is there and holds no dollar sign in the values
    still to come. *)
Definition dollar_free (fs : filesystem) (p : pc) : bool :=
  match p with
  | AtStart path =>
      match fs path with
      | Missing => false
      | Unopenable _ => true
      | Readable lines _ => forallb plain_line lines
      end
  | AtScan c | AtCheck _ _ c | AtSetenv _ _ c | AtMark _ c => forallb plain_line (rest c)
  | AtExpand _ cur c => no_dollar cur && forallb plain_line (rest c)
  | AtSend _ | Finished => true
  end.

(** Where load.go stands when the version that expands stands at [p]:
    inside [expandVariables] it has yet to test the key. *)
Definition as_plain (p : pc) : pc :=
  match p with
  | AtExpand key cur c => AtCheck key cur c
  | _ => p
  end.

(** Steps that a load of the version that expands still takes, at
    most, on such a file. *)
Definition steps_left_expanding (fs : filesystem) (p : pc) : nat :=
  match p with
  | AtStart path =>
      match fs path with
      | Readable lines _ => 5 * length lines + 3
      | _ => 2
      end
  | AtScan c => 5 * length (rest c) + 2
  | AtExpand _ _ c => 5 * length (rest c) + 6
  | AtCheck _ _ c => 5 * length (rest c) + 5
  | AtSetenv _ _ c => 5 * length (rest c) + 4
  | AtMark _ c => 5 * length (rest c) + 3
  | AtSend _ => 1
  | Finished => 0
  end.

(** The lines still to come hold no dollar sign in their values; this
    is asked of the version that expands only. *)
Definition ahead (v : variant) (lines : list string) : bool :=
  match v with Plain => true | Expanding => forallb plain_line lines end.

(** A load whose expansions come to an end at once, whatever the other
    loads write into the environment: there is no dollar sign in the
    value it is expanding nor in the values still to come. *)
Definition tame (v : variant) (fs : filesystem) (p : pc) : bool :=
  match p with
  | AtStart path =>
      match fs path with
      | Readable lines _ => ahead v lines
      | _ => true
      end
  | AtScan c | AtCheck _ _ c | AtSetenv _ _ c | AtMark _ c => ahead v (rest c)
  | AtExpand _ cur c => no_dollar cur && ahead v (rest c)
  | AtSend _ | Finished => true
  end.

(** The channel has room for an error of every load that has not
    returned, and every load is tame. *)
Definition settling (v : variant) (fs : filesystem) (s : system) : Prop :=
  length (tasks s) <= capacity (Ce (state s)) /\
  length (buffer (Ce (state s))) <= count_finished (tasks s) /\
  Forall (fun p => tame v fs p = true) (tasks s).

(** A call of [Bind] with at most ten paths and, for the version that
    expands, no dollar sign in the values of its files. *)
Definition tame_call (v : variant) (w : world) (rPath : list string) : Prop :=
  length rPath <= 10 /\
  (v = Expanding ->
   forall path lines serr, AtStart path ∈ start_tasks w rPath ->
     files w path = Readable lines serr -> forallb plain_line lines = true).

(** The dollar signs of a text. *)
Fixpoint dollars (s : string) : nat :=
  match s with
  | EmptyString => 0
  | String c r => (if (code c =? 36)%N then 1 else 0) + dollars r
  end.

(** A load of a file whose reading fails with [cause] has not returned
    without an error in the channel. *)
Definition failing_read (cause : string) (path : string) (sh : shared) (p : pc) : Prop :=
  match p with
  | AtStart path' => path' = path
  | AtScan c | AtExpand _ _ c | AtCheck _ _ c | AtSetenv _ _ c | AtMark _ c =>
      scan_err c = Some cause
  | AtSend _ => True
  | Finished => buffer (Ce sh) <> []
  end.

(** A file that breaks off while it is read. *)
Definition torn_file : filesystem := fun _ => Readable ["PORT=8080"] (Some "unexpected EOF").
Definition torn_world : world :=
  {| files := torn_file; cwd := "/app"; environment := ∅; log_lines := [] |}.
Definition torn_bound : bound :=
  {| result := Failed (ErrReading "/app/.env" "unexpected EOF");
     after_world :=
       {| files := torn_file; cwd := "/app"; environment := <["PORT" := "8080"]> ∅;
          log_lines := [LogError (ErrReading "/app/.env" "unexpected EOF")] |};
     after_target := port_config |}.

Definition unsigned_kind (k : Kind) : bool :=
  match k with Uint | Uint8 | Uint16 | Uint32 | Uint64 => true | _ => false end.

(** * Properties *)

(** ** The converter *)

Lemma assign_settable (x : value) (fld : field) :
  CanSet fld = true -> assign x fld = Returned (set_value x fld).
Proof. intros H. unfold assign. now rewrite H. Qed.

Lemma convert_signed (value : string) (fld : field) :
  signed_kind (kind_of (ftype fld)) = true ->
  ftype fld <> Duration ->
  convert value fld =
    match ParseInt value with
    | Fail err => Failed (ErrConversion value "int" err)
    | Ok n => assign (SetInt (kind_of (ftype fld)) n) fld
    end.
Proof.
  intros Hk Hd. unfold convert.
  destruct (kind_of (ftype fld)); try discriminate Hk;
    (destruct (decide (ftype fld = Duration)); [contradiction | reflexivity]).
Qed.

Lemma SetInt_42 (k : Kind) : SetInt k 42 = VInt 42.
Proof. destruct k; reflexivity. Qed.

(** What a setter of [reflect.Value] leaves in a field that can be
    set: the value given, under the declaration the field had. *)
Lemma assign_stores (x : value) (fld : field) :
  CanSet fld = true ->
  exists fld', assign x fld = Returned fld' /\ fvalue fld' = x /\
    same_declaration fld fld'.
Proof.
  intros H. exists (set_value x fld). rewrite assign_settable by assumption.
  unfold same_declaration. cbn. auto 8.
Qed.

(** C7. Canonical literals convert to the expected typed values, for
    every field that can be set: after "42" a signed integer field that
    is not a duration holds 42, after "true" a bool field holds true,
    after "3.14" a float64 field holds the binary64 value nearest to 3.14
    (and a float32 field its rounding to binary32), "30s" into a
    [time.Duration] field is read as a duration, so that the field holds
    30 seconds in nanoseconds, where a parse as a plain integer fails,
    and after "a,b,c" a field that holds a [[]string] holds the three
    pieces cut at the commas.  In each case [convert] returns no error
    and the declaration of the field (name, tag, type) is as before. *)
Theorem convert_canonical_literals (fld : field) :
  CanSet fld = true ->
  (signed_kind (kind_of (ftype fld)) = true -> ftype fld <> Duration ->
     exists fld', convert "42" fld = Returned fld' /\
       fvalue fld' = VInt 42 /\ same_declaration fld fld') /\
  (kind_of (ftype fld) = Bool ->
     exists fld', convert "true" fld = Returned fld' /\
       fvalue fld' = VBool true /\ same_declaration fld fld') /\
  (kind_of (ftype fld) = Float64 ->
     exists fld', convert "3.14" fld = Returned fld' /\
       fvalue fld' = VFloat float64_3_14 /\ same_declaration fld fld') /\
  (kind_of (ftype fld) = Float32 ->
     exists fld', convert "3.14" fld = Returned fld' /\
       fvalue fld' = VFloat float32_3_14 /\ same_declaration fld fld') /\
  (ftype fld = Duration ->
     (exists fld', convert "30s" fld = Returned fld' /\
        fvalue fld' = VInt (30 * 1000000000) /\ same_declaration fld fld') /\
     exists err, ParseInt "30s" = Fail err) /\
  (kind_of (ftype fld) = Slice -> assignable_from_strings (ftype fld) = true ->
     exists fld', convert "a,b,c" fld = Returned fld' /\
       fvalue fld' = VStrings ["a"; "b"; "c"] /\ same_declaration fld fld') /\
  (2 * Z.abs (7070651414971679 * 100 - 314 * 2 ^ 51) <= 100)%Z /\
  (2 * Z.abs (13170115 * 100 - 314 * 2 ^ 22) <= 100)%Z.
Proof.
  intros Hset.
  refine (conj _ (conj _ (conj _ (conj _ (conj _ (conj _ (conj _ _))))))).
  - intros Hk Hd. rewrite convert_signed by assumption.
    change (ParseInt "42") with (Ok 42%Z). cbv iota.
    rewrite SetInt_42. now apply assign_stores.
  - intros Hk. unfold convert. rewrite Hk.
    change (ParseBool "true") with (Ok true). cbv iota. now apply assign_stores.
  - intros Hk. unfold convert. rewrite Hk.
    change (ParseFloat "3.14") with (Ok float64_3_14). cbv iota.
    now apply assign_stores.
  - intros Hk. unfold convert. rewrite Hk.
    change (ParseFloat "3.14") with (Ok float64_3_14). cbv iota.
    now apply (assign_stores (SetFloat Float32 float64_3_14)).
  - intros Hd. split; [| eexists; reflexivity].
    unfold convert. rewrite Hd. simpl kind_of. cbv iota.
    destruct (decide (Duration = Duration)); [| contradiction].
    change (ParseDuration "30s") with (Ok 30000000000%Z). cbv iota.
    now apply assign_stores.
  - intros Hk Ha. unfold convert. rewrite Hk, Ha, andb_false_r.
    now apply assign_stores.
  - vm_compute. discriminate.
  - vm_compute. discriminate.
Qed.

Lemma convert_canonical_literals_witness :
  exists fld', convert "42" int_field = Returned fld' /\
    fvalue fld' = VInt 42 /\ same_declaration int_field fld'.
Proof.
  apply (proj1 (convert_canonical_literals int_field eq_refl)); [reflexivity | discriminate].
Defined.

(** For a field that can be set and is not a slice that cannot hold a
    [[]string], [convert] assigns or returns an error that names the text
    it was given. *)
Lemma convert_returns (value : string) (fld : field) :
  CanSet fld = true ->
  (kind_of (ftype fld) = Slice -> assignable_from_strings (ftype fld) = true) ->
  (exists fld', convert value fld = Returned fld') \/
  (exists e, convert value fld = Failed e /\ names_input value fld e).
Proof.
  intros Hset Hs. unfold convert, names_input.
  assert (Hassign : forall x, exists fld', assign x fld = Returned fld').
  { intros x. rewrite assign_settable by assumption. eauto. }
  assert (Hconv : forall target cause,
            exists e, Failed (A := field) (ErrConversion value target cause) = Failed e /\
              ((exists target cause, e = ErrConversion value target cause) \/
               e = ErrUnsupported (kind_of (ftype fld)) value)).
  { intros target cause. eexists. split; [reflexivity | left; eauto]. }
  destruct (kind_of (ftype fld)) eqn:Hk;
    try (right; eexists; split; [reflexivity | right; reflexivity]);
    try (left; apply Hassign).
  all: try (destruct (decide (ftype fld = Duration));
            [destruct (ParseDuration value) | destruct (ParseInt value)];
            (left; apply Hassign) || (right; apply Hconv)).
  all: try (destruct (ParseUint value); (left; apply Hassign) || (right; apply Hconv)).
  - destruct (ParseBool value); (left; apply Hassign) || (right; apply Hconv).
  - destruct (ParseFloat value); (left; apply Hassign) || (right; apply Hconv).
  - destruct (ParseFloat value); (left; apply Hassign) || (right; apply Hconv).
  - destruct (ParseComplex value) as [[re im]|];
      (left; apply Hassign) || (right; apply Hconv).
  - destruct (ParseComplex value) as [[re im]|];
      (left; apply Hassign) || (right; apply Hconv).
  - rewrite Hs, andb_false_r by reflexivity. left; apply Hassign.
Qed.

(** C6. [convert] does not return for every field: for a slice field
    whose type cannot hold a [[]string], such as [[]int], the call of
    [field.Set] panics, whatever the text; no value is assigned and no
    error is returned. *)
Theorem convert_panics_on_other_slices (value : string) (fld : field) :
  kind_of (ftype fld) = Slice ->
  assignable_from_strings (ftype fld) = false ->
  (exists msg, convert value fld = Panicked msg) /\
  (CanSet fld = true ->
   convert value fld =
     Panicked "reflect.Set: value of type []string is not assignable") /\
  (forall fld', convert value fld <> Returned fld') /\
  (forall e, convert value fld <> Failed e).
Proof.
  intros Hk Ha. unfold convert, assign. rewrite Hk, Ha.
  destruct (CanSet fld); cbn; repeat split; eauto; intros; discriminate.
Qed.

Lemma convert_panics_on_other_slices_witness :
  convert "1,2" ints_field =
    Panicked "reflect.Set: value of type []string is not assignable".
Proof.
  apply (convert_panics_on_other_slices "1,2" ints_field); reflexivity.
Defined.

(** ** The binder: validation of the target *)

(** For a typed argument that is not a pointer to a struct, [Bind]
    returns the error at once, under every schedule: nothing is loaded
    and the world is as before. *)
Lemma Bind_rejects_other_targets (v : variant) (sched : list nat) (w : world)
    (i : iface) (rPath : list string) :
  not_struct_pointer i ->
  Bind v sched w i rPath =
    Some {| result := Failed (ErrExpectedPointer (type_text i));
            after_world := w; after_target := i |}.
Proof.
  destruct i as [|t| |t|fields]; simpl; intros H; try contradiction.
  - unfold Bind. simpl. destruct (bool_decide (kind_of t = Pointer)); reflexivity.
  - reflexivity.
  - unfold Bind. simpl. rewrite bool_decide_eq_false_2 by assumption. reflexivity.
Qed.

(** C8. For the nil argument [Bind] does not return the error: the call
    of [Kind] on the nil [Type] that [reflect.TypeOf(nil)] returns
    panics, under every schedule; nothing is loaded and the environment
    is as before.  For every other argument that is not a pointer to a
    struct, [Bind] returns the error at once and leaves the world as it
    was. *)
Theorem Bind_nil_panics (v : variant) (sched : list nat) (w : world)
    (rPath : list string) :
  Bind v sched w NilInterface rPath =
    Some {| result := Panicked "invalid memory address or nil pointer dereference";
            after_world := w; after_target := NilInterface |} /\
  (forall i, not_struct_pointer i ->
     Bind v sched w i rPath =
       Some {| result := Failed (ErrExpectedPointer (type_text i));
               after_world := w; after_target := i |}).
Proof.
  split.
  - unfold Bind. cbn [TypeOf_Kind]. reflexivity.
  - intros i Hi. now apply Bind_rejects_other_targets.
Qed.

Lemma Bind_nil_panics_witness :
  Bind Plain [0] locked_world (NotPointer (Basic Int)) ["d1"] =
    Some {| result := Failed (ErrExpectedPointer "int");
            after_world := locked_world; after_target := NotPointer (Basic Int) |}.
Proof.
  apply (proj2 (Bind_nil_panics Plain [0] locked_world ["d1"]) (NotPointer (Basic Int))).
  exact I.
Defined.

(** ** The binder: a variable that is empty *)

Lemma Getenv_empty_value (e : environ) (key : string) :
  e !! key = Some "" -> Getenv e key = "".
Proof. intros H. unfold Getenv. destruct (decide (key = "")); [reflexivity | now rewrite H]. Qed.

Lemma Getenv_unset (e : environ) (key : string) :
  e !! key = None -> Getenv e key = "".
Proof. intros H. unfold Getenv. destruct (decide (key = "")); [reflexivity | now rewrite H]. Qed.

Lemma Getenv_no_name (e : environ) : Getenv e "" = "".
Proof. reflexivity. Qed.

Lemma bind_field_absent (e : environ) (fld : field) :
  Getenv e (Tag_Get (tag fld) "env") = "" ->
  bind_field e fld = inl (fld, [WarnVarNotFound (Tag_Get (tag fld) "env")]).
Proof. intros H. unfold bind_field. rewrite H. reflexivity. Qed.

Lemma bind_fields_keeps_absent (e : environ) (fields : list field) (j : nat) (fld : field) :
  fields !! j = Some fld ->
  Getenv e (Tag_Get (tag fld) "env") = "" ->
  (bind_fields e fields).1.1 !! j = Some fld.
Proof.
  revert j. induction fields as [|f fields IH]; intros j Hj He; [discriminate |].
  simpl. destruct (bind_field e f) as [[f' l]|msg] eqn:Hf.
  - destruct j as [|j].
    + injection Hj as ->. rewrite bind_field_absent in Hf by assumption.
      injection Hf as <- <-. now destruct (bind_fields e fields) as [[done l'] p].
    + specialize (IH j Hj He).
      now destruct (bind_fields e fields) as [[done l'] p].
  - exact Hj.
Qed.

(** C10. A variable whose value is the empty string counts as absent.
    For a field whose tag names a variable set to the empty string, and
    for a field without an [env] tag, the round of the loop converts
    nothing: it leaves the field as it is and logs that the variable was
    not found.  Whenever [Bind] returns or panics, such a field of the
    struct holds what it held before. *)
Theorem Bind_empty_variable_is_absent (v : variant) (sched : list nat) (w : world)
    (fields : list field) (rPath : list string) (b : bound) (j : nat) (fld : field) :
  Bind v sched w (PointerToStruct fields) rPath = Some b ->
  fields !! j = Some fld ->
  environment (after_world b) !! Tag_Get (tag fld) "env" = Some "" \/
  Tag_Get (tag fld) "env" = "" ->
  bind_field (environment (after_world b)) fld =
    inl (fld, [WarnVarNotFound (Tag_Get (tag fld) "env")]) /\
  Elem_fields (after_target b) !! j = Some fld.
Proof.
  intros HB Hj Hempty.
  assert (He : Getenv (environment (after_world b)) (Tag_Get (tag fld) "env") = "").
  { destruct Hempty as [H|H]; [now apply Getenv_empty_value | rewrite H; reflexivity]. }
  split; [now apply bind_field_absent |].
  unfold Bind in HB. simpl in HB.
  destruct (all_finished _); [| discriminate]. injection HB as <-.
  unfold Bind_finish in *.
  destruct (last _); [exact Hj |].
  pose proof (bind_fields_keeps_absent
                (env (state (run v (files w) sched (start_system w rPath))))
                fields j fld Hj) as Hkeep.
  simpl in *.
  destruct (bind_fields _ fields) as [[done l] p]. simpl in *.
  now apply Hkeep.
Qed.

(** ** The parsing rule of the loader *)

Section StringFacts.

Lemma app_cons (c : ascii) (a b : string) : String c a +:+ b = String c (a +:+ b).
Proof. reflexivity. Qed.

Lemma app_empty_l (s : string) : "" +:+ s = s.
Proof. reflexivity. Qed.

Lemma app_empty_r (s : string) : s +:+ "" = s.
Proof. induction s as [|x s IH]; [reflexivity | now rewrite app_cons, IH]. Qed.

Lemma app_assoc_string (a b c : string) : (a +:+ b) +:+ c = a +:+ (b +:+ c).
Proof. induction a as [|x a IH]; [reflexivity | now rewrite !app_cons, IH]. Qed.

Lemma rev_app_twice (a b c : string) :
  String.rev_app (String.rev_app a b) c = String.rev_app b (a +:+ c).
Proof.
  revert b c. induction a as [|x a IH]; intros b c; simpl; [reflexivity |].
  now rewrite IH, app_cons.
Qed.

Lemma rev_rev (s : string) : String.rev (String.rev s) = s.
Proof. unfold String.rev. rewrite rev_app_twice. simpl. apply app_empty_r. Qed.

Lemma rev_app_append (a b acc : string) :
  String.rev_app (a +:+ b) acc = String.rev_app b (String.rev_app a acc).
Proof.
  revert acc. induction a as [|x a IH]; intros acc; [reflexivity |].
  rewrite app_cons. simpl. apply IH.
Qed.

Lemma rev_app_acc (a b c : string) :
  String.rev_app a (b +:+ c) = String.rev_app a b +:+ c.
Proof.
  revert b. induction a as [|x a IH]; intros b; simpl; [reflexivity |].
  apply (IH (String x b)).
Qed.

Lemma rev_snoc (u : string) (c : ascii) :
  String.rev (u +:+ String c "") = String c (String.rev u).
Proof. unfold String.rev. now rewrite rev_app_append. Qed.

Lemma rev_cons (c : ascii) (r : string) :
  String.rev (String c r) = String.rev r +:+ String c "".
Proof. unfold String.rev. simpl. apply (rev_app_acc r "" (String c "")). Qed.

Lemma take_skip (n : nat) (s : string) : take n s +:+ skip n s = s.
Proof.
  revert s. induction n as [|n IH]; intros [|c r]; simpl; try reflexivity.
  now rewrite app_cons, IH.
Qed.

Lemma skip_skip (a b : nat) (s : string) : skip a (skip b s) = skip (b + a) s.
Proof.
  revert s. induction b as [|b IH]; intros s; simpl; [reflexivity |].
  destruct s as [|c r]; [now destruct a | apply IH].
Qed.

Lemma skip_append (n : nat) (u v : string) :
  n <= len u -> skip n (u +:+ v) = skip n u +:+ v.
Proof.
  revert u. induction n as [|n IH]; intros u Hn; [reflexivity |].
  destruct u as [|c r]; simpl in *; [lia |].
  rewrite ?app_cons. simpl. apply IH; lia.
Qed.

Lemma drop_spaces_is_skip (w : string -> nat) (fuel : nat) (s : string) :
  exists j, drop_spaces w fuel s = skip j s.
Proof.
  revert s. induction fuel as [|fuel IH]; intros s; cbn [drop_spaces]; [now exists 0 |].
  destruct (w s) as [|k]; [now exists 0 |].
  destruct (IH (skip (S k) s)) as [j Hj]. rewrite Hj, skip_skip. eauto.
Qed.

Lemma prefix_hash (s : string) :
  HasPrefix s "#" = true <-> exists r, s = String "#" r.
Proof.
  destruct s as [|c r]; cbn [HasPrefix].
  - split; [discriminate | intros [r' H]; discriminate].
  - rewrite andb_true_r. destruct (Ascii.eqb_spec "#" c) as [<-|Hne].
    + split; eauto.
    + split; [discriminate | intros [r' H]; injection H as H1 H2; congruence].
Qed.

(** A blank match read backwards never reaches a closing [#]. *)
Lemma space_width_rev_hash (u : string) :
  space_width_rev (u +:+ "#") <= len u.
Proof.
  destruct u as [|a [|b [|c u]]]; rewrite ?app_cons, ?app_empty_l;
    unfold space_width_rev, len; cbn [String.length].
  - vm_compute. lia.
  - destruct (ascii_space a); [lia |].
    change (code "#" =? 194)%N with false. cbn [andb]. lia.
  - destruct (ascii_space a); [lia |].
    destruct (_ && _)%N; [lia |].
    change (space_width (String "#" (String b (String a "")))) with 0.
    cbn [Nat.eqb]. lia.
  - destruct (ascii_space a); [lia |].
    destruct (_ && _)%N; [lia |].
    destruct (_ =? 3)%nat; lia.
Qed.

Lemma drop_spaces_rev_hash (fuel : nat) (u : string) :
  exists u', drop_spaces space_width_rev fuel (u +:+ "#") = u' +:+ "#".
Proof.
  revert u. induction fuel as [|fuel IH]; intros u; cbn [drop_spaces]; [eauto |].
  pose proof (space_width_rev_hash u) as Hw.
  destruct (space_width_rev (u +:+ "#")) as [|k]; [eauto |].
  rewrite skip_append by assumption. apply IH.
Qed.

Lemma TrimRight_keeps_hash (r : string) :
  exists r', TrimRight (String "#" r) = String "#" r'.
Proof.
  unfold TrimRight. rewrite rev_cons.
  destruct (drop_spaces_rev_hash (len (String "#" r)) (String.rev r)) as [u' ->].
  rewrite rev_snoc. eauto.
Qed.

Lemma TrimRight_hash_inv (t r' : string) :
  TrimRight t = String "#" r' -> exists r, t = String "#" r.
Proof.
  unfold TrimRight. intros H.
  destruct (drop_spaces_is_skip space_width_rev (len t) (String.rev t)) as [j Hj].
  rewrite Hj in H. apply (f_equal String.rev) in H.
  rewrite rev_rev, rev_cons in H.
  pose proof (take_skip j (String.rev t)) as Hts. rewrite H in Hts.
  apply (f_equal String.rev) in Hts. rewrite rev_rev in Hts.
  rewrite <- app_assoc_string, rev_snoc in Hts. eauto.
Qed.

Lemma HasPrefix_hash_TrimSpace (text : string) :
  HasPrefix (TrimSpace text) "#" = true <-> first_non_space text = Some "#"%char.
Proof.
  unfold TrimSpace, first_non_space. rewrite prefix_hash. split.
  - intros [r' H]. apply TrimRight_hash_inv in H as [r ->]. reflexivity.
  - destruct (TrimLeft text) as [|c r]; [discriminate |].
    intros [= ->]. apply TrimRight_keeps_hash.
Qed.

Lemma Index_byte (sep : ascii) (s : string) :
  cut_first sep s =
    match Index s (String sep "") with
    | Some m => Some (take m s, skip (m + 1) s)
    | None => None
    end.
Proof.
  induction s as [|c r IH]; [reflexivity |].
  cbn [cut_first Index HasPrefix]. rewrite andb_true_r, (Ascii.eqb_sym sep c).
  destruct (Ascii.eqb c sep); [reflexivity |].
  rewrite IH. destruct (Index r (String sep "")); reflexivity.
Qed.

Lemma SplitN_two (line : string) :
  line <> "" ->
  SplitN line "=" 2 =
    match cut_first "="%char line with
    | Some (key, value) => [key; value]
    | None => [line]
    end.
Proof.
  intros Hne. rewrite Index_byte. unfold SplitN.
  destruct line as [|c r]; [contradiction |].
  change (Nat.min 2 (S (len (String c r)))) with 2. cbn [split_loop].
  destruct (Index (String c r) "="); reflexivity.
Qed.

Lemma len_zero (s : string) : (len s =? 0)%nat = true <-> s = "".
Proof. destruct s; simpl; split; congruence. Qed.

End StringFacts.

Lemma parse_line_is_rule (text : string) : parse_line text = parse_line_rule text.
Proof.
  unfold parse_line, parse_line_rule.
  destruct (decide (TrimSpace text = "")) as [E|Hne].
  - rewrite E. reflexivity.
  - destruct (len (TrimSpace text) =? 0)%nat eqn:Hl;
      [apply len_zero in Hl; contradiction |].
    rewrite orb_false_l.
    destruct (decide (first_non_space text = Some "#"%char)) as [Hc|Hc].
    + apply HasPrefix_hash_TrimSpace in Hc. now rewrite Hc.
    + destruct (HasPrefix (TrimSpace text) "#") eqn:Hp;
        [apply HasPrefix_hash_TrimSpace in Hp; contradiction |].
      rewrite SplitN_two by assumption.
      destruct (cut_first "="%char (TrimSpace text)) as [[key value]|]; reflexivity.
Qed.

(** A step of the only load of a system. *)
Lemma sys_step_single (v : variant) (fs : filesystem) (sh : shared) (p : pc)
    (sh' : shared) (p' : pc) :
  load_step v fs sh p = Some (sh', p') ->
  sys_step v fs 0 {| state := sh; tasks := [p] |} = {| state := sh'; tasks := [p'] |}.
Proof. intros H. unfold sys_step. cbn. now rewrite H. Qed.

(** A load that is left alone between its test of the key and the mark:
    the test finds the key unmarked, [os.Setenv] accepts the pair, and
    the key is marked. *)
Lemma commit_alone (v : variant) (fs : filesystem) (sh : shared)
    (key value : string) (c : cursor) :
  is_loaded (loadedVars sh) key = false ->
  setenv_ok key value = true ->
  run v fs [0; 0; 0] {| state := sh; tasks := [AtCheck key value c] |} =
    {| state := set_loaded (<[key := true]> (loadedVars sh))
                  (set_env (<[key := value]> (env sh)) sh);
       tasks := [AtScan c] |}.
Proof.
  intros Hl Hok. unfold run. cbn [fold_left].
  rewrite (sys_step_single v fs sh _ sh (AtSetenv key value c))
    by (cbn [load_step]; now rewrite Hl).
  rewrite (sys_step_single v fs sh _ (set_env (<[key := value]> (env sh)) sh)
             (AtMark key c))
    by (cbn [load_step]; unfold Setenv; now rewrite Hok).
  now rewrite (sys_step_single v fs _ _
                 (set_loaded (<[key := true]> (loadedVars sh))
                    (set_env (<[key := value]> (env sh)) sh)) (AtScan c)).
Qed.

(** C3. For every line that [load] scans it applies the rule: the line
    is trimmed; a blank line and a line whose first byte other than
    white space is [#] are passed over; otherwise the line is cut at the
    first [=] only, both parts are trimmed, and that pair goes on to be
    committed (after expansion, in the version that expands): when the
    key is not marked and [os.Setenv] accepts the pair, the steps of
    [load] for the line leave the variable set to the value, the key
    marked, and every other variable, the log and the error channel as
    they were.  A line without [=] is passed over: the shared state,
    with its log and its error channel, is left as it was. *)
Theorem load_applies_parsing_rule (v : variant) (fs : filesystem) (sh : shared)
    (c : cursor) (text : string) (lines' : list string) :
  rest c = text :: lines' ->
  parse_line text = parse_line_rule text /\
  rest (advance c) = lines' /\
  load_step v fs sh (AtScan c) =
    Some (sh,
          match parse_line_rule text with
          | None => AtScan (advance c)
          | Some (key, value) =>
              match v with
              | Plain => AtCheck key value (advance c)
              | Expanding => AtExpand key (expand_once (env sh) value) (advance c)
              end
          end) /\
  (cut_first "="%char (TrimSpace text) = None ->
     load_step v fs sh (AtScan c) = Some (sh, AtScan (advance c))) /\
  (forall key value,
     is_loaded (loadedVars sh) key = false ->
     load_step v fs sh (AtCheck key value (advance c)) =
       Some (sh, AtSetenv key value (advance c)) /\
     load_step v fs sh (AtSetenv key value (advance c)) =
       match Setenv (env sh) key value with
       | Some e => Some (set_env e sh, AtMark key (advance c))
       | None => Some (sh, AtSend (ErrSetting key "setenv: invalid argument"))
       end) /\
  (forall key value,
     parse_line_rule text = Some (key, value) ->
     is_loaded (loadedVars sh) key = false ->
     setenv_ok key value = true ->
     exists sh',
       run Plain fs [0; 0; 0; 0] {| state := sh; tasks := [AtScan c] |} =
         {| state := sh'; tasks := [AtScan (advance c)] |} /\
       env sh' !! key = Some value /\
       (forall k, k <> key -> env sh' !! k = env sh !! k) /\
       is_loaded (loadedVars sh') key = true /\
       Ce sh' = Ce sh /\ logged sh' = logged sh) /\
  (forall key value,
     is_loaded (loadedVars sh) key = false ->
     setenv_ok key value = true ->
     exists sh',
       run v fs [0; 0; 0] {| state := sh; tasks := [AtCheck key value (advance c)] |} =
         {| state := sh'; tasks := [AtScan (advance c)] |} /\
       env sh' !! key = Some value /\
       (forall k, k <> key -> env sh' !! k = env sh !! k) /\
       is_loaded (loadedVars sh') key = true /\
       Ce sh' = Ce sh /\ logged sh' = logged sh).
Proof.
  intros Hrest.
  assert (Hstep : load_step v fs sh (AtScan c) =
    Some (sh,
          match parse_line_rule text with
          | None => AtScan (advance c)
          | Some (key, value) =>
              match v with
              | Plain => AtCheck key value (advance c)
              | Expanding => AtExpand key (expand_once (env sh) value) (advance c)
              end
          end)).
  { cbn [load_step]. rewrite Hrest, parse_line_is_rule.
    destruct (parse_line_rule text) as [[key value]|]; [destruct v |]; reflexivity. }
  assert (Hcommit : forall v0 key value,
    is_loaded (loadedVars sh) key = false ->
    setenv_ok key value = true ->
    exists sh',
      run v0 fs [0; 0; 0] {| state := sh; tasks := [AtCheck key value (advance c)] |} =
        {| state := sh'; tasks := [AtScan (advance c)] |} /\
      env sh' !! key = Some value /\
      (forall k, k <> key -> env sh' !! k = env sh !! k) /\
      is_loaded (loadedVars sh') key = true /\
      Ce sh' = Ce sh /\ logged sh' = logged sh).
  { intros v0 key value Hl Hok. eexists. split; [now apply commit_alone |].
    cbn. split; [apply lookup_insert_eq |].
    split; [intros k Hk; now apply lookup_insert_ne |].
    split; [unfold is_loaded; now rewrite lookup_insert_eq | auto]. }
  split; [apply parse_line_is_rule |].
  split; [unfold advance; cbn; now rewrite Hrest |].
  split; [exact Hstep |].
  split.
  { intros Hcut. rewrite Hstep. unfold parse_line_rule. rewrite Hcut.
    destruct (decide _); [reflexivity |]. destruct (decide _); reflexivity. }
  split.
  { intros key value Hl. cbn [load_step]. rewrite Hl.
    split; [reflexivity |]. destruct (Setenv (env sh) key value); reflexivity. }
  split.
  - intros key value Hrule Hl Hok.
    destruct (Hcommit Plain key value Hl Hok) as (sh' & Hrun & Hrest').
    exists sh'. split; [| exact Hrest'].
    rewrite <- Hrun. unfold run. cbn [fold_left].
    rewrite (sys_step_single Plain fs sh (AtScan c) sh (AtCheck key value (advance c)));
      [reflexivity |].
    cbn [load_step]. now rewrite Hrest, parse_line_is_rule, Hrule.
  - intros key value. apply Hcommit.
Qed.

Lemma load_applies_parsing_rule_witness :
  exists sh',
    run Plain (fun _ => Missing) [0; 0; 0; 0] {| state := fresh; tasks := [AtScan one_line] |}
      = {| state := sh'; tasks := [AtScan (advance one_line)] |} /\
    env sh' !! "PORT" = Some "8080" /\
    (forall k, k <> "PORT" -> env sh' !! k = env fresh !! k) /\
    is_loaded (loadedVars sh') "PORT" = true /\
    Ce sh' = Ce fresh /\ logged sh' = logged fresh.
Proof.
  pose proof (load_applies_parsing_rule Plain (fun _ => Missing) fresh one_line
                " PORT = 8080 " [] eq_refl) as (_ & _ & _ & _ & _ & H & _).
  apply (H "PORT" "8080"); reflexivity.
Defined.

(** ** Expansion *)

Section ExpandFacts.

Variable env : environ.

Lemma len_app (a b : string) : len (a +:+ b) = len a + len b.
Proof. induction a as [|x a IH]; [reflexivity |]. rewrite app_cons. simpl. now rewrite IH. Qed.

Lemma take_exact (a b : string) : take (len a) (a +:+ b) = a.
Proof.
  induction a as [|x a IH]; [now destruct b |].
  rewrite app_cons. simpl. now rewrite IH.
Qed.

Lemma skip_exact (a b : string) : skip (len a) (a +:+ b) = b.
Proof. induction a as [|x a IH]; [reflexivity |]. rewrite app_cons. simpl. exact IH. Qed.

Lemma name_end_close (name rest : string) :
  no_close name = true -> name_end (name +:+ String "}" rest) = Some (len name).
Proof.
  induction name as [|c name IH]; [reflexivity |].
  rewrite app_cons. cbn [no_close name_end]. intros [Hc Hn]%andb_prop.
  destruct (decide (c = "}"%char)) as [->|_]; [discriminate |].
  now rewrite IH.
Qed.

Lemma placeholder_app (name rest : string) :
  placeholder name +:+ rest = String "$" (String "{" (name +:+ String "}" rest)).
Proof. unfold placeholder. rewrite !app_assoc_string. reflexivity. Qed.

Lemma len_placeholder (name : string) : len (placeholder name) = len name + 3.
Proof. unfold placeholder. rewrite !len_app. simpl. lia. Qed.

Lemma re_placeholder (name rest : string) :
  name <> "" -> no_close name = true ->
  re (placeholder name +:+ rest) = Some (len (placeholder name)).
Proof.
  intros Hne Hn. rewrite placeholder_app, len_placeholder.
  cbn [re]. rewrite name_end_close by assumption.
  destruct name as [|c name]; [contradiction |]. reflexivity.
Qed.

Lemma replace_from_inside (rx : regexp) (repl : string -> string) (k : nat) (s : string) :
  replace_from rx repl k s = replace_from rx repl 0 (skip k s).
Proof.
  revert k. induction s as [|c r IH]; intros [|k]; try reflexivity.
  cbn [replace_from skip]. apply IH.
Qed.

Lemma replace_match (rx : regexp) (repl : string -> string) (s : string) (m : nat) :
  rx s = Some (S m) -> S m <= len s ->
  ReplaceAllStringFunc rx s repl =
    repl (take (S m) s) +:+ ReplaceAllStringFunc rx (skip (S m) s) repl.
Proof.
  unfold ReplaceAllStringFunc. intros Hrx Hlen.
  destruct s as [|c r]; [simpl in Hlen; lia |].
  cbn [replace_from]. rewrite Hrx, replace_from_inside. reflexivity.
Qed.

Lemma replace_no_match (rx : regexp) (repl : string -> string) (c : ascii) (r : string) :
  rx (String c r) = None ->
  ReplaceAllStringFunc rx (String c r) repl =
    String c (ReplaceAllStringFunc rx r repl).
Proof. unfold ReplaceAllStringFunc. intros Hrx. cbn [replace_from]. now rewrite Hrx. Qed.

Lemma placeholder_name (name : string) :
  take (len (placeholder name) - 1 - 2) (skip 2 (placeholder name)) = name.
Proof.
  rewrite len_placeholder.
  replace (len name + 3 - 1 - 2) with (len name) by lia.
  rewrite <- (app_empty_r (placeholder name)), placeholder_app.
  cbn [skip]. apply take_exact.
Qed.

(** A placeholder is replaced by the value of its variable when that
    value is not empty, and stays as it is otherwise. *)
Lemma expand_once_placeholder (e : environ) (name rest : string) :
  name <> "" -> no_close name = true ->
  expand_once e (placeholder name +:+ rest) =
    (if decide (Getenv e name = "") then placeholder name else Getenv e name)
    +:+ expand_once e rest.
Proof.
  intros Hne Hn. unfold expand_once.
  assert (Hl : exists m, len (placeholder name) = S m).
  { rewrite len_placeholder. exists (len name + 2). lia. }
  destruct Hl as [m Hm].
  rewrite (replace_match re _ _ m).
  - rewrite <- Hm, take_exact, skip_exact. unfold replacer at 1.
    rewrite placeholder_name. reflexivity.
  - rewrite <- Hm. now apply re_placeholder.
  - rewrite <- Hm, len_app. lia.
Qed.

(** A byte that does not start a placeholder is copied. *)
Lemma expand_once_other (e : environ) (c : ascii) (r : string) :
  re (String c r) = None ->
  expand_once e (String c r) = String c (expand_once e r).
Proof. apply replace_no_match. Qed.

Lemma expand_once_xs (e : environ) (n : nat) : expand_once e (xs n) = xs n.
Proof.
  induction n as [|n IH]; [reflexivity |].
  cbn [xs]. rewrite expand_once_other by reflexivity. now rewrite IH.
Qed.

Lemma expand_loop_rounds (fuel : nat) (value r : string) :
  expand_loop fuel env value = Some r ->
  expand_once env r = r /\ exists n, r = rounds n env value.
Proof.
  revert value. induction fuel as [|fuel IH]; intros value; [discriminate |].
  cbn [expand_loop]. destruct (decide _) as [E|_].
  - intros [= <-]. split; [exact E | now exists 0].
  - intros H. destruct (IH _ H) as [Hfix [n Hn]]. split; [exact Hfix | now exists (S n)].
Qed.

Lemma rounds_expand_loop (n : nat) (value : string) :
  expand_once env (rounds n env value) = rounds n env value ->
  exists fuel r, expand_loop fuel env value = Some r.
Proof.
  revert value. induction n as [|n IH]; intros value H.
  - exists 1, value. cbn [expand_loop]. cbn [rounds] in H.
    destruct (decide _); [reflexivity | contradiction].
  - destruct (decide (expand_once env value = value)) as [E|Hne].
    + exists 1, value. cbn [expand_loop]. destruct (decide _); [reflexivity | contradiction].
    + destruct (IH _ H) as (fuel & r & Hr). exists (S fuel), r.
      cbn [expand_loop]. destruct (decide _); [contradiction | exact Hr].
Qed.

Lemma expandVariables_result (fuel : nat) (value r : string) (err : option error) :
  expandVariables fuel env value = Some (r, err) ->
  err = None /\ expand_once env r = r /\ exists n, r = rounds (S n) env value.
Proof.
  unfold expandVariables.
  destruct (expand_loop fuel env (expand_once env value)) as [r'|] eqn:H; [| discriminate].
  intros [= <- <-]. apply expand_loop_rounds in H as [Hfix [n Hn]].
  split; [reflexivity | split; [exact Hfix | now exists n]].
Qed.

End ExpandFacts.

Lemma cyclic_round (n : nat) :
  expand_once cyclic_env (placeholder "A" +:+ xs n) = placeholder "A" +:+ xs (S n).
Proof.
  rewrite expand_once_placeholder by (reflexivity || discriminate).
  rewrite expand_once_xs. reflexivity.
Qed.

Lemma cyclic_loop (fuel n : nat) :
  expand_loop fuel cyclic_env (placeholder "A" +:+ xs n) = None.
Proof.
  revert n. induction fuel as [|fuel IH]; intros n; [reflexivity |].
  cbn [expand_loop]. rewrite cyclic_round.
  destruct (decide _) as [E|_]; [| apply IH].
  apply (f_equal len) in E. rewrite !len_app in E. simpl in E. lia.
Qed.

Lemma cyclic_never_returns (fuel : nat) :
  expandVariables fuel cyclic_env "${A}" = None.
Proof.
  unfold expandVariables.
  change (expand_once cyclic_env "${A}") with (placeholder "A" +:+ xs 1).
  now rewrite cyclic_loop.
Qed.

Lemma Getenv_set (e : environ) (key value : string) :
  key <> "" -> e !! key = Some value -> Getenv e key = value.
Proof. intros Hk H. unfold Getenv. destruct (decide (key = "")); [contradiction | now rewrite H]. Qed.

Lemma expand_A_B (e : environ) :
  e !! "A" = Some "x" -> e !! "B" = Some "y" -> expand_once e "${A}/${B}" = "x/y".
Proof.
  intros HA HB.
  change "${A}/${B}" with (placeholder "A" +:+ String "/" (placeholder "B" +:+ "")).
  rewrite expand_once_placeholder by (reflexivity || discriminate).
  rewrite expand_once_other by reflexivity.
  rewrite expand_once_placeholder by (reflexivity || discriminate).
  rewrite (Getenv_set e "A" "x"), (Getenv_set e "B" "y") by (assumption || discriminate).
  reflexivity.
Qed.

(** C4, as the code has it.  In the version of [load] that expands, the
    value is expanded before it is committed.  A round replaces the
    placeholders from left to right: a placeholder [${NAME}] is replaced
    by the value of the variable NAME when that value is not empty, and
    is left as it stands when the variable is unset or set to the empty
    string; every other byte is copied.  Rounds are repeated until one
    changes nothing, and what [expandVariables] returns is that value,
    with no error.  With A=x and B=y set, ["${A}/${B}"] expands to
    ["x/y"]. *)
Theorem expansion_replaces_nonempty (e : environ) :
  (forall name rest, name <> "" -> no_close name = true ->
     expand_once e (placeholder name +:+ rest) =
       (if decide (Getenv e name = "") then placeholder name else Getenv e name)
       +:+ expand_once e rest) /\
  (forall c r, re (String c r) = None ->
     expand_once e (String c r) = String c (expand_once e r)) /\
  (forall name, e !! name = None \/ e !! name = Some "" -> Getenv e name = "") /\
  (forall fuel value r err, expandVariables fuel e value = Some (r, err) ->
     err = None /\ expand_once e r = r /\ exists n, r = rounds (S n) e value) /\
  (e !! "A" = Some "x" -> e !! "B" = Some "y" ->
     forall fuel, expandVariables (S fuel) e "${A}/${B}" = Some ("x/y", None)) /\
  (forall fs sh key cur c, env sh = e ->
     load_step Expanding fs sh (AtExpand key cur c) =
       Some (sh, if decide (expand_once e cur = cur) then AtCheck key cur c
                 else AtExpand key (expand_once e cur) c)).
Proof.
  refine (conj _ (conj _ (conj _ (conj _ (conj _ _))))).
  - intros name rest. apply expand_once_placeholder.
  - intros c r. apply expand_once_other.
  - intros name [H|H]; [now apply Getenv_unset | now apply Getenv_empty_value].
  - intros fuel value r err. apply expandVariables_result.
  - intros HA HB fuel. unfold expandVariables. rewrite expand_A_B by assumption.
    reflexivity.
  - intros fs sh key cur c <-. cbn [load_step].
    destruct (decide (expand_once (env sh) cur = cur)); reflexivity.
Qed.

Lemma expansion_replaces_nonempty_witness :
  expandVariables 1 env_A_B "${A}/${B}" = Some ("x/y", None).
Proof.
  pose proof (expansion_replaces_nonempty env_A_B) as (_ & _ & _ & _ & H & _).
  apply H; reflexivity.
Defined.

(** C4, as stated, fails for a variable that is set to the empty string:
    the placeholder is not replaced by the value of the variable. *)
Lemma expansion_keeps_placeholder_of_empty_variable :
  empty_env !! "A" = Some "" /\
  expand_once_as_specified empty_env "${A}" = "" /\
  expandVariables 1 empty_env "${A}" = Some ("${A}", None) /\
  expand_once empty_env "${A}" <> expand_once_as_specified empty_env "${A}".
Proof.
  refine (conj _ (conj _ (conj _ _))); try reflexivity. vm_compute. discriminate.
Qed.

(** ** The loader as a system of goroutines *)

Section Loads.

Variable v : variant.
Variable fs : filesystem.

Lemma is_loaded_insert (m : gmap string bool) (key k : string) :
  is_loaded m k = true -> is_loaded (<[key := true]> m) k = true.
Proof.
  unfold is_loaded. intros H. destruct (decide (key = k)) as [->|Hne].
  - now rewrite lookup_insert_eq.
  - now rewrite lookup_insert_ne.
Qed.

Lemma is_loaded_insert_eq (m : gmap string bool) (key : string) :
  is_loaded (<[key := true]> m) key = true.
Proof. unfold is_loaded. now rewrite lookup_insert_eq. Qed.

(** The three kinds of step: one that leaves the environment and the
    marks alone, the call of [os.Setenv], which adds one entry, and
    the marking of the key just set. *)
Lemma load_step_kinds (sh sh' : shared) (p p' : pc) :
  load_step v fs sh p = Some (sh', p') ->
  (env sh' = env sh /\ loadedVars sh' = loadedVars sh /\
   (forall k, ~ marking k p) /\ (forall k, ~ marking k p')) \/
  (exists key value c, p = AtSetenv key value c /\ p' = AtMark key c /\
     Setenv (env sh) key value = Some (env sh') /\
     env sh' = <[key := value]> (env sh) /\ loadedVars sh' = loadedVars sh) \/
  (exists key c, p = AtMark key c /\ p' = AtScan c /\
     env sh' = env sh /\ loadedVars sh' = <[key := true]> (loadedVars sh)).
Proof.
  assert (Hq : forall q, (forall key c, q <> AtMark key c) -> forall k, ~ marking k q).
  { intros q Hq k [c ->]. now apply (Hq k c). }
  destruct p as [path|c|key cur c|key value c|key value c|key c|e|]; cbn [load_step].
  - destruct (fs path); [destruct v | |]; intros [= <- <-];
      left; repeat split; apply Hq; discriminate.
  - destruct (rest c) as [|text ?].
    + destruct (scan_err c); intros [= <- <-];
        left; repeat split; apply Hq; discriminate.
    + destruct (parse_line text) as [[key value]|]; [destruct v |];
        intros [= <- <-]; left; repeat split; apply Hq; discriminate.
  - destruct (decide _); intros [= <- <-];
      left; repeat split; apply Hq; discriminate.
  - destruct (is_loaded _ _); intros [= <- <-];
      left; repeat split; apply Hq; discriminate.
  - destruct (Setenv (env sh) key value) as [e|] eqn:Hset; intros [= <- <-].
    + right; left. exists key, value, c. cbn.
      unfold Setenv in Hset |- *. destruct (setenv_ok key value); [| discriminate].
      injection Hset as <-. repeat split; reflexivity.
    + left; repeat split; apply Hq; discriminate.
  - intros [= <- <-]. right; right. exists key, c. repeat split; reflexivity.
  - destruct (_ <? _)%nat; [| discriminate]. intros [= <- <-].
    left; repeat split; apply Hq; discriminate.
  - discriminate.
Qed.

Lemma load_step_effect (sh sh' : shared) (p p' : pc) :
  load_step v fs sh p = Some (sh', p') ->
  (env sh' = env sh \/
   exists key value c, p = AtSetenv key value c /\ p' = AtMark key c /\
     Setenv (env sh) key value = Some (env sh') /\
     env sh' = <[key := value]> (env sh)) /\
  (loadedVars sh' = loadedVars sh \/
   exists key c, p = AtMark key c /\
     loadedVars sh' = <[key := true]> (loadedVars sh)).
Proof.
  intros H. apply load_step_kinds in H
    as [(He & Hl & _)|[(key & value & c & -> & -> & Hs & He & Hl)
                      |(key & c & -> & -> & He & Hl)]].
  - auto.
  - split; [right; eauto 8 | auto].
  - split; [auto | right; eauto].
Qed.

(** [os.Setenv] is called only after the test of [loadedVars] found
    the key unmarked, and the test does not look at the environment. *)
Lemma load_step_arms (sh sh' : shared) (p : pc) (key value : string) (c : cursor) :
  load_step v fs sh p = Some (sh', AtSetenv key value c) ->
  p = AtCheck key value c /\ is_loaded (loadedVars sh) key = false /\ sh' = sh.
Proof.
  destruct p as [path|c0|key0 cur c0|key0 value0 c0|key0 value0 c0|key0 c0|e|];
    cbn [load_step].
  - destruct (fs path); [destruct v | |]; discriminate.
  - destruct (rest c0) as [|text ?].
    + destruct (scan_err c0); discriminate.
    + destruct (parse_line text) as [[k x]|]; [destruct v |]; discriminate.
  - destruct (decide _); discriminate.
  - destruct (is_loaded _ _) eqn:Hl; [discriminate |].
    intros [= <- <- <- <-]. auto.
  - destruct (Setenv _ _ _); discriminate.
  - discriminate.
  - destruct (_ <? _)%nat; discriminate.
  - discriminate.
Qed.

Lemma run_app (a b : list nat) (s : system) :
  run v fs (a ++ b) s = run v fs b (run v fs a s).
Proof. unfold run. apply fold_left_app. Qed.

Lemma run_snoc (a : list nat) (i : nat) (s : system) :
  run v fs (a ++ [i]) s = sys_step v fs i (run v fs a s).
Proof. now rewrite run_app. Qed.

(** An invariant of the steps holds after every schedule. *)
Lemma run_invariant (P : system -> Prop) :
  (forall i s, P s -> P (sys_step v fs i s)) ->
  forall sched s, P s -> P (run v fs sched s).
Proof.
  intros Hstep sched. induction sched as [|i sched IH]; intros s Hs; [exact Hs |].
  apply IH, Hstep, Hs.
Qed.

Lemma sys_step_cases (i : nat) (s : system) :
  sys_step v fs i s = s \/
  exists p sh p', tasks s !! i = Some p /\ load_step v fs (state s) p = Some (sh, p') /\
    sys_step v fs i s = {| state := sh; tasks := <[i := p']> (tasks s) |}.
Proof.
  unfold sys_step. destruct (tasks s !! i) as [p|] eqn:Hp; [| now left].
  destruct (load_step v fs (state s) p) as [[sh p']|] eqn:Hs; [| now left].
  right. eauto 6.
Qed.

(** The environment only gains entries. *)
Lemma sys_step_keeps_set (i : nat) (s : system) (k : string) :
  is_Some (env (state s) !! k) -> is_Some (env (state (sys_step v fs i s)) !! k).
Proof.
  intros Hk. destruct (sys_step_cases i s) as [->|(p & sh & p' & Hp & Hs & ->)];
    [exact Hk |].
  apply load_step_effect in Hs as [[He|(key & value & c & _ & _ & _ & He)] _];
    cbn; rewrite He; [exact Hk |].
  destruct (decide (key = k)) as [->|Hne];
    [rewrite lookup_insert_eq; eauto | now rewrite lookup_insert_ne].
Qed.

Lemma run_keeps_set (sched : list nat) (s : system) (k : string) :
  is_Some (env (state s) !! k) -> is_Some (env (state (run v fs sched s)) !! k).
Proof.
  apply (run_invariant (fun s => is_Some (env (state s) !! k))).
  intros i s'. apply sys_step_keeps_set.
Qed.

(** Marks are never cleared. *)
Lemma sys_step_keeps_mark (i : nat) (s : system) (k : string) :
  is_loaded (loadedVars (state s)) k = true ->
  is_loaded (loadedVars (state (sys_step v fs i s))) k = true.
Proof.
  intros Hk. destruct (sys_step_cases i s) as [->|(p & sh & p' & Hp & Hs & ->)];
    [exact Hk |].
  apply load_step_effect in Hs as (_ & [Hl|(key & c & _ & Hl)]);
    cbn; rewrite Hl; [exact Hk | now apply is_loaded_insert].
Qed.

Lemma run_keeps_mark (sched : list nat) (s : system) (k : string) :
  is_loaded (loadedVars (state s)) k = true ->
  is_loaded (loadedVars (state (run v fs sched s))) k = true.
Proof.
  apply (run_invariant (fun s => is_loaded (loadedVars (state s)) k = true)).
  intros i s'. apply sys_step_keeps_mark.
Qed.

Lemma settled_step (k : string) (i j : nat) (s : system) :
  settled k i s -> settled k i (sys_step v fs j s).
Proof.
  intros [Hm Hi]. split; [now apply sys_step_keeps_mark |].
  destruct (sys_step_cases j s) as [->|(p & sh & p' & Hp & Hs & ->)]; [exact Hi |].
  cbn. intros q Hq (value & c & ->).
  destruct (decide (i = j)) as [->|Hne].
  - rewrite list_lookup_insert_eq in Hq by (eapply lookup_lt_Some; eauto).
    injection Hq as ->. apply load_step_arms in Hs as (_ & Hl & _). congruence.
  - rewrite list_lookup_insert_ne in Hq by congruence.
    apply (Hi _ Hq). red. eauto.
Qed.

Lemma settled_step_own (k : string) (i : nat) (s : system) :
  settled k i s ->
  env (state (sys_step v fs i s)) !! k = env (state s) !! k.
Proof.
  intros [Hm Hi]. destruct (sys_step_cases i s) as [->|(p & sh & p' & Hp & Hs & ->)];
    [reflexivity |].
  apply load_step_effect in Hs as [[He|(key & value & c & -> & _ & _ & He)] _];
    cbn; rewrite He; [reflexivity |].
  destruct (decide (key = k)) as [->|Hne]; [| now rewrite lookup_insert_ne].
  exfalso. apply (Hi _ Hp). red. eauto.
Qed.

Lemma accounted_step (e0 : environ) (j : nat) (s : system) :
  accounted e0 s -> accounted e0 (sys_step v fs j s).
Proof.
  intros Hacc. destruct (sys_step_cases j s) as [->|(p & sh & p' & Hp & Hs & Heq)];
    [exact Hacc |].
  rewrite Heq. intros k. cbn.
  pose proof (lookup_lt_Some _ _ _ Hp) as Hlt.
  assert (Hother : forall i q, tasks s !! i = Some q -> marking k q -> i <> j ->
            exists i p0, <[j := p']> (tasks s) !! i = Some p0 /\ marking k p0).
  { intros i q Hq Hmk Hne. exists i, q. now rewrite list_lookup_insert_ne by congruence. }
  destruct (load_step_kinds _ _ _ _ Hs)
    as [(He & Hl & Hnp & _)|[(key & value & c & -> & -> & _ & He & Hl)
                           |(key & c & -> & -> & He & Hl)]].
  - rewrite He, Hl. destruct (Hacc k) as [H|[H|(i & q & Hq & Hmk)]]; auto.
    destruct (decide (i = j)) as [->|Hne]; [| eauto].
    rewrite Hp in Hq. injection Hq as <-. now destruct (Hnp k).
  - rewrite He, Hl. destruct (decide (key = k)) as [->|Hk].
    + right; right. exists j, (AtMark k c).
      rewrite list_lookup_insert_eq by assumption. split; [reflexivity | red; eauto].
    + rewrite lookup_insert_ne by assumption.
      destruct (Hacc k) as [H|[H|(i & q & Hq & Hmk)]]; auto.
      destruct (decide (i = j)) as [->|Hne]; [| eauto].
      rewrite Hp in Hq. injection Hq as <-. destruct Hmk as [? ?]. discriminate.
  - rewrite He, Hl. destruct (Hacc k) as [H|[H|(i & q & Hq & Hmk)]]; auto.
    + right; left. now apply is_loaded_insert.
    + destruct (decide (i = j)) as [->|Hne]; [| eauto].
      rewrite Hp in Hq. injection Hq as <-. destruct Hmk as [c' [= -> ->]].
      right; left. apply is_loaded_insert_eq.
Qed.

Lemma all_finished_lookup (s : system) (i : nat) (p : pc) :
  all_finished s = true -> tasks s !! i = Some p -> p = Finished.
Proof.
  unfold all_finished. rewrite forallb_forall. intros Hall Hp.
  apply list_elem_of_lookup_2, list_elem_of_In, Hall in Hp. now destruct p.
Qed.

(** When every load has returned, an entry that differs from the
    start belongs to a key that this call has marked as loaded. *)
Lemma run_untouched_or_loaded (sched : list nat) (s : system) (k : string) :
  (forall i p, tasks s !! i = Some p -> ~ marking k p) ->
  all_finished (run v fs sched s) = true ->
  env (state (run v fs sched s)) !! k = env (state s) !! k \/
  is_loaded (loadedVars (state (run v fs sched s))) k = true.
Proof.
  intros Hstart Hfin.
  assert (Hacc : accounted (env (state s)) (run v fs sched s)).
  { apply run_invariant; [intros i s'; apply accounted_step |].
    intros k'. now left. }
  destruct (Hacc k) as [H|[H|(i & q & Hq & [c ->])]]; auto.
  now apply (all_finished_lookup _ _ _ Hfin) in Hq.
Qed.

End Loads.

Lemma start_tasks_at_start (w : world) (rPath : list string) (i : nat) (p : pc) :
  start_tasks w rPath !! i = Some p -> exists path, p = AtStart path.
Proof.
  unfold start_tasks. destruct rPath as [|path0 rPath].
  - destruct i as [|i]; [intros [= <-]; eauto | discriminate].
  - rewrite list_lookup_fmap. destruct ((path0 :: rPath) !! i); [| discriminate].
    intros [= <-]. eauto.
Qed.

Lemma Bind_loads (v : variant) (sched : list nat) (w : world) (fields : list field)
    (rPath : list string) (b : bound) :
  Bind v sched w (PointerToStruct fields) rPath = Some b ->
  all_finished (run v (files w) sched (start_system w rPath)) = true /\
  b = Bind_finish w (PointerToStruct fields)
        (state (run v (files w) sched (start_system w rPath))).
Proof.
  unfold Bind. cbn. destruct (all_finished _); [| discriminate].
  intros [= <-]. auto.
Qed.

Lemma Bind_finish_environment (w : world) (i : iface) (sh : shared) :
  environment (after_world (Bind_finish w i sh)) = env sh.
Proof.
  unfold Bind_finish. destruct (last _); [reflexivity |].
  destruct (bind_fields _ _) as [[done l] p]. reflexivity.
Qed.

Lemma Bind_environment (v : variant) (sched : list nat) (w : world) (i : iface)
    (rPath : list string) (b : bound) :
  Bind v sched w i rPath = Some b ->
  environment (after_world b) = environment w \/
  environment (after_world b) =
    env (state (run v (files w) sched (start_system w rPath))).
Proof.
  unfold Bind. destruct (TypeOf_Kind i) as [k|]; [| intros [= <-]; now left].
  destruct (_ || _); [intros [= <-]; now left |].
  destruct (all_finished _); [| discriminate].
  intros [= <-]. right. apply Bind_finish_environment.
Qed.

(** C9. The environment only grows.  A step of a load leaves the
    environment as it is or sets one entry with [os.Setenv] (a new
    entry, or a new value for the key); nothing removes an entry.  So
    under every schedule a variable that is set stays set, and a
    variable that was set before [Bind] was called is set, with some
    value, when [Bind] has returned (or panicked); the entries that
    differ from before belong to keys that the call has marked as
    loaded, all others are untouched. *)
Theorem environment_only_grows (v : variant) :
  (forall fs sh p sh' p', load_step v fs sh p = Some (sh', p') ->
     env sh' = env sh \/ exists key value, env sh' = <[key := value]> (env sh)) /\
  (forall fs sched s k, is_Some (env (state s) !! k) ->
     is_Some (env (state (run v fs sched s)) !! k)) /\
  (forall sched w i rPath b k, Bind v sched w i rPath = Some b ->
     is_Some (environment w !! k) -> is_Some (environment (after_world b) !! k)) /\
  (forall sched w fields rPath b k,
     Bind v sched w (PointerToStruct fields) rPath = Some b ->
     environment (after_world b) !! k = environment w !! k \/
     is_loaded (loadedVars (state (run v (files w) sched (start_system w rPath)))) k
       = true).
Proof.
  refine (conj _ (conj _ (conj _ _))).
  - intros fs sh p sh' p' H.
    apply load_step_effect in H as [[He|(key & value & c & _ & _ & _ & He)] _]; eauto.
  - intros fs sched s k. apply run_keeps_set.
  - intros sched w i rPath b k HB Hk.
    apply Bind_environment in HB as [->| ->]; [exact Hk |].
    now apply run_keeps_set.
  - intros sched w fields rPath b k HB.
    apply Bind_loads in HB as [Hfin ->]. rewrite Bind_finish_environment.
    apply (run_untouched_or_loaded v (files w) sched (start_system w rPath) k);
      [| exact Hfin].
    intros i p Hp [c ->]. apply start_tasks_at_start in Hp as [path Hp]. discriminate.
Qed.

Lemma port_Bind : Bind Plain (repeat 0 10) port_world port_config [] = Some port_bound.
Proof. vm_compute. reflexivity. Qed.

Lemma environment_only_grows_witness :
  is_Some (environment (after_world port_bound) !! "HOME").
Proof.
  pose proof (environment_only_grows Plain) as (_ & _ & H & _).
  apply (H (repeat 0 10) port_world port_config [] port_bound "HOME" port_Bind).
  vm_compute. eauto.
Defined.

(** What holds of the commit rule.  [load] calls [os.Setenv] for a key
    only after its test of [loadedVars] found the key unmarked, the call
    leaves the variable set to the value of the line, and the step after
    a successful call marks the key.  The test reads [loadedVars] alone,
    which starts empty at each call of [Bind]: a value that the
    environment already holds does not make [load] pass over the key,
    and the call of [os.Setenv] replaces it.
    Marks are never cleared; once a key is marked, a load that is not at
    that moment between its own test and its call of [os.Setenv] for the
    key never writes the key again, under every schedule, and when no
    load is there the entry of the key stays as it is. *)
Lemma commit_rule (v : variant) (fs : filesystem) :
  (forall sh key value c,
     load_step v fs sh (AtCheck key value c) =
       Some (sh, if is_loaded (loadedVars sh) key then AtScan c
                 else AtSetenv key value c)) /\
  (forall sh key value c, setenv_ok key value = true ->
     exists sh', load_step v fs sh (AtSetenv key value c) = Some (sh', AtMark key c) /\
       env sh' !! key = Some value /\
       (forall k, k <> key -> env sh' !! k = env sh !! k) /\
       loadedVars sh' = loadedVars sh) /\
  (forall sh sh' p key value c,
     load_step v fs sh p = Some (sh', AtSetenv key value c) ->
     p = AtCheck key value c /\ is_loaded (loadedVars sh) key = false) /\
  (forall sh sh' p p', load_step v fs sh p = Some (sh', p') -> env sh' <> env sh ->
     exists key value c, p = AtSetenv key value c /\ p' = AtMark key c /\
       env sh' = <[key := value]> (env sh)) /\
  (forall sh key c,
     exists sh', load_step v fs sh (AtMark key c) = Some (sh', AtScan c) /\
       env sh' = env sh /\ is_loaded (loadedVars sh') key = true) /\
  (forall w rPath key,
     is_loaded (loadedVars (state (start_system w rPath))) key = false) /\
  (forall sched s k, is_loaded (loadedVars (state s)) k = true ->
     is_loaded (loadedVars (state (run v fs sched s))) k = true) /\
  (forall sched s k i, settled k i s ->
     settled k i (run v fs sched s) /\
     env (state (sys_step v fs i (run v fs sched s))) !! k =
       env (state (run v fs sched s)) !! k) /\
  (forall sched s k, is_loaded (loadedVars (state s)) k = true ->
     (forall i p, tasks s !! i = Some p -> ~ armed k p) ->
     env (state (run v fs sched s)) !! k = env (state s) !! k).
Proof.
  refine (conj _ (conj _ (conj _ (conj _ (conj _ (conj _ (conj _ (conj _ _)))))))).
  - intros sh key value c. cbn [load_step]. now destruct (is_loaded _ _).
  - intros sh key value c Hok. cbn [load_step]. unfold Setenv. rewrite Hok.
    eexists. split; [reflexivity |]. cbn.
    split; [apply lookup_insert_eq |].
    split; [intros k Hk; now apply lookup_insert_ne | reflexivity].
  - intros sh sh' p key value c H. apply load_step_arms in H as (? & ? & _). auto.
  - intros sh sh' p p' H Hne.
    apply load_step_effect in H as [[He|(key & value & c & ? & ? & _ & He)] _];
      [contradiction | eauto 8].
  - intros sh key c. eexists. cbn [load_step]. split; [reflexivity |].
    split; [reflexivity | apply is_loaded_insert_eq].
  - reflexivity.
  - intros sched s k. apply run_keeps_mark.
  - intros sched s k i Hs.
    assert (Hrun : settled k i (run v fs sched s)).
    { revert Hs. apply (run_invariant v fs (settled k i)).
      intros j s'. apply settled_step. }
    split; [exact Hrun | now apply settled_step_own].
  - intros sched s k Hm Hnone.
    assert (Hall : (forall i, settled k i (run v fs sched s)) /\
                   env (state (run v fs sched s)) !! k = env (state s) !! k).
    { apply (run_invariant v fs
               (fun s' => (forall i, settled k i s') /\
                          env (state s') !! k = env (state s) !! k)).
      - intros j s' [Hset He]. split.
        + intros i. apply settled_step, Hset.
        + rewrite <- He. apply settled_step_own, Hset.
      - split; [| reflexivity]. intros i. split; [exact Hm | apply Hnone]. }
    apply Hall.
Qed.

Lemma commit_rule_example :
  env (state (run Plain (fun _ => Missing) [1; 1; 1; 0; 1] marked_system)) !! "PORT"
  = Some "8080".
Proof.
  pose proof (commit_rule Plain (fun _ => Missing))
    as (_ & _ & _ & _ & _ & _ & _ & _ & H).
  rewrite (H [1; 1; 1; 0; 1] marked_system "PORT").
  - reflexivity.
  - reflexivity.
  - intros [|[|i]] p; cbn; intros [= <-] (value & c & Hp); discriminate.
Defined.

(** The call of [os.Setenv] does not look at the mark: a load that
    stands before the call writes its value, marked key or not. *)
Lemma armed_load_writes (v : variant) (fs : filesystem) (s : system) (i : nat)
    (key value : string) (c : cursor) :
  tasks s !! i = Some (AtSetenv key value c) ->
  setenv_ok key value = true ->
  sys_step v fs i s =
    {| state := set_env (<[key := value]> (env (state s))) (state s);
       tasks := <[i := AtMark key c]> (tasks s) |}.
Proof.
  intros Hi Hok. unfold sys_step. rewrite Hi. cbn [load_step].
  unfold Setenv. now rewrite Hok.
Qed.

(** C2. The commit rule does not hold as stated: a key that is marked is
    overwritten by a load that tested the key before the mark was set.
    The test of [loadedVars] and the call of [os.Setenv] are two
    statements with no lock around them, and the call does not look at
    the mark again: whenever a load stands before its call of
    [os.Setenv] for a key that is marked, its next step replaces the
    value of the key.  Such a state is reached from [Bind] with two
    files that both name PORT: both loads test PORT, the first sets it
    to 1 and marks it, and then the second sets it to 2; [Bind] returns
    nil with PORT and the field bound to it at 2, the value of the
    second writer. *)
Theorem marked_key_is_overwritten (v : variant) (fs : filesystem) :
  (forall s i key value c,
     tasks s !! i = Some (AtSetenv key value c) ->
     setenv_ok key value = true ->
     is_loaded (loadedVars (state s)) key = true ->
     env (state (sys_step v fs i s)) !! key = Some value /\
     is_loaded (loadedVars (state (sys_step v fs i s))) key = true) /\
  (is_loaded (loadedVars (state (run Plain two_files both_tested
                                   (start_system two_world ["a"; "b"])))) "PORT" = true /\
   env (state (run Plain two_files both_tested
                 (start_system two_world ["a"; "b"]))) !! "PORT" = Some "1" /\
   tasks (run Plain two_files both_tested (start_system two_world ["a"; "b"])) !! 1 =
     Some (AtSetenv "PORT" "2" {| filePath := "b/.env"; rest := []; scan_err := None |}) /\
   env (state (run Plain two_files (both_tested ++ [1])
                 (start_system two_world ["a"; "b"]))) !! "PORT" = Some "2") /\
  Bind Plain (both_tested ++ [1] ++ repeat 0 8 ++ repeat 1 3) two_world port_config
    ["a"; "b"] = Some two_bound /\
  environment (after_world two_bound) !! "PORT" = Some "2" /\
  after_target two_bound = PointerToStruct [set_value (VInt 2) int_field].
Proof.
  refine (conj _ (conj _ (conj _ (conj _ _)))).
  - intros s i key value c Hi Hok Hm.
    rewrite (armed_load_writes v fs s i key value c Hi Hok). cbn.
    split; [apply lookup_insert_eq | exact Hm].
  - vm_compute. auto.
  - vm_compute. reflexivity.
  - reflexivity.
  - reflexivity.
Qed.

Lemma marked_key_is_overwritten_witness :
  env (state (sys_step Plain two_files 1
                (run Plain two_files both_tested (start_system two_world ["a"; "b"]))))
    !! "PORT" = Some "2" /\
  is_loaded (loadedVars (state (sys_step Plain two_files 1
                (run Plain two_files both_tested (start_system two_world ["a"; "b"])))))
    "PORT" = true.
Proof.
  apply (proj1 (marked_key_is_overwritten Plain two_files)
           (run Plain two_files both_tested (start_system two_world ["a"; "b"])) 1
           "PORT" "2" {| filePath := "b/.env"; rest := []; scan_err := None |});
    reflexivity.
Defined.

(** ** The error policy of the binder *)

Section Blocked.

Variable v : variant.
Variable fs : filesystem.

Lemma count_finished_cons (p : pc) (l : list pc) :
  count_finished (p :: l) = (if finished p then 1 else 0) + count_finished l.
Proof.
  unfold count_finished. rewrite filter_cons.
  destruct (decide (finished p = true)) as [->|Hn]; [reflexivity |].
  now destruct (finished p).
Qed.

Lemma count_finished_insert (l : list pc) (j : nat) (p p' : pc) :
  l !! j = Some p ->
  count_finished (<[j := p']> l) + (if finished p then 1 else 0) =
  count_finished l + (if finished p' then 1 else 0).
Proof.
  revert j. induction l as [|q l IH]; intros j Hj; [discriminate |].
  destruct j as [|j]; simpl.
  - injection Hj as ->. rewrite !count_finished_cons.
    destruct (finished p), (finished p'); lia.
  - rewrite !count_finished_cons. specialize (IH j Hj).
    destruct (finished p), (finished p'), (finished q); lia.
Qed.

Lemma count_finished_all (l : list pc) :
  forallb finished l = true -> count_finished l = length l.
Proof.
  induction l as [|p l IH]; [reflexivity |].
  cbn [forallb]. intros [Hp Hl]%andb_prop. rewrite count_finished_cons, Hp.
  cbn. now rewrite IH.
Qed.

Lemma clogged_step (j : nat) (s : system) :
  clogged fs s ->
  clogged fs (sys_step v fs j s) /\
  capacity (Ce (state (sys_step v fs j s))) = capacity (Ce (state s)) /\
  length (tasks (sys_step v fs j s)) = length (tasks s).
Proof.
  intros (Hall & Hcount & Hcap).
  destruct (sys_step_cases v fs j s) as [->|(p & sh & p' & Hp & Hs & ->)];
    [repeat split; assumption |].
  pose proof (count_finished_insert _ _ _ p' Hp) as Hins.
  assert (Hfail : failing fs p).
  { rewrite Forall_forall in Hall. apply Hall. eapply list_elem_of_lookup_2, Hp. }
  cbn. rewrite length_insert.
  destruct Hfail as [(path & cause & -> & Hpath)|[[e ->]| ->]]; cbn [load_step] in Hs.
  - rewrite Hpath in Hs. injection Hs as <- <-. cbn in Hins.
    unfold clogged, count_finished in *. cbn.
    repeat split; try assumption; try lia.
    apply Forall_insert; [assumption |]. right; left. eauto.
  - destruct (_ <? _)%nat eqn:Hlt; [| discriminate]. injection Hs as <- <-.
    apply Nat.ltb_lt in Hlt. unfold clogged, count_finished in *. cbn in Hins |- *.
    rewrite length_app. cbn.
    repeat split; try lia.
    apply Forall_insert; [assumption |]. right; right. reflexivity.
  - discriminate.
Qed.

Lemma clogged_run (sched : list nat) (s : system) :
  clogged fs s ->
  clogged fs (run v fs sched s) /\
  capacity (Ce (state (run v fs sched s))) = capacity (Ce (state s)) /\
  length (tasks (run v fs sched s)) = length (tasks s).
Proof.
  intros Hs.
  apply (run_invariant v fs
           (fun s' => clogged fs s' /\
                      capacity (Ce (state s')) = capacity (Ce (state s)) /\
                      length (tasks s') = length (tasks s))).
  - intros j s' (Hc & Hcap & Hlen).
    destruct (clogged_step j s' Hc) as (Hc' & Hcap' & Hlen').
    repeat split; [apply Hc' | apply Hc' | apply Hc' | congruence | congruence].
  - auto.
Qed.

(** More failing loads than the channel has room for never all
    return. *)
Lemma clogged_never_finishes (sched : list nat) (s : system) :
  clogged fs s -> capacity (Ce (state s)) < length (tasks s) ->
  all_finished (run v fs sched s) = false.
Proof.
  intros Hs Hmore.
  destruct (clogged_run sched s Hs) as ((_ & Hcount & Hcap) & Hc & Hlen).
  destruct (all_finished (run v fs sched s)) eqn:Hfin; [| reflexivity].
  apply count_finished_all in Hfin. lia.
Qed.

End Blocked.

Lemma count_finished_map_start (f : string -> string) (l : list string) :
  count_finished (map (fun path => AtStart (f path)) l) = 0.
Proof.
  induction l as [|x l IH]; [reflexivity |].
  cbn [map]. now rewrite count_finished_cons, IH.
Qed.

Lemma start_system_clogged (w : world) (rPath : list string) :
  rPath <> [] ->
  (forall path, path ∈ rPath ->
     exists cause, files w (filepath_Join path ".env") = Unopenable cause) ->
  clogged (files w) (start_system w rPath).
Proof.
  intros Hne Hall. destruct rPath as [|path0 rPath]; [contradiction |].
  unfold clogged.
  change (tasks (start_system w (path0 :: rPath)))
    with (map (fun path => AtStart (filepath_Join path ".env")) (path0 :: rPath)).
  rewrite count_finished_map_start.
  split; [| split; [lia | cbn; lia]].
  apply Forall_forall. intros p Hp.
  apply list_elem_of_fmap in Hp as (path & -> & Hin).
  destruct (Hall path Hin) as [cause Hc]. left. eauto.
Qed.

Lemma ints_Bind (sched : list nat) (b : bound) :
  Bind Plain sched ints_world ints_config [] = Some b -> b = ints_bound.
Proof.
  unfold Bind. cbn [TypeOf_Kind ints_config Elem_Kind negb orb bool_decide].
  change (if negb (bool_decide (Pointer = Pointer)) || negb (bool_decide (Struct = Struct))
          then ?a else ?b) with b.
  set (s0 := start_system ints_world []).
  set (s1 := sys_step Plain (files ints_world) 0 s0).
  assert (Hrun : run Plain (files ints_world) sched s0 = s0 \/
                 run Plain (files ints_world) sched s0 = s1).
  { apply (run_invariant Plain (files ints_world) (fun s => s = s0 \/ s = s1));
      [| now left].
    intros j s [-> | ->]; destruct j as [|j]; auto. }
  destruct Hrun as [-> | ->].
  - discriminate.
  - intros [= <-]. vm_compute. reflexivity.
Qed.

(** What [Bind] does once the loads have returned: with an error in the
    channel it logs every error, returns the last and leaves the struct
    alone; with none it runs the loop over the fields, and returns nil
    unless [convert] panics. *)
Lemma Bind_finish_policy (w : world) (i : iface) (sh : shared) :
  (forall errs err, buffer (Ce sh) = (errs ++ [err])%list ->
     result (Bind_finish w i sh) = Failed err /\
     after_target (Bind_finish w i sh) = i /\
     log_lines (after_world (Bind_finish w i sh)) =
       (logged sh ++ map LogError (errs ++ [err]))%list) /\
  (buffer (Ce sh) = [] ->
     result (Bind_finish w i sh) =
       match (bind_fields (env sh) (Elem_fields i)).2 with
       | Some msg => Panicked msg
       | None => Returned tt
       end).
Proof.
  unfold Bind_finish. split.
  - intros errs err ->. rewrite last_snoc. auto.
  - intros ->. cbn. now destruct (bind_fields _ _) as [[done l] p].
Qed.

(** C1. The policy in two tiers does not hold for every call.  When
    more loads fail than the error channel has room for (ten), the
    eleventh blocks on its send, [wg.Wait()] never returns and neither
    does [Bind], under any schedule.  And when no load reports an error
    but a field is a slice that cannot hold a [[]string], [Bind] does
    not return nil: it panics inside [convert]. *)
Theorem Bind_blocks_or_panics :
  (forall v sched w fields rPath,
     10 < length rPath ->
     (forall path, path ∈ rPath ->
        exists cause, files w (filepath_Join path ".env") = Unopenable cause) ->
     Bind v sched w (PointerToStruct fields) rPath = None) /\
  (forall sched b, Bind Plain sched ints_world ints_config [] = Some b ->
     result b = Panicked "reflect.Set: value of type []string is not assignable" /\
     log_lines (after_world b) = [WarnFileNotFound "/app/.env"]) /\
  Bind Plain [0] ints_world ints_config [] = Some ints_bound.
Proof.
  refine (conj _ (conj _ _)).
  - intros v sched w fields rPath Hlen Hall. unfold Bind. cbn.
    rewrite clogged_never_finishes; [reflexivity | |].
    + apply start_system_clogged; [| exact Hall].
      intros ->. cbn in Hlen. lia.
    + cbn. unfold start_tasks. destruct rPath; [cbn in Hlen; lia |].
      now rewrite length_map.
  - intros sched b HB. apply ints_Bind in HB as ->. split; reflexivity.
  - vm_compute. reflexivity.
Qed.

Lemma Bind_blocks_or_panics_witness :
  Bind Plain (seq 0 11 ++ seq 0 11) locked_world port_config eleven = None.
Proof.
  apply (proj1 Bind_blocks_or_panics).
  - cbn. lia.
  - intros path _. now exists "permission denied".
Defined.

Lemma host_Bind : Bind Plain (repeat 0 10) port_world host_config [] = Some host_bound.
Proof. vm_compute. reflexivity. Qed.

Lemma Bind_empty_variable_is_absent_witness :
  bind_field (environment (after_world host_bound)) host_field =
    inl (host_field, [WarnVarNotFound "HOST"]) /\
  Elem_fields (after_target host_bound) !! 1 = Some host_field.
Proof.
  apply (Bind_empty_variable_is_absent Plain (repeat 0 10) port_world
           [int_field; host_field] [] host_bound 1 host_field host_Bind eq_refl).
  left. vm_compute. reflexivity.
Defined.

(** [load] run alone is a run of the system with that one goroutine. *)
Lemma load_alone (v : variant) (fs : filesystem) (fuel : nat) (sh sh' : shared) (p : pc) :
  load_from v fs fuel sh p = Some sh' ->
  exists n, run v fs (repeat 0 n) {| state := sh; tasks := [p] |}
            = {| state := sh'; tasks := [Finished] |}.
Proof.
  revert sh p. induction fuel as [|fuel IH]; intros sh p; [discriminate |].
  cbn [load_from]. intros H.
  destruct (finished p) eqn:Hp.
  - destruct p; try discriminate Hp. injection H as <-. now exists 0.
  - destruct (load_step v fs sh p) as [[sh1 p1]|] eqn:Hs;
      [| now destruct p].
    assert (H' : load_from v fs fuel sh1 p1 = Some sh') by (now destruct p).
    destruct (IH _ _ H') as [n Hn]. exists (S n).
    cbn [repeat]. unfold run in *. cbn [fold_left].
    unfold sys_step at 2. cbn. rewrite Hs. exact Hn.
Qed.

(** The steps of a load inside [expandVariables] are the rounds of its
    loop, as long as the environment stays as it is. *)
Lemma expand_steps (fs : filesystem) (sh : shared) (key : string) (c : cursor)
    (fuel : nat) (cur r : string) :
  expand_loop fuel (env sh) cur = Some r ->
  exists n, run Expanding fs (repeat 0 n) {| state := sh; tasks := [AtExpand key cur c] |}
            = {| state := sh; tasks := [AtCheck key r c] |}.
Proof.
  revert cur. induction fuel as [|fuel IH]; intros cur; [discriminate |].
  cbn [expand_loop]. destruct (decide (expand_once (env sh) cur = cur)) as [E|Hne].
  - intros [= <-]. exists 1. unfold run, sys_step. cbn.
    destruct (decide _); [reflexivity | contradiction].
  - intros H. destruct (IH _ H) as [n Hn]. exists (S n).
    cbn [repeat]. unfold run in *. cbn [fold_left].
    unfold sys_step at 2. cbn.
    destruct (decide _); [contradiction | exact Hn].
Qed.

Lemma repeat_snoc (n : nat) : repeat 0 (S n) = (repeat 0 n ++ [0])%list.
Proof. induction n as [|n IH]; [reflexivity |]. cbn [repeat app] in *. now rewrite <- IH. Qed.

Lemma spinning_step (n : nat) :
  sys_step Expanding cyclic_file 0 (spinning n) = spinning (S n).
Proof.
  unfold sys_step, spinning. cbn [tasks state lookup list_lookup load_step env].
  rewrite cyclic_round. destruct (decide _) as [E|_]; [| reflexivity].
  apply (f_equal len) in E. rewrite !len_app in E. cbn in E. lia.
Qed.

Lemma spinning_reached (n : nat) :
  run Expanding cyclic_file (repeat 0 (7 + n)) (start_system cyclic_world []) = spinning n.
Proof.
  induction n as [|n IH]; [vm_compute; reflexivity |].
  replace (7 + S n) with (S (7 + n)) by lia.
  rewrite repeat_snoc, run_snoc, IH. apply spinning_step.
Qed.

Lemma cyclic_progress (k : nat) :
  let s := run Expanding cyclic_file (repeat 0 k) (start_system cyclic_world []) in
  all_finished s = false /\ length (tasks s) = 1.
Proof.
  do 7 (destruct k as [|k]; [vm_compute; auto |]).
  change (S (S (S (S (S (S (S k))))))) with (7 + k). rewrite spinning_reached. auto.
Qed.

(** With that file, [Bind] never returns: the load never leaves the loop
    of [expandVariables]. *)
Lemma Bind_hangs_on_cycle (sched : list nat) (fields : list field) :
  Bind Expanding sched cyclic_world (PointerToStruct fields) [] = None.
Proof.
  unfold Bind. cbn.
  assert (H : exists k, run Expanding cyclic_file sched (start_system cyclic_world [])
                        = run Expanding cyclic_file (repeat 0 k)
                            (start_system cyclic_world [])).
  { apply (run_invariant Expanding cyclic_file
             (fun s => exists k, s = run Expanding cyclic_file (repeat 0 k)
                                      (start_system cyclic_world []))); [| now exists 0].
    intros j s [k ->]. destruct j as [|j].
    - exists (S k). now rewrite repeat_snoc, run_snoc.
    - exists k. unfold sys_step at 1.
      destruct (cyclic_progress k) as [_ Hlen].
      destruct (tasks _) as [|p [|q l]]; try discriminate Hlen. reflexivity. }
  destruct H as [k ->]. now destruct (cyclic_progress k) as [-> _].
Qed.

(** C5, as the code has it.  The loop of [expandVariables] has no bound
    and detects no cycle: the function never returns an error, it
    returns exactly when some round changes nothing, and for a variable
    whose value holds its own placeholder (A set to ["${A}x"], expanding
    ["${A}"]) no number of rounds makes it return; a call of [Bind] that
    loads a file with the lines [A=${A}x] and [B=${A}] never returns. *)
Theorem expansion_has_no_bound :
  (forall e fuel value r err,
     expandVariables fuel e value = Some (r, err) -> err = None) /\
  (forall e value,
     (exists fuel r, expandVariables fuel e value = Some r) <->
     (exists n, expand_once e (rounds (S n) e value) = rounds (S n) e value)) /\
  (forall fuel, expandVariables fuel cyclic_env "${A}" = None) /\
  (forall n, expand_once cyclic_env (rounds (S n) cyclic_env "${A}")
             <> rounds (S n) cyclic_env "${A}") /\
  (forall sched fields,
     Bind Expanding sched cyclic_world (PointerToStruct fields) [] = None).
Proof.
  assert (Hiff : forall e value,
     (exists fuel r, expandVariables fuel e value = Some r) <->
     (exists n, expand_once e (rounds (S n) e value) = rounds (S n) e value)).
  { intros e value. split.
    - intros (fuel & [r err] & H).
      apply expandVariables_result in H as (_ & Hfix & n & ->). now exists n.
    - intros [n H]. cbn [rounds] in H.
      apply rounds_expand_loop in H as (fuel & r & Hr).
      exists fuel, (r, None). unfold expandVariables. now rewrite Hr. }
  refine (conj _ (conj Hiff (conj cyclic_never_returns (conj _ Bind_hangs_on_cycle)))).
  - intros e fuel value r err H. now apply expandVariables_result in H.
  - intros n H.
    assert (Hex : exists fuel r, expandVariables fuel cyclic_env "${A}" = Some r).
    { apply Hiff. now exists n. }
    destruct Hex as (fuel & r & Hr). now rewrite cyclic_never_returns in Hr.
Qed.

(** C5, as stated, fails: [expandVariables] does not return for every
    value and every environment. *)
Lemma expansion_does_not_always_return :
  ~ (forall (e : environ) (value : string),
       exists fuel r, expandVariables fuel e value = Some r).
Proof.
  intros H. destruct (H cyclic_env "${A}") as (fuel & r & Hr).
  now rewrite cyclic_never_returns in Hr.
Qed.

Lemma expansion_has_no_bound_witness :
  exists fuel r, expandVariables fuel env_A_B "${A}/${B}" = Some r.
Proof.
  pose proof expansion_has_no_bound as (_ & H & _).
  apply (H env_A_B "${A}/${B}"). exists 0. reflexivity.
Defined.

(** ** Loads that fit the channel all return *)

Section Returns.

Variable fs : filesystem.

Lemma count_finished_le (l : list pc) : count_finished l <= length l.
Proof.
  induction l as [|p l IH]; [reflexivity |].
  rewrite count_finished_cons. cbn [length]. destruct (finished p); lia.
Qed.

Lemma count_finished_unfinished (l : list pc) (i : nat) (p : pc) :
  l !! i = Some p -> finished p = false -> count_finished l < length l.
Proof.
  revert i. induction l as [|q l IH]; intros i Hi Hp; [discriminate |].
  rewrite count_finished_cons. cbn [length]. destruct i as [|i].
  - injection Hi as ->. rewrite Hp. pose proof (count_finished_le l). lia.
  - specialize (IH i Hi Hp). destruct (finished q); lia.
Qed.

(** A load of load.go that has not returned takes a step, unless it
    waits on a full channel, and the step brings it closer to its
    return. *)
Lemma plain_progress (sh : shared) (p : pc) :
  finished p = false -> expanding p = false ->
  length (buffer (Ce sh)) < capacity (Ce sh) ->
  exists sh' p', load_step Plain fs sh p = Some (sh', p') /\
    steps_left fs p' < steps_left fs p /\ expanding p' = false /\
    capacity (Ce sh') = capacity (Ce sh) /\
    match p with
    | AtSend _ => finished p' = true /\
                  length (buffer (Ce sh')) = S (length (buffer (Ce sh)))
    | _ => length (buffer (Ce sh')) = length (buffer (Ce sh))
    end.
Proof.
  intros Hf He Hroom.
  destruct p as [path|c|key cur c|key value c|key value c|key c|e|];
    try discriminate; cbn [load_step steps_left].
  - destruct (fs path) as [| cause | lines serr]; eexists _, _;
      (split; [reflexivity |]); cbn; repeat split; lia.
  - destruct c as [path [|text lines] serr]; cbn.
    + destruct serr; eexists _, _; (split; [reflexivity |]); cbn; repeat split; lia.
    + destruct (parse_line text) as [[key value]|]; eexists _, _;
        (split; [reflexivity |]); cbn; repeat split; lia.
  - destruct (is_loaded _ _); eexists _, _; (split; [reflexivity |]);
      cbn; repeat split; lia.
  - destruct (Setenv _ _ _); eexists _, _; (split; [reflexivity |]);
      cbn; repeat split; lia.
  - eexists _, _; (split; [reflexivity |]); cbn; repeat split; lia.
  - apply Nat.ltb_lt in Hroom. rewrite Hroom. eexists _, _; (split; [reflexivity |]).
    cbn. rewrite length_app. cbn. repeat split; lia.
Qed.

Lemma roomy_step (j : nat) (s : system) :
  roomy s ->
  roomy (sys_step Plain fs j s) /\
  length (tasks (sys_step Plain fs j s)) = length (tasks s) /\
  count_finished (tasks s) <= count_finished (tasks (sys_step Plain fs j s)).
Proof.
  intros (Hlen & Hbuf & Hexp).
  destruct (sys_step_cases Plain fs j s) as [->|(p & sh & p' & Hp & Hs & ->)];
    [unfold roomy; auto |].
  pose proof (count_finished_insert _ _ _ p' Hp) as Hins.
  assert (Hpe : expanding p = false).
  { rewrite Forall_forall in Hexp. apply Hexp. eapply list_elem_of_lookup_2, Hp. }
  destruct (finished p) eqn:Hpf.
  { destruct p; try discriminate Hpf. discriminate Hs. }
  assert (Hroom : length (buffer (Ce (state s))) < capacity (Ce (state s))).
  { pose proof (count_finished_unfinished _ _ _ Hp Hpf). lia. }
  destruct (plain_progress (state s) p Hpf Hpe Hroom)
    as (sh1 & p1 & Hs1 & _ & Hp1 & Hcap & Hb).
  rewrite Hs in Hs1. injection Hs1 as <- <-.
  unfold roomy. cbn. rewrite length_insert. unfold count_finished in *.
  split; [split; [lia | split] | split; [reflexivity |]].
  - destruct p; destruct (finished p'); lia.
  - now apply Forall_insert.
  - destruct (finished p'); lia.
Qed.

Lemma finished_stays (v : variant) (i j : nat) (s : system) :
  tasks s !! i = Some Finished -> tasks (sys_step v fs j s) !! i = Some Finished.
Proof.
  intros Hi. destruct (sys_step_cases v fs j s) as [->|(p & sh & p' & Hp & Hs & ->)];
    [exact Hi |].
  cbn. destruct (decide (i = j)) as [->|Hne].
  - rewrite Hi in Hp. injection Hp as <-. discriminate Hs.
  - now rewrite list_lookup_insert_ne by congruence.
Qed.

Lemma run_finished_stays (v : variant) (sched : list nat) (i : nat) (s : system) :
  tasks s !! i = Some Finished -> tasks (run v fs sched s) !! i = Some Finished.
Proof.
  apply (run_invariant v fs (fun s => tasks s !! i = Some Finished)).
  intros j s'. apply finished_stays.
Qed.

(** The task [i] is run until it has returned. *)
Lemma roomy_finish_task (n : nat) :
  forall (s : system) (i : nat) (p : pc),
    roomy s -> tasks s !! i = Some p -> steps_left fs p <= n ->
    exists k, roomy (run Plain fs (repeat i k) s) /\
      tasks (run Plain fs (repeat i k) s) !! i = Some Finished /\
      length (tasks (run Plain fs (repeat i k) s)) = length (tasks s).
Proof.
  induction n as [|n IH]; intros s i p Hs Hp Hn.
  - assert (Hf : p = Finished).
    { destruct Hs as (_ & _ & Hexp). rewrite Forall_forall in Hexp.
      assert (He : expanding p = false)
        by (apply Hexp; eapply list_elem_of_lookup_2, Hp).
      destruct p as [path|c|?|?|?|?|?|]; cbn in Hn, He; try lia; try discriminate;
        try reflexivity.
      destruct (fs path); lia. }
    subst p. exists 0. cbn. auto.
  - destruct (finished p) eqn:Hpf.
    { destruct p; try discriminate Hpf. exists 0. cbn. auto. }
    pose proof Hs as (Hlen & Hbuf & Hexp).
    assert (Hpe : expanding p = false).
    { rewrite Forall_forall in Hexp. apply Hexp. eapply list_elem_of_lookup_2, Hp. }
    assert (Hroom : length (buffer (Ce (state s))) < capacity (Ce (state s))).
    { pose proof (count_finished_unfinished _ _ _ Hp Hpf). lia. }
    destruct (plain_progress (state s) p Hpf Hpe Hroom)
      as (sh1 & p1 & Hs1 & Hless & _).
    destruct (roomy_step i s Hs) as (Hr1 & Hlen1 & _).
    assert (Hp1 : tasks (sys_step Plain fs i s) !! i = Some p1).
    { unfold sys_step. rewrite Hp, Hs1. cbn.
      apply list_lookup_insert_eq. eapply lookup_lt_Some, Hp. }
    destruct (IH (sys_step Plain fs i s) i p1 Hr1 Hp1 ltac:(lia))
      as (k & Hr & Hfin & Hlenk).
    exists (S k). cbn [repeat]. unfold run in *. cbn [fold_left].
    repeat split; try apply Hr; try assumption; lia.
Qed.

(** Some schedule brings the first [k] loads to their return. *)
Lemma roomy_finish_first (k : nat) (s : system) :
  roomy s ->
  exists sched, roomy (run Plain fs sched s) /\
    length (tasks (run Plain fs sched s)) = length (tasks s) /\
    forall i, i < k -> i < length (tasks s) ->
      tasks (run Plain fs sched s) !! i = Some Finished.
Proof.
  intros Hs. induction k as [|k (sched & Hr & Hlen & Hfin)].
  - exists []. cbn. repeat split; [apply Hs | apply Hs | apply Hs | lia].
  - destruct (tasks (run Plain fs sched s) !! k) as [p|] eqn:Hp.
    + destruct (roomy_finish_task (steps_left fs p) _ k p Hr Hp (le_n _))
        as (n & Hr' & Hk & Hlen').
      exists (sched ++ repeat k n)%list. rewrite run_app.
      split; [exact Hr' | split; [congruence |]].
      intros i Hi Hil. destruct (decide (i = k)) as [->|Hne]; [exact Hk |].
      apply run_finished_stays, Hfin; lia.
    + exists sched. split; [exact Hr | split; [exact Hlen |]].
      intros i Hi Hil. apply lookup_ge_None in Hp.
      apply Hfin; lia.
Qed.

(** From every state in which the channel has room, some schedule
    brings every load to its return. *)
Lemma roomy_finish_all (s : system) :
  roomy s -> exists sched, all_finished (run Plain fs sched s) = true.
Proof.
  intros Hs.
  destruct (roomy_finish_first (length (tasks s)) s Hs) as (sched & _ & Hlen & Hfin).
  exists sched. unfold all_finished. apply forallb_forall. intros p Hp.
  apply list_elem_of_In, list_elem_of_lookup in Hp as [i Hi].
  pose proof (lookup_lt_Some _ _ _ Hi) as Hlt.
  rewrite Hfin in Hi by lia. now injection Hi as <-.
Qed.

End Returns.

Lemma start_system_roomy (w : world) (rPath : list string) :
  length rPath <= 10 -> roomy (start_system w rPath).
Proof.
  intros Hlen. unfold roomy. cbn. split; [| split; [lia |]].
  - unfold start_tasks. destruct rPath; [cbn; lia | now rewrite length_map].
  - apply Forall_forall. intros p Hp.
    apply list_elem_of_lookup in Hp as [i Hi].
    apply start_tasks_at_start in Hi as [path ->]. reflexivity.
Qed.

(** X24. With load.go and at most ten paths, [Bind] given a pointer to a
    struct comes to its end: every schedule can be continued so that all
    loads return, and then [Bind] returns or panics as [Bind_finish]
    says. *)
Lemma Bind_ends_within_capacity (sched0 : list nat) (w : world)
    (fields : list field) (rPath : list string) :
  length rPath <= 10 ->
  exists sched1 b,
    Bind Plain (sched0 ++ sched1) w (PointerToStruct fields) rPath = Some b.
Proof.
  intros Hlen.
  assert (Hr : roomy (run Plain (files w) sched0 (start_system w rPath))).
  { apply run_invariant; [| now apply start_system_roomy].
    intros j s Hs. now apply roomy_step. }
  destruct (roomy_finish_all (files w) _ Hr) as [sched1 Hfin].
  exists sched1. unfold Bind. cbn. rewrite run_app, Hfin. eauto.
Qed.

(** ** One file: [load] read as sequential code *)

Lemma set_same (sh : shared) : set_loaded (loadedVars sh) (set_env (env sh) sh) = sh.
Proof. now destruct sh. Qed.

Lemma load_end_set_env (path : string) (serr : option string)
    (r : environ * gmap string bool * option error) (e : environ) (sh : shared) :
  load_end path serr r (set_env e sh) = load_end path serr r sh.
Proof. destruct r as [[e' m] err]. reflexivity. Qed.

Lemma load_end_set_loaded (path : string) (serr : option string)
    (r : environ * gmap string bool * option error) (m : gmap string bool) (sh : shared) :
  load_end path serr r (set_loaded m sh) = load_end path serr r sh.
Proof. destruct r as [[e' m'] err]. reflexivity. Qed.

Lemma load_end_error (path : string) (serr : option string) (er : error) (sh : shared) :
  load_end path serr (env sh, loadedVars sh, Some er) sh = send er sh.
Proof. unfold load_end. now rewrite set_same. Qed.

(** A step of a load does not change what the load leaves behind. *)
Lemma load_rest_step (fs : filesystem) (sh sh' : shared) (p p' : pc) :
  expanding p = false ->
  load_step Plain fs sh p = Some (sh', p') ->
  load_rest fs sh' p' = load_rest fs sh p /\ expanding p' = false.
Proof.
  intros He.
  destruct p as [path|c|key cur c|key value c|key value c|key c|e|];
    try discriminate He; cbn [load_step].
  - destruct (fs path) as [|cause|lines serr] eqn:Hp; intros [= <- <-];
      cbn [load_rest]; rewrite ?Hp; auto.
  - destruct c as [path lines serr]. cbn [rest scan_err filePath].
    destruct lines as [|text lines].
    + destruct serr as [cause|]; intros [= <- <-]; cbn [load_rest load_lines];
        cbn; now rewrite ?set_same.
    + cbn [load_rest load_lines rest filePath scan_err].
      destruct (parse_line text) as [[key value]|]; intros [= <- <-]; auto.
  - cbn [load_rest]. destruct (is_loaded _ _); intros [= <- <-]; auto.
  - cbn [load_rest].
    destruct (Setenv (env sh) key value) as [e'|]; intros [= <- <-].
    + cbn [load_rest]. now rewrite load_end_set_env.
    + cbn [load_rest]. now rewrite load_end_error.
  - intros [= <- <-]. cbn [load_rest]. now rewrite load_end_set_loaded.
  - destruct (_ <? _)%nat; [| discriminate]. intros [= <- <-]. auto.
  - discriminate.
Qed.

(** A system with one load of load.go, under any schedule: what the
    load leaves behind stays the same. *)
Lemma single_run (fs : filesystem) (sched : list nat) (sh : shared) (p : pc) :
  expanding p = false ->
  exists q, tasks (run Plain fs sched {| state := sh; tasks := [p] |}) = [q] /\
    expanding q = false /\
    load_rest fs (state (run Plain fs sched {| state := sh; tasks := [p] |})) q
      = load_rest fs sh p.
Proof.
  intros He.
  apply (run_invariant Plain fs
           (fun s => exists q, tasks s = [q] /\ expanding q = false /\
                               load_rest fs (state s) q = load_rest fs sh p)).
  - intros i s (q & Hq & Hqe & Hr).
    destruct (sys_step_cases Plain fs i s) as [->|(p0 & sh1 & p1 & Hp & Hs & ->)];
      [eauto |].
    rewrite Hq in Hp |- *. destruct i as [|i]; [| discriminate].
    injection Hp as <-. apply load_rest_step in Hs as [Hs1 Hs2]; [| assumption].
    exists p1. cbn. split; [reflexivity | split; [assumption | congruence]].
  - exists p. auto.
Qed.

Lemma single_run_finished (fs : filesystem) (sched : list nat) (sh : shared) (p : pc) :
  expanding p = false ->
  all_finished (run Plain fs sched {| state := sh; tasks := [p] |}) = true ->
  state (run Plain fs sched {| state := sh; tasks := [p] |}) = load_rest fs sh p.
Proof.
  intros He Hfin. destruct (single_run fs sched sh p He) as (q & Hq & _ & Hr).
  unfold all_finished in Hfin. rewrite Hq in Hfin. cbn in Hfin.
  destruct q; try discriminate Hfin. exact Hr.
Qed.

(** The lines of a file are taken one after the other. *)
Lemma load_lines_app (a b : list string) (e : environ) (m : gmap string bool) :
  load_lines (a ++ b) e m =
    match load_lines a e m with
    | (e1, m1, None) => load_lines b e1 m1
    | r => r
    end.
Proof.
  revert e m. induction a as [|text a IH]; intros e m; [reflexivity |].
  cbn [app load_lines]. destruct (parse_line text) as [[key value]|]; [| apply IH].
  destruct (is_loaded m key); [apply IH |].
  destruct (Setenv e key value) as [e'|]; [apply IH | reflexivity].
Qed.

Lemma is_loaded_insert_ne (m : gmap string bool) (key k : string) :
  key <> k -> is_loaded (<[key := true]> m) k = is_loaded m k.
Proof. intros H. unfold is_loaded. now rewrite lookup_insert_ne. Qed.

Lemma Setenv_Some (e e' : environ) (key value : string) :
  Setenv e key value = Some e' -> setenv_ok key value = true /\ e' = <[key := value]> e.
Proof.
  unfold Setenv. destruct (setenv_ok key value); [| discriminate].
  intros [= <-]. auto.
Qed.

(** The loop leaves the variables alone that were marked before it. *)
Lemma load_lines_keeps_marked (lines : list string) (e e' : environ)
    (m m' : gmap string bool) (err : option error) (k : string) :
  load_lines lines e m = (e', m', err) ->
  is_loaded m k = true -> e' !! k = e !! k /\ is_loaded m' k = true.
Proof.
  revert e m. induction lines as [|text lines IH]; intros e m; cbn [load_lines].
  - intros [= <- <- <-]. auto.
  - destruct (parse_line text) as [[key value]|]; [| apply IH].
    destruct (is_loaded m key) eqn:Hkey; [apply IH |].
    destruct (Setenv e key value) as [e1|] eqn:Hset.
    + intros H Hk. apply Setenv_Some in Hset as [_ ->].
      assert (Hne : key <> k) by congruence.
      destruct (IH _ _ H) as [He Hm]; [now apply is_loaded_insert |].
      split; [| exact Hm]. now rewrite He, lookup_insert_ne.
    + intros [= <- <- <-]. auto.
Qed.

(** When the loop is left without an error, a variable that was not
    marked before has the value of its first line, if it has a line. *)
Lemma load_lines_first (lines : list string) (e e' : environ)
    (m m' : gmap string bool) (k : string) :
  load_lines lines e m = (e', m', None) ->
  is_loaded m k = false ->
  e' !! k = match first_value lines k with Some x => Some x | None => e !! k end /\
  is_loaded m' k = bool_decide (is_Some (first_value lines k)).
Proof.
  revert e m. induction lines as [|text lines IH]; intros e m; cbn [load_lines first_value].
  - intros [= <- <-] Hk. rewrite Hk. auto.
  - destruct (parse_line text) as [[key value]|]; [| apply IH].
    destruct (is_loaded m key) eqn:Hkey.
    + intros H Hk. destruct (decide (key = k)) as [->|Hne]; [congruence |].
      now apply (IH e m).
    + destruct (Setenv e key value) as [e1|] eqn:Hset; [| discriminate].
      apply Setenv_Some in Hset as [_ ->].
      intros H Hk. destruct (decide (key = k)) as [->|Hne].
      * destruct (load_lines_keeps_marked _ _ _ _ _ _ k H) as [He Hm];
          [apply is_loaded_insert_eq |].
        rewrite He, lookup_insert_eq, Hm. auto.
      * destruct (IH _ _ H) as [He Hm]; [now rewrite is_loaded_insert_ne |].
        rewrite He, Hm, lookup_insert_ne by assumption. auto.
Qed.

(** Running the loop again from the environment that it left changes
    nothing. *)
Lemma load_lines_again (lines : list string) (e e' : environ)
    (m m' : gmap string bool) (err : option error) :
  load_lines lines e m = (e', m', err) -> load_lines lines e' m = (e', m', err).
Proof.
  revert e m. induction lines as [|text lines IH]; intros e m; cbn [load_lines].
  - intros [= <- <- <-]. reflexivity.
  - destruct (parse_line text) as [[key value]|]; [| apply IH].
    destruct (is_loaded m key) eqn:Hkey; [apply IH |].
    destruct (Setenv e key value) as [e1|] eqn:Hset.
    + intros H. pose proof Hset as [Hok ->]%Setenv_Some.
      destruct (load_lines_keeps_marked _ _ _ _ _ _ key H) as [He _];
        [apply is_loaded_insert_eq |].
      rewrite lookup_insert_eq in He.
      unfold Setenv. rewrite Hok, (insert_id e' key value He).
      exact (IH _ _ H).
    + intros [= <- <- <-]. unfold Setenv in Hset |- *.
      destruct (setenv_ok key value); [discriminate | reflexivity].
Qed.

Lemma start_system_one (w : world) (rPath : list string) (path : string) :
  start_tasks w rPath = [AtStart path] ->
  start_system w rPath = {| state := start_state w; tasks := [AtStart path] |} /\
  length rPath <= 10.
Proof.
  intros H. unfold start_system. rewrite H. split; [reflexivity |].
  unfold start_tasks in H. destruct rPath as [|dir [|dir' rPath]]; cbn; try lia.
  discriminate H.
Qed.

Lemma Bind_one_load (sched : list nat) (w : world) (fields : list field)
    (rPath : list string) (path : string) (b : bound) :
  start_tasks w rPath = [AtStart path] ->
  Bind Plain sched w (PointerToStruct fields) rPath = Some b ->
  b = Bind_finish w (PointerToStruct fields) (load_seq (files w) path (start_state w)).
Proof.
  intros Hone HB. apply Bind_loads in HB as [Hfin ->].
  apply start_system_one in Hone as [Hs _]. rewrite Hs in Hfin |- *.
  now rewrite single_run_finished.
Qed.

(** X1. With one file to load, what [Bind] of load.go leaves behind does
    not depend on the schedule: it is what the sequential reading of
    [load] followed by the rest of [Bind] gives, and every schedule can
    be continued so that [Bind] comes to that end. *)
Theorem Bind_one_file_is_sequential (w : world) (fields : list field)
    (rPath : list string) (path : string) :
  start_tasks w rPath = [AtStart path] ->
  (forall sched b, Bind Plain sched w (PointerToStruct fields) rPath = Some b ->
     b = Bind_finish w (PointerToStruct fields)
           (load_seq (files w) path (start_state w))) /\
  (forall sched0, exists sched1,
     Bind Plain (sched0 ++ sched1) w (PointerToStruct fields) rPath =
       Some (Bind_finish w (PointerToStruct fields)
               (load_seq (files w) path (start_state w)))).
Proof.
  intros Hone. split.
  - intros sched b. now apply Bind_one_load.
  - intros sched0. pose proof Hone as [_ Hlen]%start_system_one.
    assert (Hr : roomy (run Plain (files w) sched0 (start_system w rPath))).
    { apply run_invariant; [| now apply start_system_roomy].
      intros j s Hs. now apply roomy_step. }
    destruct (roomy_finish_all (files w) _ Hr) as [sched1 Hfin].
    exists sched1.
    assert (HB : exists b, Bind Plain (sched0 ++ sched1) w (PointerToStruct fields) rPath
                           = Some b).
    { unfold Bind. cbn. rewrite run_app, Hfin. eauto. }
    destruct HB as [b HB]. rewrite HB. f_equal.
    exact (Bind_one_load _ _ _ _ _ _ Hone HB).
Qed.

Lemma Bind_one_file_is_sequential_witness :
  port_bound = Bind_finish port_world port_config
                 (load_seq port_file "/app/.env" (start_state port_world)).
Proof.
  apply (proj1 (Bind_one_file_is_sequential port_world [int_field] [] "/app/.env" eq_refl)
           (repeat 0 10) port_bound).
  vm_compute. reflexivity.
Defined.

Lemma load_end_env (path : string) (serr : option string) (e : environ)
    (m : gmap string bool) (err : option error) (sh : shared) :
  env (load_end path serr (e, m, err) sh) = e.
Proof. unfold load_end. destruct err; [reflexivity |]. now destruct serr. Qed.

Lemma load_end_buffer (path : string) (serr : option string) (e : environ)
    (m : gmap string bool) (err : option error) (sh : shared) :
  buffer (Ce (load_end path serr (e, m, err) sh)) =
    (buffer (Ce sh) ++
     match err, serr with
     | Some er, _ => [er]
     | None, Some cause => [ErrReading path cause]
     | None, None => []
     end)%list.
Proof.
  unfold load_end. destruct err; [reflexivity |].
  destruct serr; [reflexivity |]. cbn. now rewrite app_nil_r.
Qed.

(** [Bind] returns an error exactly when the channel holds one. *)
Lemma Bind_finish_failed (w : world) (i : iface) (sh : shared) :
  match last (buffer (Ce sh)) with
  | Some err => result (Bind_finish w i sh) = Failed err /\
                after_target (Bind_finish w i sh) = i
  | None => buffer (Ce sh) = [] /\ forall e, result (Bind_finish w i sh) <> Failed e
  end.
Proof.
  unfold Bind_finish. destruct (last (buffer (Ce sh))) as [err|] eqn:Hl; [auto |].
  apply last_None in Hl. split; [exact Hl |].
  destruct (bind_fields _ _) as [[done l] [msg|]]; intros e; discriminate.
Qed.

(** X2. One file, read by load.go, when [Bind] returns nil or panics in
    the loop over the fields: every variable that the file names has the
    value of the first line that names it, and every other variable is
    as it was before the call. *)
Theorem file_sets_first_values (sched : list nat) (w : world) (fields : list field)
    (rPath : list string) (path : string) (lines : list string)
    (serr : option string) (b : bound) :
  start_tasks w rPath = [AtStart path] ->
  files w path = Readable lines serr ->
  Bind Plain sched w (PointerToStruct fields) rPath = Some b ->
  (forall e, result b <> Failed e) ->
  forall k, environment (after_world b) !! k =
            match first_value lines k with
            | Some x => Some x
            | None => environment w !! k
            end.
Proof.
  intros Hone Hfile HB Hok k.
  rewrite (Bind_one_load _ _ _ _ _ _ Hone HB) in Hok |- *.
  rewrite Bind_finish_environment.
  pose proof (Bind_finish_failed w (PointerToStruct fields)
                (load_seq (files w) path (start_state w))) as Hf.
  unfold load_seq in *. cbn [load_rest] in *. rewrite Hfile in *.
  destruct (load_lines lines (env (start_state w)) (loadedVars (start_state w)))
    as [[e' m'] err] eqn:Hl.
  rewrite load_end_env. rewrite load_end_buffer in Hf.
  destruct err as [er|].
  { cbn in Hf. destruct Hf as [Hf _]. now apply Hok in Hf. }
  destruct serr as [cause|].
  { cbn in Hf. destruct Hf as [Hf _]. now apply Hok in Hf. }
  now apply (load_lines_first lines _ _ _ _ k Hl).
Qed.

Lemma file_sets_first_values_witness :
  environment (after_world port_bound) !! "PORT" = Some "8080".
Proof.
  apply (file_sets_first_values (repeat 0 10) port_world [int_field] [] "/app/.env"
           ["PORT=8080"; "HOST="] None port_bound eq_refl eq_refl port_Bind).
  intros e. discriminate.
Defined.

Lemma broken_Bind :
  Bind Plain (repeat 0 12) broken_world port_config [] = Some broken_bound.
Proof. vm_compute. reflexivity. Qed.

(** With one file to load, every schedule can be continued so that
    [Bind] of load.go comes to its end. *)
Lemma Bind_one_load_ends (sched0 : list nat) (w : world) (fields : list field)
    (rPath : list string) (path : string) :
  start_tasks w rPath = [AtStart path] ->
  exists sched1 b, Bind Plain (sched0 ++ sched1) w (PointerToStruct fields) rPath = Some b.
Proof.
  intros [_ Hlen]%start_system_one.
  assert (Hr : roomy (run Plain (files w) sched0 (start_system w rPath))).
  { apply run_invariant; [| now apply start_system_roomy].
    intros j s Hs. now apply roomy_step. }
  destruct (roomy_finish_all (files w) _ Hr) as [sched1 Hfin].
  exists sched1. unfold Bind. cbn. rewrite run_app, Hfin. eauto.
Qed.

(** X3. With load.go and one file to load, a line that [os.Setenv]
    rejects ends the load of the file: whenever [Bind] returns it returns
    the error of that line and has not touched the struct; the lines
    before it stay applied to the environment, the lines behind it are
    not applied.  Every schedule can be continued so that [Bind] returns
    in this way.  (With several files the error returned is that of the
    load that sent its error last.) *)
Theorem rejected_line_ends_load (w : world) (fields : list field)
    (rPath : list string) (path : string) (pre post : list string) (text : string)
    (serr : option string) (e1 : environ) (m1 : gmap string bool)
    (key value : string) :
  start_tasks w rPath = [AtStart path] ->
  files w path = Readable (pre ++ text :: post) serr ->
  load_lines pre (environment w) ∅ = (e1, m1, None) ->
  parse_line text = Some (key, value) ->
  is_loaded m1 key = false ->
  setenv_ok key value = false ->
  (forall sched b, Bind Plain sched w (PointerToStruct fields) rPath = Some b ->
     result b = Failed (ErrSetting key "setenv: invalid argument") /\
     after_target b = PointerToStruct fields /\
     environment (after_world b) = e1 /\
     forall k, environment (after_world b) !! k =
               match first_value pre k with
               | Some x => Some x
               | None => environment w !! k
               end) /\
  (forall sched0, exists sched1 b,
     Bind Plain (sched0 ++ sched1) w (PointerToStruct fields) rPath = Some b /\
     result b = Failed (ErrSetting key "setenv: invalid argument")).
Proof.
  intros Hone Hfile Hpre Hparse Hkey Hbad.
  assert (Hall : forall sched b,
            Bind Plain sched w (PointerToStruct fields) rPath = Some b ->
            result b = Failed (ErrSetting key "setenv: invalid argument") /\
            after_target b = PointerToStruct fields /\
            environment (after_world b) = e1 /\
            forall k, environment (after_world b) !! k =
                      match first_value pre k with
                      | Some x => Some x
                      | None => environment w !! k
                      end).
  { intros sched b HB.
    rewrite (Bind_one_load _ _ _ _ _ _ Hone HB).
    rewrite Bind_finish_environment.
    pose proof (Bind_finish_failed w (PointerToStruct fields)
                  (load_seq (files w) path (start_state w))) as Hf.
    unfold load_seq in *. cbn [load_rest] in *. rewrite Hfile in *.
    assert (Hl : load_lines (pre ++ text :: post) (env (start_state w))
                   (loadedVars (start_state w))
                 = (e1, m1, Some (ErrSetting key "setenv: invalid argument"))).
    { rewrite load_lines_app. unfold start_state. cbn [env loadedVars]. rewrite Hpre.
      cbn [load_lines]. rewrite Hparse, Hkey. unfold Setenv. now rewrite Hbad. }
    rewrite Hl in *. rewrite load_end_env. rewrite load_end_buffer in Hf.
    cbn in Hf. destruct Hf as [Hr Ht].
    refine (conj Hr (conj Ht (conj eq_refl _))).
    intros k. now apply (load_lines_first pre _ _ _ _ k Hpre). }
  split; [exact Hall |].
  intros sched0.
  destruct (Bind_one_load_ends sched0 w fields rPath path Hone) as (sched1 & b & HB).
  exists sched1, b. split; [exact HB | now apply (Hall _ _ HB)].
Qed.

Lemma rejected_line_ends_load_witness :
  (result broken_bound = Failed (ErrSetting "" "setenv: invalid argument") /\
   after_target broken_bound = port_config /\
   environment (after_world broken_bound) = <["A" := "1"]> ∅ /\
   forall k, environment (after_world broken_bound) !! k =
             match first_value ["A=1"] k with
             | Some x => Some x
             | None => (∅ : environ) !! k
             end) /\
  (forall sched0, exists sched1 b,
     Bind Plain (sched0 ++ sched1) broken_world port_config [] = Some b /\
     result b = Failed (ErrSetting "" "setenv: invalid argument")).
Proof.
  pose proof (rejected_line_ends_load broken_world [int_field] [] "/app/.env"
                ["A=1"] ["B=2"] "=x" None (<["A" := "1"]> ∅) (<["A" := true]> ∅) "" "x"
                eq_refl eq_refl eq_refl eq_refl eq_refl eq_refl) as [H1 H2].
  split; [exact (H1 (repeat 0 12) broken_bound broken_Bind) | exact H2].
Defined.

(** ** Several files at once *)

Section FirstValues.

Variable fs : filesystem.
Variable start : list pc.
Variable k : string.

Lemma first_value_app (a b : list string) :
  first_value (a ++ b) k =
    match first_value a k with
    | Some x => Some x
    | None => first_value b k
    end.
Proof.
  induction a as [|text a IH]; [reflexivity |].
  cbn [app first_value]. destruct (parse_line text) as [[key value]|]; [| exact IH].
  destruct (decide (key = k)); [reflexivity | exact IH].
Qed.

Lemma first_value_snoc (before : list string) (text : string) :
  first_value (before ++ [text]) k =
    match first_value before k with
    | Some x => Some x
    | None =>
        match parse_line text with
        | Some (key, value) => if decide (key = k) then Some value else None
        | None => None
        end
    end.
Proof.
  rewrite first_value_app. destruct (first_value before k); [reflexivity |].
  cbn [first_value]. destruct (parse_line text) as [[key value]|]; [| reflexivity].
  destruct (decide (key = k)); reflexivity.
Qed.

Lemma app_snoc (before : list string) (text : string) (r : list string) :
  ((before ++ [text]) ++ r = before ++ text :: r)%list.
Proof. now rewrite <- app_assoc. Qed.

(** What a step of a load that is on track does. *)
Lemma on_track_step (path : string) (sh sh' : shared) (p p' : pc) :
  AtStart path ∈ start ->
  on_track fs start k path sh p ->
  load_step Plain fs sh p = Some (sh', p') ->
  on_track fs start k path sh' p' /\
  (holds_first fs start k sh -> holds_first fs start k sh') /\
  (env sh' !! k = env sh !! k \/ holds_first fs start k sh') /\
  (is_loaded (loadedVars sh') k = true ->
   is_loaded (loadedVars sh) k = true \/ holds_first fs start k sh').
Proof.
  intros Hin Ht.
  assert (Hsame : forall q, on_track fs start k path sh q ->
            on_track fs start k path sh q /\
            (holds_first fs start k sh -> holds_first fs start k sh) /\
            (env sh !! k = env sh !! k \/ holds_first fs start k sh) /\
            (is_loaded (loadedVars sh) k = true ->
             is_loaded (loadedVars sh) k = true \/ holds_first fs start k sh)).
  { intros q Hq. auto. }
  destruct p as [path'|c|key cur c|key value c|key value c|key c|e|];
    cbn [load_step on_track] in *.
  - subst path'. destruct (fs path) as [|cause|lines serr] eqn:Hp;
      intros [= <- <-].
    + refine (conj _ (conj (fun H => H) (conj (or_introl eq_refl) (fun H => or_introl H)))).
      cbn. auto.
    + apply Hsame. exact I.
    + apply Hsame. cbn. exists []. split; [exact Hp |]. intros [x Hx]. discriminate.
  - destruct Ht as (before & Hfile & Hb).
    destruct (rest c) as [|text r] eqn:Hr.
    + destruct (scan_err c) as [cause|] eqn:Hs; intros [= <- <-]; apply Hsame.
      * exact I.
      * cbn. right; right. rewrite app_nil_r in Hfile. eauto.
    + destruct (parse_line text) as [[key value]|] eqn:Hparse;
        intros [= <- <-]; apply Hsame; cbn [on_track advance rest scan_err tail];
        rewrite Hr; cbn [tail].
      * exists before, text. auto.
      * exists (before ++ [text])%list. rewrite app_snoc. split; [exact Hfile |].
        rewrite first_value_snoc, Hparse.
        destruct (first_value before k) as [x|] eqn:Hx; [intros _; apply Hb; eauto |].
        intros [y Hy]. discriminate.
  - contradiction.
  - destruct Ht as (before & text & Hfile & Hparse & Hb).
    destruct (is_loaded (loadedVars sh) key) eqn:Hl; intros [= <- <-]; apply Hsame;
      cbn [on_track].
    + exists (before ++ [text])%list. rewrite app_snoc. split; [exact Hfile |].
      rewrite first_value_snoc, Hparse.
      destruct (first_value before k) as [x|] eqn:Hx; [intros _; apply Hb; eauto |].
      destruct (decide (key = k)) as [<-|Hne]; [intros _; exact Hl |].
      intros [y Hy]. discriminate.
    + exists before, text. refine (conj Hfile (conj Hparse (conj Hb _))).
      intros <-. destruct (first_value before key) as [x|] eqn:Hx; [| reflexivity].
      rewrite Hb in Hl by eauto. discriminate.
  - destruct Ht as (before & text & Hfile & Hparse & Hb & Hfirst).
    destruct (Setenv (env sh) key value) as [e'|] eqn:Hset; intros [= <- <-].
    + apply Setenv_Some in Hset as [_ ->].
      assert (Hnew : key = k -> holds_first fs start k (set_env (<[key := value]> (env sh)) sh)).
      { intros ->. exists value. split; [| cbn; apply lookup_insert_eq].
        exists path, (before ++ text :: rest c)%list, (scan_err c).
        refine (conj Hin (conj Hfile _)).
        rewrite first_value_app, (Hfirst eq_refl). cbn [first_value].
        rewrite Hparse. destruct (decide (k = k)); [reflexivity | contradiction]. }
      assert (Hkeep : key <> k ->
                (<[key := value]> (env sh) : environ) !! k = env sh !! k).
      { intros Hne. now rewrite lookup_insert_ne. }
      refine (conj _ (conj _ (conj _ _))).
      * cbn [on_track]. exists before, text, value.
        refine (conj Hfile (conj Hparse (conj Hb Hnew))).
      * intros (x & Hx & He). destruct (decide (key = k)) as [E|Hne]; [auto |].
        exists x. split; [exact Hx |]. cbn. now rewrite Hkeep.
      * destruct (decide (key = k)) as [E|Hne]; [right; auto | left; cbn; auto].
      * cbn. auto.
    + apply Hsame. exact I.
  - destruct Ht as (before & text & value & Hfile & Hparse & Hb & Hhold).
    intros [= <- <-].
    refine (conj _ (conj (fun H => H) (conj (or_introl eq_refl) _))).
    + cbn [on_track]. exists (before ++ [text])%list. rewrite app_snoc.
      split; [exact Hfile |]. cbn [set_loaded loadedVars].
      rewrite first_value_snoc, Hparse.
      destruct (first_value before k) as [x|] eqn:Hx.
      * intros _. apply is_loaded_insert. apply Hb. eauto.
      * destruct (decide (key = k)) as [<-|Hne]; [intros _; apply is_loaded_insert_eq |].
        intros [y Hy]. discriminate.
    + cbn [set_loaded loadedVars]. destruct (decide (key = k)) as [E|Hne].
      * intros _. right. exact (Hhold E).
      * rewrite is_loaded_insert_ne by assumption. auto.
  - destruct (_ <? _)%nat; [| discriminate]. intros [= <- <-].
    refine (conj _ (conj (fun H => H) (conj (or_introl eq_refl) (fun H => or_introl H)))).
    cbn. left. now destruct (buffer (Ce sh)).
  - discriminate.
Qed.

(** A load that is on track stays so when another load moves. *)
Lemma on_track_other (path : string) (sh sh' : shared) (p : pc) :
  (is_loaded (loadedVars sh) k = true -> is_loaded (loadedVars sh') k = true) ->
  (holds_first fs start k sh -> holds_first fs start k sh') ->
  (buffer (Ce sh) <> [] -> buffer (Ce sh') <> []) ->
  on_track fs start k path sh p -> on_track fs start k path sh' p.
Proof.
  intros Hl Hh Hb.
  destruct p as [path'|c|key cur c|key value c|key value c|key c|e|]; cbn [on_track];
    try tauto.
  - intros (before & Hfile & H). exists before. auto 8.
  - intros (before & text & Hfile & Hparse & H). exists before, text. auto 8.
  - intros (before & text & Hfile & Hparse & H & Hf). exists before, text. auto 8.
  - intros (before & text & value & Hfile & Hparse & H & Hf).
    exists before, text, value. auto 8.
  - intros [H|[H|(lines & serr & Hfile & H)]]; [auto | auto |].
    right; right. exists lines, serr. auto 8.
Qed.

End FirstValues.

Lemma load_step_sends (v : variant) (fs : filesystem) (sh sh' : shared) (p p' : pc) :
  load_step v fs sh p = Some (sh', p') ->
  (forall e, p' = AtSend e -> load_error e) /\
  (buffer (Ce sh') = buffer (Ce sh) \/
   exists e, p = AtSend e /\ p' = Finished /\
             buffer (Ce sh') = (buffer (Ce sh) ++ [e])%list).
Proof.
  destruct p as [path|c|key cur c|key value c|key value c|key c|e|]; cbn [load_step].
  - destruct (fs path); [destruct v | |]; intros [= <- <-];
      (split; [intros err; try discriminate; intros [= <-]; exact I | now left]).
  - destruct (rest c) as [|text ?].
    + destruct (scan_err c); intros [= <- <-];
        (split; [intros err; try discriminate; intros [= <-]; exact I | now left]).
    + destruct (parse_line text) as [[key value]|]; [destruct v |];
        intros [= <- <-]; (split; [intros err; discriminate | now left]).
  - destruct (decide _); intros [= <- <-]; (split; [intros err; discriminate | now left]).
  - destruct (is_loaded _ _); intros [= <- <-];
      (split; [intros err; discriminate | now left]).
  - destruct (Setenv _ _ _); intros [= <- <-];
      (split; [intros err; try discriminate; intros [= <-]; exact I | now left]).
  - intros [= <- <-]. split; [intros err; discriminate | now left].
  - destruct (_ <? _)%nat; [| discriminate]. intros [= <- <-].
    split; [intros err; discriminate | right; eauto].
  - discriminate.
Qed.

Lemma load_step_keeps_mark (v : variant) (fs : filesystem) (sh sh' : shared)
    (p p' : pc) (k : string) :
  load_step v fs sh p = Some (sh', p') ->
  is_loaded (loadedVars sh) k = true -> is_loaded (loadedVars sh') k = true.
Proof.
  intros Hs Hk. apply load_step_effect in Hs as (_ & [-> |(key & c & _ & ->)]);
    [exact Hk | now apply is_loaded_insert].
Qed.

Lemma load_step_keeps_errors (v : variant) (fs : filesystem) (sh sh' : shared)
    (p p' : pc) :
  load_step v fs sh p = Some (sh', p') ->
  buffer (Ce sh) <> [] -> buffer (Ce sh') <> [].
Proof.
  intros Hs Hb. apply load_step_sends in Hs as [_ [-> |(e & _ & _ & ->)]];
    [exact Hb |]. now destruct (buffer (Ce sh)).
Qed.

Lemma first_values_step (fs : filesystem) (start : list pc) (k : string)
    (e0 : environ) (j : nat) (s : system) :
  (forall i p, start !! i = Some p -> exists path, p = AtStart path) ->
  first_values fs start k e0 s -> first_values fs start k e0 (sys_step Plain fs j s).
Proof.
  intros Hstart (Hlen & Htasks & Henv & Hmark).
  destruct (sys_step_cases Plain fs j s) as [->|(p & sh & p' & Hp & Hs & ->)];
    [repeat split; assumption |].
  pose proof (lookup_lt_Some _ _ _ Hp) as Hlt.
  destruct (start !! j) as [p0|] eqn:Hp0; [| apply lookup_ge_None in Hp0; lia].
  destruct (Hstart _ _ Hp0) as [path ->].
  destruct (Htasks _ _ Hp0) as (q & Hq & Hon). rewrite Hp in Hq. injection Hq as <-.
  assert (Hin : AtStart path ∈ start) by (eapply list_elem_of_lookup_2, Hp0).
  destruct (on_track_step fs start k path _ _ _ _ Hin Hon Hs)
    as (Hon' & Hhold & He & Hl).
  unfold first_values. cbn [state tasks]. rewrite length_insert.
  refine (conj Hlen (conj _ (conj _ _))).
  - intros i path' Hi. destruct (decide (i = j)) as [->|Hne].
    + rewrite list_lookup_insert_eq by assumption.
      rewrite Hp0 in Hi. injection Hi as <-. eauto.
    + rewrite list_lookup_insert_ne by congruence.
      destruct (Htasks _ _ Hi) as (q & Hq & Hqon). exists q. split; [exact Hq |].
      apply (on_track_other fs start k path' (state s) sh q); try assumption.
      * now apply (load_step_keeps_mark _ _ _ _ _ _ k Hs).
      * now apply (load_step_keeps_errors _ _ _ _ _ _ Hs).
  - destruct He as [He|He]; [| now right].
    rewrite He. destruct Henv as [H|H]; [now left | right; auto].
  - intros H. destruct (Hl H) as [H'|H']; auto.
Qed.

(** X4. Several files, read by load.go at the same time: whenever [Bind]
    has not returned an error, under every schedule, a variable that
    some file names holds the value of the first line that names it in
    one of these files, and a variable that no file names is as it was
    before the call. *)
Theorem loads_set_first_values (sched : list nat) (w : world) (fields : list field)
    (rPath : list string) (b : bound) (k : string) :
  Bind Plain sched w (PointerToStruct fields) rPath = Some b ->
  (forall e, result b <> Failed e) ->
  (exists x, first_of_a_file (files w) (start_tasks w rPath) k x /\
             environment (after_world b) !! k = Some x) \/
  (environment (after_world b) !! k = environment w !! k /\
   forall x, ~ first_of_a_file (files w) (start_tasks w rPath) k x).
Proof.
  intros HB Hok. apply Bind_loads in HB as [Hfin ->].
  rewrite Bind_finish_environment.
  set (s := run Plain (files w) sched (start_system w rPath)) in *.
  pose proof (Bind_finish_failed w (PointerToStruct fields) (state s)) as Hf.
  destruct (last (buffer (Ce (state s)))) as [err|];
    [destruct Hf as [Hf _]; now apply Hok in Hf |].
  destruct Hf as [Hbuf _].
  assert (Hinv : first_values (files w) (start_tasks w rPath) k (environment w) s).
  { apply run_invariant.
    - intros j s'. apply first_values_step. apply start_tasks_at_start.
    - unfold first_values. cbn [start_system state tasks env loadedVars].
      refine (conj eq_refl (conj _ (conj (or_introl eq_refl) _))).
      + intros i path Hi. exists (AtStart path). split; [exact Hi | reflexivity].
      + discriminate. }
  destruct Hinv as (_ & Htasks & Henv & Hmark).
  destruct (is_loaded (loadedVars (state s)) k) eqn:Hl; [left; now apply Hmark |].
  destruct Henv as [Henv|Henv]; [right | now left].
  split; [exact Henv |].
  intros x (path & lines & serr & Hin & Hfile & Hx).
  apply list_elem_of_lookup in Hin as [i Hi].
  destruct (Htasks _ _ Hi) as (p & Hp & Hon).
  pose proof (all_finished_lookup _ _ _ Hfin Hp) as ->. cbn [on_track] in Hon.
  destruct Hon as [H|[H|(lines' & serr' & Hfile' & H)]];
    [contradiction | congruence |].
  rewrite Hfile in Hfile'. injection Hfile' as <- <-.
  rewrite H in Hl by eauto. discriminate.
Qed.

Lemma two_Bind : Bind Plain racing two_world port_config ["a"; "b"] = Some two_bound.
Proof. vm_compute. reflexivity. Qed.

Lemma loads_set_first_values_witness :
  (exists x, first_of_a_file two_files (start_tasks two_world ["a"; "b"]) "PORT" x /\
             environment (after_world two_bound) !! "PORT" = Some x) \/
  (environment (after_world two_bound) !! "PORT" = environment two_world !! "PORT" /\
   forall x, ~ first_of_a_file two_files (start_tasks two_world ["a"; "b"]) "PORT" x).
Proof.
  apply (loads_set_first_values racing two_world [int_field] ["a"; "b"] two_bound "PORT"
           two_Bind).
  intros e. discriminate.
Defined.

(** ** Expansion where there is nothing to expand *)

Lemma has_byte_cons (n : N) (c : ascii) (r : string) :
  has_byte n (String c r) = (code c =? n)%N || has_byte n r.
Proof. reflexivity. Qed.

Lemma re_needs_dollar (c : ascii) (r : string) :
  (code c =? 36)%N = false -> re (String c r) = None.
Proof.
  intros Hc. unfold re.
  destruct (Ascii.eqb_spec c "$"%char) as [->|Hne]; [discriminate Hc |].
  destruct c as [[] [] [] [] [] [] [] []]; try reflexivity. contradiction.
Qed.

Lemma expand_once_no_dollar (e : environ) (value : string) :
  no_dollar value = true -> expand_once e value = value.
Proof.
  unfold no_dollar. induction value as [|c r IH]; [reflexivity |].
  rewrite has_byte_cons, negb_orb. intros [Hc Hr]%andb_prop.
  apply negb_true_iff in Hc.
  rewrite expand_once_other by now apply re_needs_dollar.
  now rewrite IH.
Qed.

(** A replacement that gives back every match leaves the text as it
    is. *)
Lemma replace_from_same (rx : regexp) (repl : string -> string) (n : nat) :
  (forall m, repl m = m) ->
  forall s, len s <= n -> replace_from rx repl 0 s = s.
Proof.
  intros Hrepl. induction n as [|n IH]; intros [|c r] Hlen; try reflexivity;
    [cbn in Hlen; lia |].
  change (S (len r) <= S n) in Hlen. cbn [replace_from].
  assert (Hr : replace_from rx repl 0 r = r) by (apply IH; lia).
  destruct (rx (String c r)) as [[|m]|]; [now rewrite Hr | | now rewrite Hr].
  rewrite Hrepl, replace_from_inside, IH.
  - change (skip m r) with (skip (S m) (String c r)). apply take_skip.
  - pose proof (take_skip m r) as Hts. apply (f_equal len) in Hts.
    rewrite len_app in Hts. lia.
Qed.

Lemma expand_once_nothing_set (e : environ) (value : string) :
  (forall name, Getenv e name = "") -> expand_once e value = value.
Proof.
  intros He. unfold expand_once, ReplaceAllStringFunc.
  apply (replace_from_same re (replacer e) (len value)); [| lia].
  intros m. unfold replacer. rewrite He. reflexivity.
Qed.

(** X5. Expansion changes nothing where there is nothing to expand: a
    value without a dollar sign, and any value when no variable has a
    value that is not empty, is returned as it is after one round.  For
    such a value the version of [load] that expands goes on to commit
    the very pair that load.go commits. *)
Theorem expansion_of_plain_text (e : environ) (value : string) :
  no_dollar value = true \/ (forall name, Getenv e name = "") ->
  expand_once e value = value /\
  (forall fuel, expandVariables (S fuel) e value = Some (value, None)) /\
  (forall fs sh key c, env sh = e ->
     load_step Expanding fs sh (AtExpand key (expand_once e value) c)
       = Some (sh, AtCheck key value c)).
Proof.
  intros H.
  assert (Hfix : expand_once e value = value).
  { destruct H as [H|H];
      [now apply expand_once_no_dollar | now apply expand_once_nothing_set]. }
  refine (conj Hfix (conj _ _)).
  - intros fuel. unfold expandVariables. rewrite Hfix. cbn [expand_loop].
    rewrite Hfix. destruct (decide (value = value)); [reflexivity | contradiction].
  - intros fs sh key c <-. cbn [load_step]. rewrite !Hfix.
    destruct (decide (value = value)); [reflexivity | contradiction].
Qed.

Lemma expansion_of_plain_text_witness :
  expand_once env_A_B "postgres://db:5432/app" = "postgres://db:5432/app" /\
  (forall fuel, expandVariables (S fuel) env_A_B "postgres://db:5432/app"
                = Some ("postgres://db:5432/app", None)) /\
  (forall fs sh key c, env sh = env_A_B ->
     load_step Expanding fs sh
       (AtExpand key (expand_once env_A_B "postgres://db:5432/app") c)
       = Some (sh, AtCheck key "postgres://db:5432/app" c)).
Proof.
  apply (expansion_of_plain_text env_A_B "postgres://db:5432/app").
  left. reflexivity.
Defined.

(** X6. What [expandVariables] returns is stable: expanded again in the
    same environment it comes back as it is, after a single round. *)
Theorem expansion_is_stable (fuel : nat) (e : environ) (value r : string)
    (err : option error) :
  expandVariables fuel e value = Some (r, err) ->
  forall fuel', expandVariables (S fuel') e r = Some (r, None).
Proof.
  intros H fuel'. apply expandVariables_result in H as (_ & Hfix & _).
  unfold expandVariables. rewrite Hfix. cbn [expand_loop]. rewrite Hfix.
  destruct (decide (r = r)); [reflexivity | contradiction].
Qed.

Lemma expansion_is_stable_witness :
  expandVariables 1 env_A_B "x/y" = Some ("x/y", None).
Proof.
  apply (expansion_is_stable 1 env_A_B "${A}/${B}" "x/y" None eq_refl 0).
Defined.

(** ** Expansion comes to an end *)

Lemma dollars_app (a b : string) : dollars (a +:+ b) = dollars a + dollars b.
Proof.
  induction a as [|c a IH]; [reflexivity |].
  rewrite app_cons. cbn [dollars]. rewrite IH. lia.
Qed.

Lemma dollars_none (s : string) : no_dollar s = true -> dollars s = 0.
Proof.
  unfold no_dollar. induction s as [|c s IH]; [reflexivity |].
  rewrite has_byte_cons, negb_orb. intros [Hc Hs]%andb_prop.
  apply negb_true_iff in Hc. cbn [dollars]. rewrite Hc, IH by assumption. reflexivity.
Qed.

Lemma re_starts_with_dollar (s : string) (m : nat) :
  re s = Some m -> exists r, s = String "$" r.
Proof.
  destruct s as [|c r]; [discriminate |].
  destruct (N.eqb_spec (code c) 36) as [E|Hne].
  - intros _. exists r. f_equal.
    unfold code in E. apply (f_equal ascii_of_N) in E.
    now rewrite ascii_N_embedding in E.
  - intros H. rewrite re_needs_dollar in H; [discriminate | now apply N.eqb_neq].
Qed.

(** A round of replacement leaves the text as it is or takes a dollar
    sign away, when no value of a variable holds a dollar sign. *)
Lemma round_takes_dollars (e : environ) (n : nat) :
  (forall name, no_dollar (Getenv e name) = true) ->
  forall s, len s <= n ->
    replace_from re (replacer e) 0 s = s \/
    dollars (replace_from re (replacer e) 0 s) < dollars s.
Proof.
  intros He. induction n as [|n IH]; intros [|c r] Hlen; try (now left).
  change (S (len r) <= S n) in Hlen. cbn [replace_from].
  destruct (re (String c r)) as [[|m]|] eqn:Hre.
  - destruct (IH r ltac:(lia)) as [-> |H]; [now left | right].
    cbn [dollars]. lia.
  - rewrite replace_from_inside.
    assert (Hmt : 1 <= dollars (take (S m) (String c r))).
    { apply re_starts_with_dollar in Hre as [r' Hr']. injection Hr' as -> ->.
      cbn [take dollars]. change (code "$" =? 36)%N with true. cbv iota. lia. }
    assert (Hshort : len (skip (S m) (String c r)) <= n).
    { pose proof (take_skip m r) as H. apply (f_equal len) in H.
      rewrite len_app in H. cbn [skip]. lia. }
    pose proof (take_skip (S m) (String c r)) as Hts.
    change (skip m r) with (skip (S m) (String c r)).
    remember (take (S m) (String c r)) as mt eqn:Emt.
    remember (skip (S m) (String c r)) as rest' eqn:Erest.
    clear Emt Erest Hre. rewrite <- Hts, !dollars_app.
    assert (Hrep : replacer e mt = mt \/ dollars (replacer e mt) = 0).
    { unfold replacer. destruct (decide _); [now left | right].
      apply dollars_none, He. }
    destruct Hrep as [-> |Hrep].
    + destruct (IH rest' Hshort) as [-> |H]; [now left | right; lia].
    + right. rewrite Hrep. destruct (IH rest' Hshort) as [-> |H]; lia.
  - destruct (IH r ltac:(lia)) as [-> |H]; [now left | right].
    cbn [dollars]. lia.
Qed.

Lemma expand_loop_ends (e : environ) (fuel : nat) :
  (forall name, no_dollar (Getenv e name) = true) ->
  forall value, dollars value < fuel ->
    exists r, expand_loop fuel e value = Some r /\ dollars r <= dollars value.
Proof.
  intros He. induction fuel as [|fuel IH]; intros value Hfuel; [lia |].
  cbn [expand_loop].
  destruct (decide (expand_once e value = value)) as [_|Hne]; [eauto |].
  destruct (round_takes_dollars e (len value) He value (le_n _)) as [H|H];
    [contradiction |].
  fold (ReplaceAllStringFunc re value (replacer e)) in H. fold (expand_once e value) in H.
  destruct (IH (expand_once e value) ltac:(lia)) as (r & Hr & Hle).
  exists r. split; [exact Hr | lia].
Qed.

(** X7. When no variable has a value that holds a dollar sign,
    [expandVariables] returns for every value, after no more rounds than
    the value has dollar signs, and one: every round that changes the
    text takes a dollar sign away. *)
Theorem expansion_ends_without_dollars_in_values (e : environ) (value : string) :
  (forall name, no_dollar (Getenv e name) = true) ->
  exists r, expandVariables (S (dollars value)) e value = Some (r, None) /\
            dollars r <= dollars value /\ expand_once e r = r.
Proof.
  intros He. unfold expandVariables.
  assert (Hfirst : dollars (expand_once e value) <= dollars value).
  { destruct (round_takes_dollars e (len value) He value (le_n _)) as [H|H];
      fold (ReplaceAllStringFunc re value (replacer e)) in H;
      fold (expand_once e value) in H; [rewrite H |]; lia. }
  destruct (expand_loop_ends e (S (dollars value)) He (expand_once e value) ltac:(lia))
    as (r & Hr & Hle).
  exists r. rewrite Hr. refine (conj eq_refl (conj _ _)); [lia |].
  now apply expand_loop_rounds in Hr as [Hfix _].
Qed.

Lemma expansion_ends_without_dollars_in_values_witness :
  exists r, expandVariables (S (dollars "${A}/${B}")) env_A_B "${A}/${B}" = Some (r, None) /\
            dollars r <= dollars "${A}/${B}" /\ expand_once env_A_B r = r.
Proof.
  apply (expansion_ends_without_dollars_in_values env_A_B "${A}/${B}").
  intros name. unfold Getenv, env_A_B.
  destruct (decide (name = "")); [reflexivity |].
  destruct (decide (name = "A")) as [->|HA]; [reflexivity |].
  rewrite lookup_insert_ne by congruence.
  destruct (decide (name = "B")) as [->|HB]; [reflexivity |].
  rewrite lookup_insert_ne by congruence. reflexivity.
Defined.

(** ** The two versions of [load] on files without dollar signs *)

Lemma expanding_step (fs : filesystem) (sh sh' : shared) (p p' : pc) :
  dollar_free fs p = true ->
  load_step Expanding fs sh p = Some (sh', p') ->
  dollar_free fs p' = true /\
  (sh' = sh /\ as_plain p' = as_plain p \/
   load_step Plain fs sh (as_plain p) = Some (sh', as_plain p')).
Proof.
  destruct p as [path|c|key cur c|key value c|key value c|key c|e|];
    cbn [load_step dollar_free as_plain].
  - destruct (fs path) as [|cause|lines serr]; [discriminate | |];
      intros Hd [= <- <-]; auto.
  - destruct (rest c) as [|text r] eqn:Hr.
    + destruct (scan_err c); intros _ [= <- <-]; auto.
    + cbn [forallb]. intros [Ht Hrest]%andb_prop. unfold plain_line in Ht.
      destruct (parse_line text) as [[key value]|]; intros [= <- <-].
      * rewrite (expand_once_no_dollar _ _ Ht). cbn [dollar_free as_plain advance rest].
        rewrite Hr, Ht. auto.
      * cbn [dollar_free as_plain advance rest]. rewrite Hr. auto.
  - intros [Hc Hrest]%andb_prop. rewrite (expand_once_no_dollar _ _ Hc).
    destruct (decide (cur = cur)); [| contradiction]. intros [= <- <-]. auto.
  - intros Hd. destruct (is_loaded _ _); intros [= <- <-]; auto.
  - intros Hd. destruct (Setenv _ _ _); intros [= <- <-]; auto.
  - intros Hd [= <- <-]. auto.
  - intros _. destruct (_ <? _)%nat; [| discriminate]. intros [= <- <-]. auto.
  - discriminate.
Qed.

Lemma as_plain_not_expanding (p : pc) : expanding (as_plain p) = false.
Proof. now destruct p. Qed.

(** On such a file a step of the version that expands does not change
    what load.go would leave behind. *)
Lemma expanding_rest_step (fs : filesystem) (sh sh' : shared) (p p' : pc) :
  dollar_free fs p = true ->
  load_step Expanding fs sh p = Some (sh', p') ->
  dollar_free fs p' = true /\
  load_rest fs sh' (as_plain p') = load_rest fs sh (as_plain p).
Proof.
  intros Hd Hs. destruct (expanding_step fs sh sh' p p' Hd Hs) as [Hd' [[-> ->]|Hp]];
    [auto |].
  split; [exact Hd' |].
  now apply load_rest_step in Hp as [Hp _]; [| apply as_plain_not_expanding].
Qed.

Lemma expanding_single_run (fs : filesystem) (sched : list nat) (sh : shared) (p : pc) :
  dollar_free fs p = true ->
  all_finished (run Expanding fs sched {| state := sh; tasks := [p] |}) = true ->
  state (run Expanding fs sched {| state := sh; tasks := [p] |})
    = load_rest fs sh (as_plain p).
Proof.
  intros Hd Hfin.
  assert (Hinv : exists q, tasks (run Expanding fs sched {| state := sh; tasks := [p] |})
                             = [q] /\ dollar_free fs q = true /\
             load_rest fs (state (run Expanding fs sched {| state := sh; tasks := [p] |}))
               (as_plain q) = load_rest fs sh (as_plain p)).
  { apply (run_invariant Expanding fs
             (fun s => exists q, tasks s = [q] /\ dollar_free fs q = true /\
                load_rest fs (state s) (as_plain q) = load_rest fs sh (as_plain p))).
    - intros i s (q & Hq & Hqd & Hr).
      destruct (sys_step_cases Expanding fs i s) as [->|(p0 & sh1 & p1 & Hp & Hs & ->)];
        [eauto |].
      rewrite Hq in Hp |- *. destruct i as [|i]; [| discriminate].
      injection Hp as <-. apply expanding_rest_step in Hs as [Hs1 Hs2]; [| assumption].
      exists p1. cbn. split; [reflexivity | split; [assumption | congruence]].
    - exists p. auto. }
  destruct Hinv as (q & Hq & _ & Hr).
  unfold all_finished in Hfin. rewrite Hq in Hfin. cbn in Hfin.
  destruct q; try discriminate Hfin. exact Hr.
Qed.

(** On such a file a load of the version that expands, run alone with
    room in the channel, returns. *)
Lemma expanding_returns (fs : filesystem) (n : nat) :
  forall (sh : shared) (p : pc),
    dollar_free fs p = true -> steps_left_expanding fs p <= n ->
    length (buffer (Ce sh)) < capacity (Ce sh) ->
    exists sh', load_from Expanding fs (S n) sh p = Some sh'.
Proof.
  induction n as [|n IH]; intros sh p Hd Hn Hroom.
  - destruct p as [path|c|?|?|?|?|?|]; cbn in Hn; try lia; [| eexists; reflexivity].
    destruct (fs path); lia.
  - destruct (finished p) eqn:Hf.
    { destruct p; try discriminate Hf. eexists. reflexivity. }
    assert (Hstep : exists sh1 p1, load_step Expanding fs sh p = Some (sh1, p1) /\
              steps_left_expanding fs p1 < steps_left_expanding fs p /\
              (finished p1 = true \/
               length (buffer (Ce sh1)) < capacity (Ce sh1))).
    { destruct p as [path|c|key cur c|key value c|key value c|key c|e|];
        try discriminate Hf; cbn [load_step steps_left_expanding dollar_free] in *.
      - destruct (fs path) as [|cause|lines serr]; [discriminate | |];
          eexists _, _; (split; [reflexivity |]); cbn; split; (lia || auto).
      - destruct c as [path [|text lines] serr]; cbn.
        + destruct serr; eexists _, _; (split; [reflexivity |]); cbn; split; (lia || auto).
        + destruct (parse_line text) as [[key value]|]; eexists _, _;
            (split; [reflexivity |]); cbn; split; (lia || auto).
      - apply andb_prop in Hd as [Hc _]. rewrite (expand_once_no_dollar _ _ Hc).
        destruct (decide (cur = cur)); [| contradiction].
        eexists _, _; (split; [reflexivity |]); cbn; split; (lia || auto).
      - destruct (is_loaded _ _); eexists _, _; (split; [reflexivity |]);
          cbn; split; (lia || auto).
      - destruct (Setenv _ _ _); eexists _, _; (split; [reflexivity |]);
          cbn; split; (lia || auto).
      - eexists _, _; (split; [reflexivity |]); cbn; split; (lia || auto).
      - apply Nat.ltb_lt in Hroom. rewrite Hroom.
        eexists _, _; (split; [reflexivity |]); cbn; split; (lia || auto). }
    destruct Hstep as (sh1 & p1 & Hs & Hless & Hroom1).
    destruct (expanding_step fs sh sh1 p p1 Hd Hs) as [Hd1 _].
    cbn [load_from]. rewrite Hs.
    destruct Hroom1 as [Hfin|Hroom1].
    + destruct p1; try discriminate Hfin. exists sh1. now destruct p.
    + destruct (IH sh1 p1 Hd1 ltac:(lia) Hroom1) as [sh' Hsh'].
      exists sh'. destruct p; try discriminate Hf; exact Hsh'.
Qed.

(** X8. On a file that is there and holds no dollar sign in its values,
    the version of [load] that expands does what load.go does: with one
    file to load, whatever [Bind] leaves behind with the one version,
    under any schedule, it leaves behind with the other, and with the
    version that expands [Bind] does come to its end. *)
Theorem expanding_agrees_on_plain_files (w : world) (fields : list field)
    (rPath : list string) (path : string) (lines : list string) (serr : option string) :
  start_tasks w rPath = [AtStart path] ->
  files w path = Readable lines serr ->
  forallb plain_line lines = true ->
  (forall sched sched' b b',
     Bind Expanding sched w (PointerToStruct fields) rPath = Some b ->
     Bind Plain sched' w (PointerToStruct fields) rPath = Some b' -> b = b') /\
  (exists sched b, Bind Expanding sched w (PointerToStruct fields) rPath = Some b).
Proof.
  intros Hone Hfile Hlines.
  pose proof Hone as [Hsys _]%start_system_one.
  assert (Hd : dollar_free (files w) (AtStart path) = true).
  { cbn [dollar_free]. now rewrite Hfile. }
  split.
  - intros sched sched' b b' HB HB'.
    rewrite (Bind_one_load _ _ _ _ _ _ Hone HB').
    apply Bind_loads in HB as [Hfin ->]. rewrite Hsys in Hfin |- *.
    now rewrite expanding_single_run.
  - destruct (expanding_returns (files w) (steps_left_expanding (files w) (AtStart path))
                (start_state w) (AtStart path) Hd (le_n _)) as [sh' Hsh'];
      [cbn; lia |].
    apply load_alone in Hsh' as [n Hn]. exists (repeat 0 n).
    unfold Bind. cbn [TypeOf_Kind Elem_Kind].
    destruct (decide (Pointer = Pointer)); [| contradiction].
    rewrite !bool_decide_eq_true_2 by reflexivity. cbn [negb orb].
    rewrite Hsys, Hn. cbn. eauto.
Qed.

Lemma expanding_agrees_on_plain_files_witness :
  (forall sched sched' b b',
     Bind Expanding sched test_world Cfg [] = Some b ->
     Bind Plain sched' test_world Cfg [] = Some b' -> b = b') /\
  (exists sched b, Bind Expanding sched test_world Cfg [] = Some b).
Proof.
  apply (expanding_agrees_on_plain_files test_world _ [] "/app/.env"
           ["# database"; "POSTGRES_URL = postgres://db:5432/app?sslmode=disable"] None);
    reflexivity.
Defined.

(** ** Loads that return, in either version *)

Section Settling.

Variable v : variant.
Variable fs : filesystem.

(** A tame load that has not returned takes a step, unless it waits on
    a full channel, and the step brings it closer to its return. *)
Lemma tame_progress (sh : shared) (p : pc) :
  finished p = false -> tame v fs p = true ->
  length (buffer (Ce sh)) < capacity (Ce sh) ->
  exists sh' p', load_step v fs sh p = Some (sh', p') /\
    steps_left_expanding fs p' < steps_left_expanding fs p /\
    tame v fs p' = true /\
    capacity (Ce sh') = capacity (Ce sh) /\
    match p with
    | AtSend _ => finished p' = true /\
                  length (buffer (Ce sh')) = S (length (buffer (Ce sh)))
    | _ => length (buffer (Ce sh')) = length (buffer (Ce sh))
    end.
Proof.
  intros Hf Ht Hroom.
  destruct p as [path|c|key cur c|key value c|key value c|key c|e|];
    try discriminate; cbn [load_step steps_left_expanding tame] in *.
  - destruct (fs path) as [| cause | lines serr]; [destruct v | |]; eexists _, _;
      (split; [reflexivity |]); cbn; repeat split; (lia || assumption).
  - destruct c as [path [|text lines] serr]; cbn in *.
    + destruct serr; eexists _, _; (split; [reflexivity |]); cbn; repeat split; lia.
    + assert (Hrest : ahead v lines = true).
      { destruct v; [reflexivity |]. cbn in Ht. now apply andb_prop in Ht as [_ Ht]. }
      destruct (parse_line text) as [[key value]|] eqn:Hparse.
      * destruct v.
        -- eexists _, _; (split; [reflexivity |]); cbn; repeat split; lia.
        -- assert (Hv : no_dollar value = true).
           { cbn in Ht. apply andb_prop in Ht as [Ht _].
             unfold plain_line in Ht. now rewrite Hparse in Ht. }
           rewrite (expand_once_no_dollar _ _ Hv).
           eexists _, _; (split; [reflexivity |]); cbn.
           rewrite Hv. repeat split; (lia || assumption).
      * eexists _, _; (split; [reflexivity |]); cbn; repeat split; (lia || assumption).
  - apply andb_prop in Ht as [Hc Hrest]. rewrite (expand_once_no_dollar _ _ Hc).
    destruct (decide (cur = cur)); [| contradiction].
    eexists _, _; (split; [reflexivity |]); cbn; repeat split; (lia || assumption).
  - destruct (is_loaded _ _); eexists _, _; (split; [reflexivity |]);
      cbn; repeat split; (lia || assumption).
  - destruct (Setenv _ _ _); eexists _, _; (split; [reflexivity |]);
      cbn; repeat split; (lia || assumption).
  - eexists _, _; (split; [reflexivity |]); cbn; repeat split; (lia || assumption).
  - apply Nat.ltb_lt in Hroom. rewrite Hroom. eexists _, _; (split; [reflexivity |]).
    cbn. rewrite length_app. cbn. repeat split; lia.
Qed.

Lemma settling_step (j : nat) (s : system) :
  settling v fs s ->
  settling v fs (sys_step v fs j s) /\
  length (tasks (sys_step v fs j s)) = length (tasks s).
Proof.
  intros (Hlen & Hbuf & Htame).
  destruct (sys_step_cases v fs j s) as [->|(p & sh & p' & Hp & Hs & ->)];
    [unfold settling; auto |].
  pose proof (count_finished_insert _ _ _ p' Hp) as Hins.
  assert (Hpt : tame v fs p = true).
  { rewrite Forall_forall in Htame. apply Htame. eapply list_elem_of_lookup_2, Hp. }
  destruct (finished p) eqn:Hpf.
  { destruct p; try discriminate Hpf. discriminate Hs. }
  assert (Hroom : length (buffer (Ce (state s))) < capacity (Ce (state s))).
  { pose proof (count_finished_unfinished _ _ _ Hp Hpf). lia. }
  destruct (tame_progress (state s) p Hpf Hpt Hroom)
    as (sh1 & p1 & Hs1 & _ & Hp1 & Hcap & Hb).
  rewrite Hs in Hs1. injection Hs1 as <- <-.
  unfold settling. cbn. rewrite length_insert. unfold count_finished in *.
  split; [split; [lia | split] | reflexivity].
  - destruct p; destruct (finished p'); lia.
  - now apply Forall_insert.
Qed.

(** The task [i] is run until it has returned. *)
Lemma settling_finish_task (n : nat) :
  forall (s : system) (i : nat) (p : pc),
    settling v fs s -> tasks s !! i = Some p -> steps_left_expanding fs p <= n ->
    exists k, settling v fs (run v fs (repeat i k) s) /\
      tasks (run v fs (repeat i k) s) !! i = Some Finished /\
      length (tasks (run v fs (repeat i k) s)) = length (tasks s).
Proof.
  induction n as [|n IH]; intros s i p Hs Hp Hn.
  - assert (Hf : p = Finished).
    { destruct p as [path|c|?|?|?|?|?|]; cbn in Hn; try lia; try reflexivity.
      destruct (fs path); lia. }
    subst p. exists 0. cbn. auto.
  - destruct (finished p) eqn:Hpf.
    { destruct p; try discriminate Hpf. exists 0. cbn. auto. }
    pose proof Hs as (Hlen & Hbuf & Htame).
    assert (Hpt : tame v fs p = true).
    { rewrite Forall_forall in Htame. apply Htame. eapply list_elem_of_lookup_2, Hp. }
    assert (Hroom : length (buffer (Ce (state s))) < capacity (Ce (state s))).
    { pose proof (count_finished_unfinished _ _ _ Hp Hpf). lia. }
    destruct (tame_progress (state s) p Hpf Hpt Hroom)
      as (sh1 & p1 & Hs1 & Hless & _).
    destruct (settling_step i s Hs) as (Hr1 & Hlen1).
    assert (Hp1 : tasks (sys_step v fs i s) !! i = Some p1).
    { unfold sys_step. rewrite Hp, Hs1. cbn.
      apply list_lookup_insert_eq. eapply lookup_lt_Some, Hp. }
    destruct (IH (sys_step v fs i s) i p1 Hr1 Hp1 ltac:(lia))
      as (k & Hr & Hfin & Hlenk).
    exists (S k). cbn [repeat]. unfold run in *. cbn [fold_left].
    repeat split; try apply Hr; try assumption; lia.
Qed.

(** Some schedule brings the first [k] loads to their return. *)
Lemma settling_finish_first (k : nat) (s : system) :
  settling v fs s ->
  exists sched, settling v fs (run v fs sched s) /\
    length (tasks (run v fs sched s)) = length (tasks s) /\
    forall i, i < k -> i < length (tasks s) ->
      tasks (run v fs sched s) !! i = Some Finished.
Proof.
  intros Hs. induction k as [|k (sched & Hr & Hlen & Hfin)].
  - exists []. cbn. repeat split; [apply Hs | apply Hs | apply Hs | lia].
  - destruct (tasks (run v fs sched s) !! k) as [p|] eqn:Hp.
    + destruct (settling_finish_task (steps_left_expanding fs p) _ k p Hr Hp (le_n _))
        as (n & Hr' & Hk & Hlen').
      exists (sched ++ repeat k n)%list. rewrite run_app.
      split; [exact Hr' | split; [congruence |]].
      intros i Hi Hil. destruct (decide (i = k)) as [->|Hne]; [exact Hk |].
      apply run_finished_stays, Hfin; lia.
    + exists sched. split; [exact Hr | split; [exact Hlen |]].
      intros i Hi Hil. apply lookup_ge_None in Hp.
      apply Hfin; lia.
Qed.

(** From every such state some schedule brings every load to its
    return. *)
Lemma settling_finish_all (s : system) :
  settling v fs s -> exists sched, all_finished (run v fs sched s) = true.
Proof.
  intros Hs.
  destruct (settling_finish_first (length (tasks s)) s Hs) as (sched & _ & Hlen & Hfin).
  exists sched. unfold all_finished. apply forallb_forall. intros p Hp.
  apply list_elem_of_In, list_elem_of_lookup in Hp as [i Hi].
  pose proof (lookup_lt_Some _ _ _ Hi) as Hlt.
  rewrite Hfin in Hi by lia. now injection Hi as <-.
Qed.

End Settling.

Lemma start_system_settling (v : variant) (w : world) (rPath : list string) :
  tame_call v w rPath -> settling v (files w) (start_system w rPath).
Proof.
  intros [Hlen Hfiles]. unfold settling. cbn. split; [| split; [lia |]].
  - unfold start_tasks. destruct rPath; [cbn; lia | now rewrite length_map].
  - apply Forall_forall. intros p Hp.
    pose proof Hp as [i Hi]%list_elem_of_lookup.
    apply start_tasks_at_start in Hi as [path ->]. cbn [tame].
    destruct (files w path) as [| cause | lines serr] eqn:Hfile; try reflexivity.
    destruct v; [reflexivity |]. cbn [ahead]. now apply (Hfiles eq_refl path lines serr).
Qed.

(** When every load has returned, [Bind] goes on to its end. *)
Lemma Bind_of_finished (v : variant) (sched : list nat) (w : world)
    (fields : list field) (rPath : list string) :
  all_finished (run v (files w) sched (start_system w rPath)) = true ->
  Bind v sched w (PointerToStruct fields) rPath =
    Some (Bind_finish w (PointerToStruct fields)
            (state (run v (files w) sched (start_system w rPath)))).
Proof. intros H. unfold Bind. cbn. now rewrite H. Qed.

(** A tame call comes to its end: every schedule can be continued so
    that all loads return and [Bind] returns or panics. *)
Lemma tame_call_ends (v : variant) (sched0 : list nat) (w : world)
    (fields : list field) (rPath : list string) :
  tame_call v w rPath ->
  exists sched1 b,
    Bind v (sched0 ++ sched1) w (PointerToStruct fields) rPath = Some b.
Proof.
  intros Hcall.
  assert (Hr : settling v (files w) (run v (files w) sched0 (start_system w rPath))).
  { apply run_invariant; [| now apply start_system_settling].
    intros j s Hs. now apply settling_step. }
  destruct (settling_finish_all v (files w) _ Hr) as [sched1 Hfin].
  exists sched1. eexists. apply Bind_of_finished. now rewrite run_app.
Qed.

(** ** Files that are missing, cannot be opened or cannot be read *)

Lemma reports_step (v : variant) (fs : filesystem) (i j : nat) (path : string)
    (err : error) (s : system) :
  open_error v fs path = Some err ->
  reports i path err s -> reports i path err (sys_step v fs j s).
Proof.
  intros Hopen Hr.
  destruct (sys_step_cases v fs j s) as [->|(p & sh & p' & Hp & Hs & ->)]; [exact Hr |].
  pose proof (lookup_lt_Some _ _ _ Hp) as Hlt.
  pose proof (load_step_sends _ _ _ _ _ _ Hs) as [_ Hb].
  unfold reports. cbn. destruct (decide (i = j)) as [->|Hne].
  - rewrite list_lookup_insert_eq by assumption.
    destruct Hr as [Hi|[Hi|[Hi _]]]; rewrite Hi in Hp; injection Hp as <-.
    + right; left. revert Hs Hopen. unfold open_error. cbn [load_step].
      destruct (fs path); [destruct v | |]; intros [= <- <-]; try discriminate;
        intros [= <-]; reflexivity.
    + right; right. cbn [load_step] in Hs.
      destruct (_ <? _)%nat; [| discriminate]. injection Hs as <- <-.
      split; [reflexivity |]. cbn. apply elem_of_app. right. constructor.
    + discriminate Hs.
  - rewrite list_lookup_insert_ne by congruence.
    destruct Hr as [Hi|[Hi|[Hi Hin]]]; auto.
    right; right. split; [exact Hi |].
    destruct Hb as [-> |(e & _ & _ & ->)]; [exact Hin |].
    apply elem_of_app. now left.
Qed.

(** X9. A file that cannot be opened, and in the version that expands
    also a file that is missing, makes [Bind] fail.  Whenever [Bind]
    returns, whatever the other files hold and under whatever schedule,
    it returns an error, the struct is not touched, and the error of
    that file is written to the log.  With at most ten paths (and, for
    the version that expands, no dollar sign in the values of the files)
    every schedule can be continued so that [Bind] returns in this way;
    with more paths the loads may wait on the full channel for ever. *)
Theorem Bind_fails_on_unopened_file (v : variant) (w : world)
    (fields : list field) (rPath : list string) (path : string) (err : error) :
  AtStart path ∈ start_tasks w rPath ->
  open_error v (files w) path = Some err ->
  (forall sched b, Bind v sched w (PointerToStruct fields) rPath = Some b ->
     (exists e, result b = Failed e) /\
     after_target b = PointerToStruct fields /\
     LogError err ∈ log_lines (after_world b)) /\
  (tame_call v w rPath ->
   forall sched0, exists sched1 b,
     Bind v (sched0 ++ sched1) w (PointerToStruct fields) rPath = Some b /\
     (exists e, result b = Failed e) /\
     after_target b = PointerToStruct fields /\
     LogError err ∈ log_lines (after_world b)).
Proof.
  intros Hin Hopen.
  assert (Hall : forall sched b,
            Bind v sched w (PointerToStruct fields) rPath = Some b ->
            (exists e, result b = Failed e) /\
            after_target b = PointerToStruct fields /\
            LogError err ∈ log_lines (after_world b)).
  { intros sched b HB. apply Bind_loads in HB as [Hfin ->].
    apply list_elem_of_lookup in Hin as [i Hi].
    set (s := run v (files w) sched (start_system w rPath)) in *.
    assert (Hr : reports i path err s).
    { apply run_invariant; [| now left].
      intros j s'. now apply reports_step. }
    destruct Hr as [Hr|[Hr|[_ Hr]]];
      [apply (all_finished_lookup _ _ _ Hfin) in Hr; discriminate
      |apply (all_finished_lookup _ _ _ Hfin) in Hr; discriminate |].
    unfold Bind_finish. destruct (last (buffer (Ce (state s)))) as [e|] eqn:Hl.
    - cbn. split; [eauto | split; [reflexivity |]].
      apply elem_of_app. right. apply list_elem_of_fmap. eauto.
    - apply last_None in Hl. rewrite Hl in Hr. now apply elem_of_nil in Hr. }
  split; [exact Hall |].
  intros Hcall sched0.
  destruct (tame_call_ends v sched0 w fields rPath Hcall) as (sched1 & b & HB).
  exists sched1, b. split; [exact HB | now apply (Hall _ _ HB)].
Qed.

Lemma mixed_Bind :
  Bind Plain [1; 0; 1; 0; 0; 0; 0; 0; 0; 0; 0; 0; 0] mixed_world port_config ["a"; "b"]
    = Some mixed_bound.
Proof. vm_compute. reflexivity. Qed.

Lemma Bind_fails_on_unopened_file_witness :
  ((exists e, result mixed_bound = Failed e) /\
   after_target mixed_bound = PointerToStruct [int_field] /\
   LogError (ErrOpening "b/.env" "permission denied") ∈ log_lines (after_world mixed_bound)) /\
  (forall sched0, exists sched1 b,
     Bind Plain (sched0 ++ sched1) mixed_world (PointerToStruct [int_field]) ["a"; "b"]
       = Some b /\
     (exists e, result b = Failed e) /\
     after_target b = PointerToStruct [int_field] /\
     LogError (ErrOpening "b/.env" "permission denied") ∈ log_lines (after_world b)).
Proof.
  assert (Hin : AtStart "b/.env" ∈ start_tasks mixed_world ["a"; "b"]).
  { apply elem_of_cons. right. constructor. }
  pose proof (Bind_fails_on_unopened_file Plain mixed_world [int_field] ["a"; "b"] "b/.env"
                (ErrOpening "b/.env" "permission denied") Hin eq_refl) as [H1 H2].
  split.
  - exact (H1 [1; 0; 1; 0; 0; 0; 0; 0; 0; 0; 0; 0; 0] mixed_bound mixed_Bind).
  - apply H2. split; [cbn; lia | discriminate].
Defined.

Lemma load_errors_only_step (v : variant) (fs : filesystem) (j : nat) (s : system) :
  load_errors_only s -> load_errors_only (sys_step v fs j s).
Proof.
  intros [Hbuf Hsend].
  destruct (sys_step_cases v fs j s) as [->|(p & sh & p' & Hp & Hs & ->)];
    [split; assumption |].
  pose proof (lookup_lt_Some _ _ _ Hp) as Hlt.
  apply load_step_sends in Hs as [Hnew Hb]. split; cbn.
  - destruct Hb as [-> |(e & -> & _ & ->)]; [exact Hbuf |].
    apply Forall_app. split; [exact Hbuf |]. constructor; [| constructor].
    now apply (Hsend j).
  - intros i e. destruct (decide (i = j)) as [->|Hne].
    + rewrite list_lookup_insert_eq by assumption. intros [= ->]. now apply Hnew.
    + rewrite list_lookup_insert_ne by congruence. apply Hsend.
Qed.

Lemma start_load_errors_only (w : world) (rPath : list string) :
  load_errors_only (start_system w rPath).
Proof.
  split; [constructor |]. intros i e Hi.
  apply start_tasks_at_start in Hi as [path Hp]. discriminate.
Qed.

Lemma failing_read_step (v : variant) (fs : filesystem) (cause path : string)
    (lines : list string) (sh sh' : shared) (p p' : pc) :
  fs path = Readable lines (Some cause) ->
  failing_read cause path sh p ->
  load_step v fs sh p = Some (sh', p') ->
  failing_read cause path sh' p'.
Proof.
  intros Hfile.
  destruct p as [path'|c|key cur c|key value c|key value c|key c|e|];
    cbn [load_step failing_read].
  - intros ->. rewrite Hfile. intros [= <- <-]. reflexivity.
  - intros Hc. destruct (rest c) as [|text r].
    + rewrite Hc. intros [= <- <-]. exact I.
    + destruct (parse_line text) as [[key value]|]; [destruct v |];
        intros [= <- <-]; exact Hc.
  - intros Hc. destruct (decide _); intros [= <- <-]; exact Hc.
  - intros Hc. destruct (is_loaded _ _); intros [= <- <-]; exact Hc.
  - intros Hc. destruct (Setenv _ _ _); intros [= <- <-]; [exact Hc | exact I].
  - intros Hc [= <- <-]. exact Hc.
  - intros _. destruct (_ <? _)%nat; [| discriminate]. intros [= <- <-].
    cbn. now destruct (buffer (Ce sh)).
  - discriminate.
Qed.

Lemma failing_read_other (v : variant) (fs : filesystem) (cause path : string)
    (sh sh' : shared) (p q q' : pc) :
  load_step v fs sh q = Some (sh', q') ->
  failing_read cause path sh p -> failing_read cause path sh' p.
Proof.
  intros Hs. destruct p; cbn [failing_read]; try tauto.
  now apply (load_step_keeps_errors _ _ _ _ _ _ Hs).
Qed.

(** X10. A file whose reading fails (the scanner reports an error) makes
    [Bind] fail, with either version of [load].  Whenever [Bind]
    returns, whatever the other files hold and under whatever schedule,
    it returns an error of a load and the struct is not touched; the
    lines read before may have been applied to the environment.  With
    at most ten paths (and, for the version that expands, no dollar sign
    in the values of the files) every schedule can be continued so that
    [Bind] returns in this way; with more paths the loads may wait on
    the full channel for ever. *)
Theorem Bind_fails_on_read_error (v : variant) (w : world)
    (fields : list field) (rPath : list string) (path : string)
    (lines : list string) (cause : string) :
  AtStart path ∈ start_tasks w rPath ->
  files w path = Readable lines (Some cause) ->
  (forall sched b, Bind v sched w (PointerToStruct fields) rPath = Some b ->
     (exists e, result b = Failed e /\ load_error e) /\
     after_target b = PointerToStruct fields) /\
  (tame_call v w rPath ->
   forall sched0, exists sched1 b,
     Bind v (sched0 ++ sched1) w (PointerToStruct fields) rPath = Some b /\
     (exists e, result b = Failed e /\ load_error e) /\
     after_target b = PointerToStruct fields).
Proof.
  intros Hin Hfile.
  assert (Hall : forall sched b,
            Bind v sched w (PointerToStruct fields) rPath = Some b ->
            (exists e, result b = Failed e /\ load_error e) /\
            after_target b = PointerToStruct fields).
  { intros sched b HB. apply Bind_loads in HB as [Hfin ->].
    apply list_elem_of_lookup in Hin as [i Hi].
    set (s := run v (files w) sched (start_system w rPath)) in *.
    assert (Hinv : (exists p, tasks s !! i = Some p /\
                              failing_read cause path (state s) p) /\
                   load_errors_only s).
    { apply (run_invariant v (files w)
               (fun s => (exists p, tasks s !! i = Some p /\
                                    failing_read cause path (state s) p) /\
                         load_errors_only s)).
      - intros j s' [(p & Hp & Hf) Herr].
        split; [| now apply load_errors_only_step].
        destruct (sys_step_cases v (files w) j s')
          as [->|(q & sh & q' & Hq & Hs & ->)]; [eauto |].
        pose proof (lookup_lt_Some _ _ _ Hq) as Hlt. cbn [state tasks].
        destruct (decide (i = j)) as [->|Hne].
        + rewrite list_lookup_insert_eq by assumption.
          rewrite Hp in Hq. injection Hq as <-.
          exists q'. split; [reflexivity |].
          now apply (failing_read_step v (files w) cause path lines (state s') sh p q').
        + rewrite list_lookup_insert_ne by congruence.
          exists p. split; [exact Hp |].
          now apply (failing_read_other v (files w) cause path (state s') sh p q q').
      - split; [| apply start_load_errors_only].
        exists (AtStart path). split; [exact Hi | reflexivity]. }
    destruct Hinv as [(p & Hp & Hf) [Hbuf _]].
    pose proof (all_finished_lookup _ _ _ Hfin Hp) as ->. cbn [failing_read] in Hf.
    unfold Bind_finish. destruct (last (buffer (Ce (state s)))) as [e|] eqn:Hl.
    - cbn. split; [| reflexivity]. exists e. split; [reflexivity |].
      rewrite Forall_forall in Hbuf. apply Hbuf.
      apply last_Some in Hl as [l' ->]. apply elem_of_app. right. constructor.
    - apply last_None in Hl. contradiction. }
  split; [exact Hall |].
  intros Hcall sched0.
  destruct (tame_call_ends v sched0 w fields rPath Hcall) as (sched1 & b & HB).
  exists sched1, b. split; [exact HB | now apply (Hall _ _ HB)].
Qed.

Lemma torn_Bind : Bind Expanding (repeat 0 12) torn_world port_config [] = Some torn_bound.
Proof. vm_compute. reflexivity. Qed.

Lemma Bind_fails_on_read_error_witness :
  ((exists e, result torn_bound = Failed e /\ load_error e) /\
   after_target torn_bound = PointerToStruct [int_field]) /\
  (forall sched0, exists sched1 b,
     Bind Expanding (sched0 ++ sched1) torn_world (PointerToStruct [int_field]) []
       = Some b /\
     (exists e, result b = Failed e /\ load_error e) /\
     after_target b = PointerToStruct [int_field]).
Proof.
  assert (Hin : AtStart "/app/.env" ∈ start_tasks torn_world []) by constructor.
  pose proof (Bind_fails_on_read_error Expanding torn_world [int_field] []
                "/app/.env" ["PORT=8080"] "unexpected EOF" Hin eq_refl) as [H1 H2].
  split.
  - exact (H1 (repeat 0 12) torn_bound torn_Bind).
  - apply H2. split; [cbn; lia |].
    intros _ path lines serr _ [= <- _]. reflexivity.
Defined.

Lemma only_warned_step (fs : filesystem) (start : system) (j : nat) (s : system) :
  (forall i p, tasks start !! i = Some p ->
     exists path, p = AtStart path /\ fs path = Missing) ->
  length (tasks s) = length (tasks start) ->
  only_warned start s ->
  only_warned start (sys_step Plain fs j s) /\
  length (tasks (sys_step Plain fs j s)) = length (tasks start).
Proof.
  intros Hstart Hlen (He & Hb & Hlog & Ht).
  destruct (sys_step_cases Plain fs j s) as [->|(p & sh & p' & Hp & Hs & ->)];
    [split; [repeat split |]; assumption |].
  pose proof (lookup_lt_Some _ _ _ Hp) as Hlt.
  destruct (tasks start !! j) as [p0|] eqn:Hp0;
    [| apply lookup_ge_None in Hp0; lia].
  destruct (Hstart _ _ Hp0) as (path & -> & Hmiss).
  cbn. rewrite length_insert. split; [| exact Hlen].
  destruct (Ht _ _ Hp0) as [Hj|[Hj _]]; rewrite Hj in Hp; injection Hp as <-;
    [| discriminate Hs].
  cbn [load_step] in Hs. rewrite Hmiss in Hs. injection Hs as <- <-.
  unfold only_warned. cbn. refine (conj He (conj Hb (conj _ _))).
  - intros l Hl. apply elem_of_app. left. now apply Hlog.
  - intros i path' Hi. destruct (decide (i = j)) as [->|Hne].
    + rewrite list_lookup_insert_eq by assumption. right.
      rewrite Hp0 in Hi. injection Hi as <-.
      split; [reflexivity |]. apply elem_of_app. right. constructor.
    + rewrite list_lookup_insert_ne by congruence.
      destruct (Ht _ _ Hi) as [H|[H Hin]]; [now left | right].
      split; [exact H |]. apply elem_of_app. now left.
Qed.

(** X11. With load.go, when none of the files is there, [Bind] binds the
    struct from the environment as it is: under every schedule the
    environment is left as it was, no error is returned, the fields are
    what the loop over the fields makes of them in that environment, and
    the log holds a warning for every file. *)
Theorem Bind_without_files (sched : list nat) (w : world) (fields : list field)
    (rPath : list string) (b : bound) :
  (forall path, AtStart path ∈ start_tasks w rPath -> files w path = Missing) ->
  Bind Plain sched w (PointerToStruct fields) rPath = Some b ->
  environment (after_world b) = environment w /\
  result b = match (bind_fields (environment w) fields).2 with
             | Some msg => Panicked msg
             | None => Returned tt
             end /\
  after_target b = PointerToStruct (bind_fields (environment w) fields).1.1 /\
  forall path, AtStart path ∈ start_tasks w rPath ->
    WarnFileNotFound path ∈ log_lines (after_world b).
Proof.
  intros Hmiss HB. apply Bind_loads in HB as [Hfin ->].
  set (s := run Plain (files w) sched (start_system w rPath)) in *.
  assert (Hstart : forall i p, tasks (start_system w rPath) !! i = Some p ->
            exists path, p = AtStart path /\ files w path = Missing).
  { intros i p Hi. destruct (start_tasks_at_start _ _ _ _ Hi) as [path ->].
    exists path. split; [reflexivity |]. apply Hmiss.
    eapply list_elem_of_lookup_2, Hi. }
  assert (Hinv : only_warned (start_system w rPath) s /\
                 length (tasks s) = length (tasks (start_system w rPath))).
  { apply (run_invariant Plain (files w)
             (fun s => only_warned (start_system w rPath) s /\
                       length (tasks s) = length (tasks (start_system w rPath)))).
    - intros j s' [Hs' Hlen]. now apply only_warned_step.
    - split; [| reflexivity]. unfold only_warned. auto. }
  destruct Hinv as [(He & Hb & Hlog & Ht) _]. cbn in He, Hb.
  rewrite Bind_finish_environment. unfold Bind_finish. rewrite Hb, He.
  cbn [last Elem_fields].
  destruct (bind_fields (environment w) fields) as [[done l] p].
  cbn. refine (conj eq_refl (conj eq_refl (conj eq_refl _))).
  intros path Hin. apply list_elem_of_lookup in Hin as [i Hi].
  apply elem_of_app. left.
  destruct (Ht _ _ Hi) as [H|[_ H]]; [| exact H].
  apply (all_finished_lookup _ _ _ Hfin) in H. discriminate.
Qed.

Lemma bare_Bind : Bind Plain [0] bare_world port_config [] = Some bare_bound.
Proof. vm_compute. reflexivity. Qed.

Lemma Bind_without_files_witness :
  environment (after_world bare_bound) = environment bare_world /\
  result bare_bound = Returned tt /\
  after_target bare_bound = PointerToStruct [set_value (VInt 80) int_field] /\
  forall path, AtStart path ∈ start_tasks bare_world [] ->
    WarnFileNotFound path ∈ log_lines (after_world bare_bound).
Proof.
  apply (Bind_without_files [0] bare_world [int_field] [] bare_bound).
  - reflexivity.
  - exact bare_Bind.
Defined.

(** ** Room in the error channel *)

Lemma load_step_capacity (v : variant) (fs : filesystem) (sh sh' : shared) (p p' : pc) :
  load_step v fs sh p = Some (sh', p') -> capacity (Ce sh') = capacity (Ce sh).
Proof.
  destruct p as [path|c|key cur c|key value c|key value c|key c|e|]; cbn [load_step].
  - destruct (fs path); [destruct v | |]; intros [= <- <-]; reflexivity.
  - destruct (rest c) as [|text ?].
    + destruct (scan_err c); intros [= <- <-]; reflexivity.
    + destruct (parse_line text) as [[key value]|]; [destruct v |];
        intros [= <- <-]; reflexivity.
  - destruct (decide _); intros [= <- <-]; reflexivity.
  - destruct (is_loaded _ _); intros [= <- <-]; reflexivity.
  - destruct (Setenv _ _ _); intros [= <- <-]; reflexivity.
  - intros [= <- <-]. reflexivity.
  - destruct (_ <? _)%nat; [| discriminate]. intros [= <- <-]. reflexivity.
  - discriminate.
Qed.

Lemma one_error_each_step (v : variant) (fs : filesystem) (n j : nat) (s : system) :
  one_error_each n s -> one_error_each n (sys_step v fs j s).
Proof.
  intros (Hlen & Hcap & Hbuf).
  destruct (sys_step_cases v fs j s) as [->|(p & sh & p' & Hp & Hs & ->)];
    [repeat split; assumption |].
  pose proof (count_finished_insert _ _ _ p' Hp) as Hins.
  pose proof (load_step_capacity _ _ _ _ _ _ Hs) as Hc.
  pose proof (load_step_sends _ _ _ _ _ _ Hs) as [_ Hb].
  assert (Hpf : finished p = false) by (destruct p; try reflexivity; discriminate Hs).
  rewrite Hpf in Hins.
  unfold one_error_each. cbn [state tasks]. rewrite length_insert.
  refine (conj Hlen (conj _ _)); [congruence |].
  destruct Hb as [-> |(e & -> & -> & ->)].
  - destruct (finished p'); lia.
  - cbn [finished] in Hins. rewrite length_app. cbn [length]. lia.
Qed.

(** X12. A load sends at most one error, and only as it returns.  So under
    every schedule the channel holds no more errors than loads have
    returned, and when [Bind] is given at most ten paths a load that is
    about to send finds room in the channel: it never waits. *)
Theorem load_never_waits (v : variant) (sched : list nat) (w : world)
    (rPath : list string) (i : nat) (e : error) :
  length rPath <= 10 ->
  tasks (run v (files w) sched (start_system w rPath)) !! i = Some (AtSend e) ->
  let s := run v (files w) sched (start_system w rPath) in
  length (buffer (Ce (state s))) <= count_finished (tasks s) /\
  load_step v (files w) (state s) (AtSend e) = Some (send e (state s), Finished).
Proof.
  intros Hlen Hi s.
  assert (Hinv : one_error_each (length (start_tasks w rPath)) s).
  { apply run_invariant; [intros j s'; apply one_error_each_step |].
    unfold one_error_each, start_system. cbn [state tasks Ce capacity buffer length].
    refine (conj eq_refl (conj eq_refl _)). lia. }
  destruct Hinv as (Hn & Hcap & Hbuf). split; [exact Hbuf |].
  assert (Hlt : count_finished (tasks s) < length (tasks s)).
  { eapply count_finished_unfinished; [exact Hi | reflexivity]. }
  assert (Hten : length (start_tasks w rPath) <= 10).
  { unfold start_tasks. destruct rPath; [cbn; lia | now rewrite length_map]. }
  cbn [load_step]. rewrite Hcap.
  destruct (Nat.ltb_spec (length (buffer (Ce (state s)))) 10); [reflexivity | lia].
Qed.

Lemma load_never_waits_witness :
  let s := run Expanding (files locked_world) [0; 1; 0] (start_system locked_world ["d1"; "d2"]) in
  length (buffer (Ce (state s))) <= count_finished (tasks s) /\
  load_step Expanding (files locked_world) (state s)
    (AtSend (ErrOpening "d2/.env" "permission denied"))
    = Some (send (ErrOpening "d2/.env" "permission denied") (state s), Finished).
Proof.
  apply (load_never_waits Expanding [0; 1; 0] locked_world ["d1"; "d2"] 1).
  - cbn. lia.
  - reflexivity.
Defined.

Lemma Bind_ends_within_capacity_witness :
  exists sched1 b,
    Bind Plain ([0; 1; 0] ++ sched1) mixed_world (PointerToStruct [int_field]) ["a"; "b"]
      = Some b.
Proof.
  apply (Bind_ends_within_capacity [0; 1; 0] mixed_world [int_field] ["a"; "b"]).
  cbn. lia.
Defined.

(** ** What [Bind] returns *)

(** X13. When [Bind] returns an error, it has not touched the struct; and
    the error is either the one of the validation, with the world as it
    was, or an error of a load, which is also written to the log. *)
Theorem Bind_error_keeps_target (v : variant) (sched : list nat) (w : world)
    (i : iface) (rPath : list string) (b : bound) (e : error) :
  Bind v sched w i rPath = Some b ->
  result b = Failed e ->
  after_target b = i /\
  (e = ErrExpectedPointer (type_text i) /\ after_world b = w \/
   LogError e ∈ log_lines (after_world b)).
Proof.
  unfold Bind. destruct (TypeOf_Kind i) as [k|]; [| intros [= <-]; discriminate].
  destruct (_ || _).
  - intros [= <-]. cbn. intros [= <-]. auto.
  - destruct (all_finished _); [| discriminate]. intros [= <-].
    unfold Bind_finish.
    set (sh := state (run v (files w) sched (start_system w rPath))).
    destruct (last (buffer (Ce sh))) as [err|] eqn:Hl.
    + cbn. intros [= <-]. split; [reflexivity | right].
      apply elem_of_app. right. apply list_elem_of_fmap. exists err.
      split; [reflexivity |]. apply last_Some in Hl as [l' ->].
      apply elem_of_app. right. constructor.
    + destruct (bind_fields _ _) as [[done l] [msg|]]; discriminate.
Qed.

Lemma Bind_error_keeps_target_witness :
  after_target broken_bound = port_config /\
  (ErrSetting "" "setenv: invalid argument" = ErrExpectedPointer (type_text port_config) /\
   after_world broken_bound = broken_world \/
   LogError (ErrSetting "" "setenv: invalid argument")
     ∈ log_lines (after_world broken_bound)).
Proof.
  exact (Bind_error_keeps_target Plain (repeat 0 12) broken_world port_config []
           broken_bound _ broken_Bind eq_refl).
Defined.

(** The loop over the fields does not panic when no exported field is
    a slice that cannot hold a [[]string]. *)
Lemma bind_fields_returns (e : environ) (fields : list field) :
  (forall fld, fld ∈ fields -> exported fld = true -> kind_of (ftype fld) = Slice ->
     assignable_from_strings (ftype fld) = true) ->
  (bind_fields e fields).2 = None.
Proof.
  induction fields as [|f fields IH]; intros Hall; [reflexivity |].
  cbn [bind_fields].
  assert (Hf : exists f' l, bind_field e f = inl (f', l)).
  { unfold bind_field. destruct (negb _); [| eauto].
    destruct (CanSet f) eqn:Hset; [| eauto].
    destruct (convert_returns (Getenv e (Tag_Get (tag f) "env")) f Hset)
      as [[f' ->]|(err & -> & _)]; eauto.
    apply Hall; [constructor | exact Hset]. }
  destruct Hf as (f' & l & ->).
  destruct (bind_fields e fields) as [[done l'] p] eqn:Hrest. cbn [snd] in *.
  apply IH. intros fld Hin. apply Hall. now constructor.
Qed.

(** X14. When no exported field of the struct is a slice that cannot hold
    a [[]string], [Bind] does not panic: it returns nil, whatever
    conversions failed and whichever variables were missing, or it
    returns an error of a load.  An error of a conversion is never
    returned. *)
Theorem Bind_returns_nil_or_load_error (v : variant) (sched : list nat) (w : world)
    (fields : list field) (rPath : list string) (b : bound) :
  (forall fld, fld ∈ fields -> exported fld = true -> kind_of (ftype fld) = Slice ->
     assignable_from_strings (ftype fld) = true) ->
  Bind v sched w (PointerToStruct fields) rPath = Some b ->
  result b = Returned tt \/ exists e, result b = Failed e /\ load_error e.
Proof.
  intros Hall HB. apply Bind_loads in HB as [_ ->].
  set (s := run v (files w) sched (start_system w rPath)).
  assert (Hinv : load_errors_only s).
  { apply run_invariant; [| apply start_load_errors_only].
    intros j s'. apply load_errors_only_step. }
  destruct Hinv as [Hbuf _]. unfold Bind_finish.
  destruct (last (buffer (Ce (state s)))) as [err|] eqn:Hl.
  - right. exists err. split; [reflexivity |].
    rewrite Forall_forall in Hbuf. apply Hbuf.
    apply last_Some in Hl as [l' ->]. apply elem_of_app. right. constructor.
  - left. cbn [Elem_fields].
    pose proof (bind_fields_returns (env (state s)) fields Hall) as Hp.
    destruct (bind_fields _ fields) as [[done l] p]. cbn in Hp. now subst p.
Qed.

Lemma Bind_returns_nil_or_load_error_witness :
  result host_bound = Returned tt \/
  exists e, result host_bound = Failed e /\ load_error e.
Proof.
  apply (Bind_returns_nil_or_load_error Plain (repeat 0 10) port_world
           [int_field; host_field] [] host_bound); [| exact host_Bind].
  intros fld Hin _ Hk.
  apply elem_of_cons in Hin as [->|Hin]; [discriminate Hk |].
  apply elem_of_cons in Hin as [->|Hin]; [discriminate Hk |].
  now apply elem_of_nil in Hin.
Defined.

(** ** What [Bind] does to the struct *)

(** What [convert] does depends on the text, the type of the field and
    on whether the field can be set; not on the value that it holds. *)
Lemma convert_frame (value : string) (f g : field) :
  ftype g = ftype f -> exported g = exported f ->
  match convert value f with
  | Returned f' => exists x, f' = set_value x f /\
                             convert value g = Returned (set_value x g)
  | Failed e => convert value g = Failed e
  | Panicked msg => convert value g = Panicked msg
  end.
Proof.
  intros Ht Hx. unfold convert, assign, CanSet. rewrite Ht, Hx.
  destruct (kind_of (ftype f)); try reflexivity;
    repeat match goal with
           | |- context [decide ?P] => destruct (decide P)
           | |- context [ParseDuration value] => destruct (ParseDuration value)
           | |- context [ParseInt value] => destruct (ParseInt value)
           | |- context [ParseUint value] => destruct (ParseUint value)
           | |- context [ParseBool value] => destruct (ParseBool value)
           | |- context [ParseFloat value] => destruct (ParseFloat value)
           | |- context [ParseComplex value] => destruct (ParseComplex value) as [[? ?]|]
           | |- context [assignable_from_strings ?t] =>
               destruct (assignable_from_strings t)
           end;
    destruct (exported f); cbn; eauto.
Qed.

Lemma convert_declaration (value : string) (f f' : field) :
  convert value f = Returned f' -> same_declaration f f' /\ exported f = true.
Proof.
  intros H. pose proof (convert_frame value f f eq_refl eq_refl) as Hf.
  rewrite H in Hf. destruct Hf as (x & -> & _).
  split; [repeat split |].
  revert H. unfold convert, assign, CanSet.
  destruct (exported f); [reflexivity |].
  destruct (kind_of (ftype f)); try discriminate;
    repeat match goal with
           | |- context [decide ?P] => destruct (decide P)
           | |- context [ParseDuration value] => destruct (ParseDuration value)
           | |- context [ParseInt value] => destruct (ParseInt value)
           | |- context [ParseUint value] => destruct (ParseUint value)
           | |- context [ParseBool value] => destruct (ParseBool value)
           | |- context [ParseFloat value] => destruct (ParseFloat value)
           | |- context [ParseComplex value] => destruct (ParseComplex value) as [[? ?]|]
           end; cbn; discriminate.
Qed.

(** A round of the loop over the fields changes at most the value of
    the field, and only of a field that is exported. *)
Lemma bind_field_declaration (e : environ) (f f' : field) (l : list log_line) :
  bind_field e f = inl (f', l) ->
  same_declaration f f' /\ (exported f = false -> f' = f).
Proof.
  unfold bind_field, CanSet.
  destruct (negb _); [| intros [= <- <-]; split; [repeat split | reflexivity]].
  destruct (exported f) eqn:Hx; [| intros [= <- <-]; split; [repeat split | reflexivity]].
  destruct (convert _ f) as [g|err|msg] eqn:Hc; [| | discriminate].
  - intros [= <- <-]. apply convert_declaration in Hc as [Hd _].
    split; [exact Hd | discriminate].
  - intros [= <- <-]. split; [repeat split | reflexivity].
Qed.

(** A second round for the same field changes nothing more. *)
Lemma bind_field_again (e : environ) (f f' : field) (l : list log_line) :
  bind_field e f = inl (f', l) -> bind_field e f' = inl (f', l).
Proof.
  intros H. pose proof (bind_field_declaration e f f' l H) as [(_ & Htag & Ht & Hx) _].
  pose proof (convert_frame (Getenv e (Tag_Get (tag f) "env")) f f' Ht Hx) as Hf.
  revert H. unfold bind_field, CanSet. rewrite Htag, Hx.
  destruct (negb _); [| intros [= <- <-]; reflexivity].
  destruct (exported f); [| intros [= <- <-]; reflexivity].
  destruct (convert _ f) as [g|err|msg]; [| | discriminate].
  - destruct Hf as (x & -> & Hg). intros [= <- <-]. now rewrite Hg.
  - intros [= <- <-]. now rewrite Hf.
Qed.

(** The loop over the fields, run again on its own result, changes
    nothing more and ends in the same way. *)
Lemma bind_fields_again (e : environ) (fields : list field) :
  bind_fields e (bind_fields e fields).1.1 = bind_fields e fields.
Proof.
  induction fields as [|f fields IH]; [reflexivity |].
  cbn [bind_fields]. destruct (bind_field e f) as [[f' l]|msg] eqn:Hf.
  - destruct (bind_fields e fields) as [[done l'] p] eqn:Hrest. cbn [fst] in *.
    cbn [bind_fields]. rewrite (bind_field_again _ _ _ _ Hf), IH. reflexivity.
  - cbn [fst bind_fields]. now rewrite Hf.
Qed.

(** Field by field: when the loop is not left by a panic, each field
    of the result is what its round of the loop made of it. *)
Lemma bind_fields_lookup (e : environ) (fields : list field) (j : nat) (f : field) :
  (bind_fields e fields).2 = None -> fields !! j = Some f ->
  exists f' l, bind_field e f = inl (f', l) /\ (bind_fields e fields).1.1 !! j = Some f'.
Proof.
  revert j. induction fields as [|g fields IH]; intros j Hp Hj; [discriminate |].
  cbn [bind_fields] in *. destruct (bind_field e g) as [[g' l]|msg] eqn:Hg;
    [| discriminate].
  destruct (bind_fields e fields) as [[done l'] p] eqn:Hrest. cbn [fst snd] in *.
  destruct j as [|j].
  - injection Hj as <-. eauto.
  - apply (IH j Hp Hj).
Qed.

(** The loop changes at most the values of exported fields, also when
    it is left by a panic. *)
Lemma bind_fields_declaration (e : environ) (fields : list field) :
  Forall2 (fun f f' => same_declaration f f' /\ (exported f = false -> f' = f))
    fields (bind_fields e fields).1.1.
Proof.
  induction fields as [|f fields IH]; [constructor |].
  cbn [bind_fields]. destruct (bind_field e f) as [[f' l]|msg] eqn:Hf.
  - destruct (bind_fields e fields) as [[done l'] p]. cbn [fst] in *.
    constructor; [now apply (bind_field_declaration e f f' l) | exact IH].
  - cbn [fst]. apply Forall2_same_length_lookup. split; [reflexivity |].
    intros i x y Hx Hy. rewrite Hx in Hy. injection Hy as <-.
    split; [repeat split | reflexivity].
Qed.

(** X15. Whatever the files hold and however the loads interleave, [Bind]
    changes nothing of the struct but the values of exported fields:
    the struct keeps its fields, each with its name, tag, type and
    visibility, and a field that is not exported keeps its value. *)
Theorem Bind_keeps_declarations (v : variant) (sched : list nat) (w : world)
    (fields : list field) (rPath : list string) (b : bound) :
  Bind v sched w (PointerToStruct fields) rPath = Some b ->
  exists fields', after_target b = PointerToStruct fields' /\
    Forall2 (fun f f' => same_declaration f f' /\ (exported f = false -> f' = f))
      fields fields'.
Proof.
  intros HB. apply Bind_loads in HB as [_ ->]. unfold Bind_finish.
  destruct (last _).
  - exists fields. split; [reflexivity |].
    apply Forall2_same_length_lookup. split; [reflexivity |].
    intros i x y Hx Hy. rewrite Hx in Hy. injection Hy as <-.
    split; [repeat split | reflexivity].
  - pose proof (bind_fields_declaration
                  (env (state (run v (files w) sched (start_system w rPath)))) fields) as H.
    cbn [Elem_fields]. destruct (bind_fields _ fields) as [[done l] p].
    exists done. split; [reflexivity | exact H].
Qed.

Lemma Bind_keeps_declarations_witness :
  exists fields', after_target host_bound = PointerToStruct fields' /\
    Forall2 (fun f f' => same_declaration f f' /\ (exported f = false -> f' = f))
      [int_field; host_field] fields'.
Proof.
  exact (Bind_keeps_declarations Plain (repeat 0 10) port_world [int_field; host_field]
           [] host_bound host_Bind).
Defined.

Lemma test_Bind : Bind Plain (repeat 0 10) test_world Cfg [] = Some test_bound.
Proof. vm_compute. reflexivity. Qed.

(** X16. When [Bind] has returned nil, an exported field of kind string
    holds the value of its variable, byte for byte, if that value is not
    empty, and what it held before otherwise.  So a field that was the
    empty string before equals [os.Getenv] of its variable afterwards,
    which is what the test [TestAssertion] of the package checks. *)
Theorem Bind_string_field (v : variant) (sched : list nat) (w : world)
    (fields : list field) (rPath : list string) (b : bound) (j : nat) (fld : field) :
  Bind v sched w (PointerToStruct fields) rPath = Some b ->
  result b = Returned tt ->
  fields !! j = Some fld ->
  kind_of (ftype fld) = String_ -> exported fld = true ->
  let x := Getenv (environment (after_world b)) (Tag_Get (tag fld) "env") in
  Elem_fields (after_target b) !! j =
    Some (if decide (x = "") then fld else set_value (VString x) fld) /\
  (fvalue fld = VString "" ->
   fvalue <$> Elem_fields (after_target b) !! j = Some (VString x)).
Proof.
  intros HB Hres Hj Hk Hx x.
  assert (Hgoal : Elem_fields (after_target b) !! j =
                  Some (if decide (x = "") then fld else set_value (VString x) fld)).
  { subst x. apply Bind_loads in HB as [_ ->]. rewrite Bind_finish_environment.
    revert Hres. unfold Bind_finish.
    set (e := env (state (run v (files w) sched (start_system w rPath)))).
    destruct (last _); [discriminate |]. cbn [Elem_fields].
    pose proof (bind_fields_lookup e fields j fld) as Hl.
    destruct (bind_fields e fields) as [[done l] [msg|]]; [discriminate |].
    intros _. destruct (Hl eq_refl Hj) as (f' & l' & Hf & Hd). cbn [fst] in Hd.
    cbn [after_target Elem_fields]. rewrite Hd. f_equal.
    revert Hf. unfold bind_field, convert, assign, CanSet. rewrite Hk, Hx.
    destruct (decide (Getenv e (Tag_Get (tag fld) "env") = "")) as [->|Hne].
    - intros [= <- <-]. reflexivity.
    - destruct (String.eqb_spec (Getenv e (Tag_Get (tag fld) "env")) "");
        [contradiction |].
      intros [= <- <-]. reflexivity. }
  split; [exact Hgoal |].
  intros Hv. rewrite Hgoal. cbn. f_equal.
  destruct (decide (x = "")) as [->|_]; [exact Hv | reflexivity].
Qed.

Lemma Bind_string_field_witness :
  Elem_fields (after_target test_bound) !! 0 =
    Some {| name := "PostgresUrl"; tag := [("env", "POSTGRES_URL")];
            ftype := Basic String_; exported := true;
            fvalue := VString "postgres://db:5432/app?sslmode=disable" |} /\
  (VString "" = VString "" ->
   fvalue <$> Elem_fields (after_target test_bound) !! 0 =
     Some (VString (Getenv (environment (after_world test_bound)) "POSTGRES_URL"))).
Proof.
  exact (Bind_string_field Plain (repeat 0 10) test_world _ [] test_bound 0 _
           test_Bind eq_refl eq_refl eq_refl eq_refl).
Defined.

Lemma bind_fields_logs (e : environ) (fields : list field) (j : nat) (f f' : field)
    (l : list log_line) (x : log_line) :
  (bind_fields e fields).2 = None -> fields !! j = Some f ->
  bind_field e f = inl (f', l) -> x ∈ l -> x ∈ (bind_fields e fields).1.2.
Proof.
  revert j. induction fields as [|g fields IH]; intros j Hp Hj Hf Hx; [discriminate |].
  cbn [bind_fields] in *. destruct (bind_field e g) as [[g' lg]|msg] eqn:Hg;
    [| discriminate].
  destruct (bind_fields e fields) as [[done l'] p] eqn:Hrest. cbn [fst snd] in *.
  apply elem_of_app. destruct j as [|j].
  - injection Hj as <-. rewrite Hf in Hg. injection Hg as <- <-. now left.
  - right. apply (IH j Hp Hj Hf Hx).
Qed.

(** X17. From the line of the file to the field of the struct, with
    load.go and one file: when [Bind] has returned nil, an exported
    field whose variable the file names, with a first value that is not
    empty, holds what [convert] makes of that value; and when [convert]
    returns an error for it, the field is as it was and the log holds
    the warning with that error. *)
Theorem Bind_binds_file_value (sched : list nat) (w : world) (fields : list field)
    (rPath : list string) (path : string) (lines : list string)
    (serr : option string) (b : bound) (j : nat) (fld : field) (value : string) :
  start_tasks w rPath = [AtStart path] ->
  files w path = Readable lines serr ->
  Bind Plain sched w (PointerToStruct fields) rPath = Some b ->
  result b = Returned tt ->
  fields !! j = Some fld -> exported fld = true ->
  Tag_Get (tag fld) "env" <> "" ->
  first_value lines (Tag_Get (tag fld) "env") = Some value -> value <> "" ->
  match convert value fld with
  | Returned fld' => Elem_fields (after_target b) !! j = Some fld'
  | Failed err =>
      Elem_fields (after_target b) !! j = Some fld /\
      WarnConvert (Tag_Get (tag fld) "env") err ∈ log_lines (after_world b)
  | Panicked _ => False
  end.
Proof.
  intros Hone Hfile HB Hres Hj Hx Htag Hfirst Hvalue.
  assert (Hok : forall e, result b <> Failed e) by (rewrite Hres; discriminate).
  assert (Henv : Getenv (environment (after_world b)) (Tag_Get (tag fld) "env") = value).
  { apply Getenv_set; [exact Htag |].
    rewrite (Bind_one_load _ _ _ _ _ _ Hone HB) in Hok |- *.
    rewrite Bind_finish_environment.
    pose proof (Bind_finish_failed w (PointerToStruct fields)
                  (load_seq (files w) path (start_state w))) as Hf.
    unfold load_seq in *. cbn [load_rest] in *. rewrite Hfile in *.
    destruct (load_lines lines (env (start_state w)) (loadedVars (start_state w)))
      as [[e' m'] err] eqn:Hl.
    rewrite load_end_env. rewrite load_end_buffer in Hf.
    destruct err as [er|]; [cbn in Hf; destruct Hf as [Hf _]; now apply Hok in Hf |].
    destruct serr as [cause|]; [cbn in Hf; destruct Hf as [Hf _]; now apply Hok in Hf |].
    destruct (load_lines_first lines _ _ _ _ (Tag_Get (tag fld) "env") Hl eq_refl)
      as [He _].
    now rewrite He, Hfirst. }
  apply Bind_loads in HB as [_ ->]. rewrite Bind_finish_environment in Henv.
  revert Hres. unfold Bind_finish.
  set (e := env (state (run Plain (files w) sched (start_system w rPath)))) in *.
  destruct (last _); [discriminate |]. cbn [Elem_fields].
  pose proof (bind_fields_lookup e fields j fld) as Hl.
  pose proof (bind_fields_logs e fields j fld) as Hlog.
  destruct (bind_fields e fields) as [[done l] [msg|]]; [discriminate |].
  intros _. destruct (Hl eq_refl Hj) as (f' & l' & Hf & Hd). cbn [fst snd] in *.
  specialize (Hlog f' l'). pose proof Hf as Hf0.
  revert Hf. unfold bind_field, CanSet. rewrite Henv, Hx.
  destruct (String.eqb_spec value ""); [contradiction |]. cbn [negb].
  destruct (convert value fld) as [g|err|msg]; [| | discriminate].
  - intros [= <- <-]. exact Hd.
  - intros [= <- <-]. split; [exact Hd |]. cbn.
    apply elem_of_app. right. apply (Hlog _ eq_refl Hj Hf0). constructor.
Qed.

Lemma Bind_binds_file_value_witness :
  Elem_fields (after_target port_bound) !! 0 = Some (set_value (VInt 8080) int_field).
Proof.
  apply (Bind_binds_file_value (repeat 0 10) port_world [int_field] [] "/app/.env"
           ["PORT=8080"; "HOST="] None port_bound 0 int_field "8080"
           eq_refl eq_refl port_Bind eq_refl eq_refl eq_refl);
    (reflexivity || discriminate).
Defined.

(** ** A second call *)

Lemma load_seq_again (fs : filesystem) (path : string) (sh sh2 : shared) :
  env sh2 = env (load_seq fs path sh) ->
  loadedVars sh2 = loadedVars sh ->
  buffer (Ce sh2) = buffer (Ce sh) ->
  env (load_seq fs path sh2) = env (load_seq fs path sh) /\
  buffer (Ce (load_seq fs path sh2)) = buffer (Ce (load_seq fs path sh)).
Proof.
  unfold load_seq. cbn [load_rest]. destruct (fs path) as [|cause|lines serr].
  - cbn. auto.
  - cbn. intros He _ ->. auto.
  - destruct (load_lines lines (env sh) (loadedVars sh)) as [[e' m'] err] eqn:Hl.
    rewrite load_end_env. intros -> -> Hb.
    rewrite (load_lines_again _ _ _ _ _ _ Hl).
    rewrite !load_end_env, !load_end_buffer, Hb. auto.
Qed.

Lemma Bind_finish_keeps_places (w : world) (i : iface) (sh : shared) :
  files (after_world (Bind_finish w i sh)) = files w /\
  cwd (after_world (Bind_finish w i sh)) = cwd w.
Proof.
  unfold Bind_finish. destruct (last _); [auto |].
  destruct (bind_fields _ _) as [[done l] p]. auto.
Qed.

(** What [Bind] returns, the struct and the environment that it leaves
    depend on the environment and on the errors in the channel only; and
    the part of [Bind] after the loads, run again on its own result,
    gives that result again. *)
Lemma Bind_finish_again (w w2 : world) (fields : list field) (sh sh2 : shared) :
  env sh2 = env sh -> buffer (Ce sh2) = buffer (Ce sh) ->
  let b := Bind_finish w (PointerToStruct fields) sh in
  let b2 := Bind_finish w2 (after_target b) sh2 in
  result b2 = result b /\ after_target b2 = after_target b /\
  environment (after_world b2) = environment (after_world b).
Proof.
  intros He Hb. cbv zeta. unfold Bind_finish. rewrite He, Hb.
  destruct (last (buffer (Ce sh))) as [err|]; [cbn; auto |].
  cbn [Elem_fields]. pose proof (bind_fields_again (env sh) fields) as Hagain.
  destruct (bind_fields (env sh) fields) as [[done l] p]. cbn [fst] in Hagain.
  cbn [after_target Elem_fields]. rewrite Hagain. cbn. auto.
Qed.

Lemma Bind_target_is_struct (v : variant) (sched : list nat) (w : world)
    (fields : list field) (rPath : list string) (b : bound) :
  Bind v sched w (PointerToStruct fields) rPath = Some b ->
  exists fields', after_target b = PointerToStruct fields'.
Proof.
  intros HB. apply Bind_loads in HB as [_ ->]. unfold Bind_finish.
  destruct (last _); [eauto |].
  destruct (bind_fields _ _) as [[done l] p]. eauto.
Qed.

(** X18. With one file, read by load.go, a second call of [Bind] with the
    same arguments ends as the first did and leaves the struct and the
    environment as the first call left them. *)
Theorem Bind_twice (sched sched2 : list nat) (w : world) (fields : list field)
    (rPath : list string) (path : string) (b b2 : bound) :
  start_tasks w rPath = [AtStart path] ->
  Bind Plain sched w (PointerToStruct fields) rPath = Some b ->
  Bind Plain sched2 (after_world b) (after_target b) rPath = Some b2 ->
  result b2 = result b /\ after_target b2 = after_target b /\
  environment (after_world b2) = environment (after_world b).
Proof.
  intros Hone HB HB2.
  pose proof (Bind_one_load _ _ _ _ _ _ Hone HB) as Hb.
  destruct (Bind_target_is_struct _ _ _ _ _ _ HB) as (fields' & Ht).
  assert (Hw : files (after_world b) = files w /\ cwd (after_world b) = cwd w).
  { rewrite Hb. apply Bind_finish_keeps_places. }
  destruct Hw as [Hfiles Hcwd].
  assert (Hone2 : start_tasks (after_world b) rPath = [AtStart path]).
  { rewrite <- Hone. unfold start_tasks. now rewrite Hcwd. }
  rewrite Ht in HB2.
  pose proof (Bind_one_load _ _ _ _ _ _ Hone2 HB2) as Hb2.
  rewrite <- Ht, Hfiles in Hb2.
  destruct (load_seq_again (files w) path (start_state w) (start_state (after_world b)))
    as [He Hbuf]; [| reflexivity | reflexivity |].
  { cbn. rewrite Hb. apply Bind_finish_environment. }
  subst b2. subst b. now apply Bind_finish_again.
Qed.

Lemma host_Bind_again :
  Bind Plain (repeat 0 10) (after_world host_bound) (after_target host_bound) []
    = Some host_bound_again.
Proof. vm_compute. reflexivity. Qed.

Lemma Bind_twice_witness :
  result host_bound_again = result host_bound /\
  after_target host_bound_again = after_target host_bound /\
  environment (after_world host_bound_again) = environment (after_world host_bound).
Proof.
  exact (Bind_twice (repeat 0 10) (repeat 0 10) port_world [int_field; host_field] []
           "/app/.env" host_bound host_bound_again eq_refl host_Bind host_Bind_again).
Defined.

(** ** Lines of the form KEY=VALUE *)

Section LineFacts.

Lemma visible_code (c : ascii) :
  visible c = true -> ascii_space c = false /\ (code c < 128)%N.
Proof.
  unfold visible. intros [H1 H2]%andb_prop.
  apply negb_true_iff in H1. apply N.ltb_lt in H2. auto.
Qed.

Lemma space_width_visible (c : ascii) (r : string) :
  visible c = true -> space_width (String c r) = 0.
Proof.
  intros [Hs Hc]%visible_code. unfold space_width. rewrite Hs.
  assert (H194 : (code c =? 194)%N = false) by (apply N.eqb_neq; lia).
  assert (H225 : (code c =? 225)%N = false) by (apply N.eqb_neq; lia).
  assert (H226 : (code c =? 226)%N = false) by (apply N.eqb_neq; lia).
  assert (H227 : (code c =? 227)%N = false) by (apply N.eqb_neq; lia).
  rewrite H194, H225, H226, H227. cbn [andb].
  destruct r as [|d [|e r']]; reflexivity.
Qed.

Lemma space_width_rev_visible (c : ascii) (r : string) :
  visible c = true -> space_width_rev (String c r) = 0.
Proof.
  intros [Hs Hc]%visible_code. unfold space_width_rev. rewrite Hs.
  assert (H133 : (code c =? 133)%N = false) by (apply N.eqb_neq; lia).
  assert (H160 : (code c =? 160)%N = false) by (apply N.eqb_neq; lia).
  assert (H128 : (code c =? 128)%N = false) by (apply N.eqb_neq; lia).
  assert (H159 : (code c =? 159)%N = false) by (apply N.eqb_neq; lia).
  assert (H168 : (code c =? 168)%N = false) by (apply N.eqb_neq; lia).
  assert (H169 : (code c =? 169)%N = false) by (apply N.eqb_neq; lia).
  assert (H175 : (code c =? 175)%N = false) by (apply N.eqb_neq; lia).
  assert (Hle : (128 <=? code c)%N = false) by (apply N.leb_gt; lia).
  destruct r as [|d [|e r']]; [reflexivity | |];
    rewrite H133, H160; cbn [orb]; rewrite andb_false_r; [reflexivity |].
  unfold space_width. destruct (ascii_space e); [reflexivity |].
  destruct ((code e =? 194)%N && _); [reflexivity |].
  rewrite H128, H159, H168, H169, H175, Hle. cbn [andb orb].
  rewrite !andb_false_r. reflexivity.
Qed.

Lemma drop_blanks (w : string -> nat) (pad s : string) (fuel : nat) :
  (forall c r, ascii_space c = true -> w (String c r) = 1) ->
  blanks pad = true -> len pad <= fuel -> w s = 0 ->
  drop_spaces w fuel (pad +:+ s) = s.
Proof.
  intros Hw. revert fuel. induction pad as [|c pad IH]; intros fuel Hb Hlen Hs.
  - rewrite app_empty_l. destruct fuel; cbn [drop_spaces]; [reflexivity | now rewrite Hs].
  - cbn [blanks] in Hb. apply andb_prop in Hb as [Hc Hb].
    destruct fuel as [|fuel]; [change (S (len pad) <= 0) in Hlen; lia |].
    change (S (len pad) <= S fuel) in Hlen.
    rewrite app_cons. cbn [drop_spaces]. rewrite (Hw c _ Hc). cbn [skip].
    apply IH; [assumption | lia | assumption].
Qed.

Lemma space_width_blank (c : ascii) (r : string) :
  ascii_space c = true -> space_width (String c r) = 1.
Proof. intros H. unfold space_width. now rewrite H. Qed.

Lemma space_width_rev_blank (c : ascii) (r : string) :
  ascii_space c = true -> space_width_rev (String c r) = 1.
Proof. intros H. unfold space_width_rev. now rewrite H. Qed.

Lemma rev_app (a b : string) :
  String.rev (a +:+ b) = String.rev b +:+ String.rev a.
Proof.
  induction a as [|c a IH]; [now rewrite app_empty_l, app_empty_r |].
  now rewrite app_cons, !rev_cons, IH, app_assoc_string.
Qed.

Lemma len_rev (s : string) : len (String.rev s) = len s.
Proof.
  induction s as [|c s IH]; [reflexivity |].
  rewrite rev_cons, len_app, IH. change (len s + 1 = S (len s)). lia.
Qed.

Lemma blanks_app (a b : string) : blanks (a +:+ b) = blanks a && blanks b.
Proof.
  induction a as [|c a IH]; [reflexivity |].
  rewrite app_cons. cbn [blanks]. now rewrite IH, andb_assoc.
Qed.

Lemma blanks_rev (s : string) : blanks (String.rev s) = blanks s.
Proof.
  induction s as [|c s IH]; [reflexivity |].
  rewrite rev_cons, blanks_app, IH. cbn [blanks]. rewrite andb_true_r. apply andb_comm.
Qed.

Lemma TrimLeft_pad (pad s : string) :
  blanks pad = true -> space_width s = 0 -> TrimLeft (pad +:+ s) = s.
Proof.
  intros Hb Hs. unfold TrimLeft.
  apply drop_blanks; [apply space_width_blank | assumption | | assumption].
  rewrite len_app. lia.
Qed.

Lemma TrimRight_pad (pad s : string) :
  blanks pad = true -> space_width_rev (String.rev s) = 0 -> TrimRight (s +:+ pad) = s.
Proof.
  intros Hb Hs. unfold TrimRight. rewrite rev_app.
  rewrite drop_blanks; [apply rev_rev | apply space_width_rev_blank | | | assumption].
  - now rewrite blanks_rev.
  - rewrite len_rev, len_app. lia.
Qed.

Lemma ends_visible_last (s : string) :
  ends_visible s = true -> exists u d, s = u +:+ String d "" /\ visible d = true.
Proof.
  induction s as [|c s IH]; [discriminate |].
  destruct s as [|c' s'].
  - intros H. exists "", c. auto.
  - intros H. destruct (IH H) as (u & d & -> & Hd).
    exists (String c u), d. auto.
Qed.

Lemma ends_visible_app (a b : string) :
  b <> "" -> ends_visible (a +:+ b) = ends_visible b.
Proof.
  intros Hb. induction a as [|c a IH]; [reflexivity |].
  rewrite app_cons. cbn [ends_visible]. rewrite IH.
  destruct (a +:+ b) eqn:E; [| reflexivity].
  destruct a; [cbn in E; contradiction | discriminate E].
Qed.

(** Trimming takes away the blanks around a text that begins and ends
    with a visible byte, and nothing else. *)
Lemma TrimSpace_core (p1 p2 s : string) :
  blanks p1 = true -> blanks p2 = true ->
  starts_visible s = true -> ends_visible s = true ->
  TrimSpace (p1 +:+ s +:+ p2) = s.
Proof.
  intros H1 H2 Hs He. unfold TrimSpace.
  rewrite TrimLeft_pad; [| assumption |].
  - apply TrimRight_pad; [assumption |].
    destruct (ends_visible_last s He) as (u & d & -> & Hd).
    rewrite rev_snoc. now apply space_width_rev_visible.
  - destruct s as [|c r]; [discriminate |]. rewrite app_cons.
    now apply space_width_visible.
Qed.

Lemma TrimSpace_blanks (p : string) : blanks p = true -> TrimSpace p = "".
Proof.
  intros H. unfold TrimSpace. rewrite <- (app_empty_r p).
  rewrite TrimLeft_pad by (assumption || reflexivity). reflexivity.
Qed.

Lemma has_byte_app (n : N) (a b : string) :
  has_byte n (a +:+ b) = has_byte n a || has_byte n b.
Proof.
  induction a as [|c a IH]; [reflexivity |].
  rewrite app_cons, !has_byte_cons, IH. apply orb_assoc.
Qed.

Lemma has_byte_rev (n : N) (s : string) : has_byte n (String.rev s) = has_byte n s.
Proof.
  induction s as [|c s IH]; [reflexivity |].
  rewrite rev_cons, has_byte_app, IH, !has_byte_cons. cbn [has_byte existsb list_ascii_of_string].
  rewrite orb_false_r. apply orb_comm.
Qed.

Lemma has_byte_skip (n : N) (j : nat) (s : string) :
  has_byte n s = false -> has_byte n (skip j s) = false.
Proof.
  intros H. rewrite <- (take_skip j s), has_byte_app in H.
  now apply orb_false_elim in H as [_ H].
Qed.

Lemma has_byte_TrimSpace (n : N) (s : string) :
  has_byte n s = false -> has_byte n (TrimSpace s) = false.
Proof.
  intros H. unfold TrimSpace, TrimRight, TrimLeft.
  destruct (drop_spaces_is_skip space_width (len s) s) as [j ->].
  set (t := skip j s).
  destruct (drop_spaces_is_skip space_width_rev (len t) (String.rev t)) as [j' ->].
  rewrite has_byte_rev. apply has_byte_skip. rewrite has_byte_rev.
  now apply has_byte_skip.
Qed.

Lemma has_byte_blanks (p : string) : blanks p = true -> has_byte 61 p = false.
Proof.
  induction p as [|c p IH]; [reflexivity |].
  cbn [blanks]. intros [Hc Hp]%andb_prop. rewrite has_byte_cons, IH by assumption.
  rewrite orb_false_r. apply N.eqb_neq. intros E.
  unfold ascii_space in Hc. rewrite E in Hc. discriminate Hc.
Qed.

Lemma cut_first_app (sep : ascii) (a b : string) :
  has_byte (code sep) a = false ->
  cut_first sep (a +:+ String sep b) = Some (a, b).
Proof.
  induction a as [|c a IH].
  - intros _. rewrite app_empty_l. cbn [cut_first]. now rewrite Ascii.eqb_refl.
  - rewrite has_byte_cons. intros [Hc Ha]%orb_false_elim.
    rewrite app_cons. cbn [cut_first]. destruct (Ascii.eqb_spec c sep) as [->|_].
    + now rewrite N.eqb_refl in Hc.
    + now rewrite IH.
Qed.

Lemma cut_first_before (sep : ascii) (s a b : string) :
  cut_first sep s = Some (a, b) ->
  has_byte (code sep) a = false /\ s = a +:+ String sep b.
Proof.
  revert a. induction s as [|c s IH]; intros a; [discriminate |].
  cbn [cut_first]. destruct (Ascii.eqb_spec c sep) as [->|Hne].
  - intros [= <- <-]. auto.
  - destruct (cut_first sep s) as [[a' b']|]; [| discriminate].
    intros [= <- <-]. destruct (IH a' eq_refl) as [Ha ->].
    rewrite has_byte_cons, Ha, orb_false_r. split; [| reflexivity].
    apply N.eqb_neq. intros E. apply Hne.
    unfold code in E. apply (f_equal ascii_of_N) in E.
    now rewrite !ascii_N_embedding in E.
Qed.

End LineFacts.

Lemma starts_visible_app (a b : string) :
  starts_visible a = true -> starts_visible (a +:+ b) = true.
Proof. destruct a as [|c a]; [discriminate | now rewrite app_cons]. Qed.

Lemma parse_line_core (key p2 tail value : string) :
  key <> "" -> tidy key = true -> HasPrefix key "#" = false ->
  has_byte 61 key = false -> blanks p2 = true ->
  TrimSpace tail = value ->
  let line := key +:+ p2 +:+ "=" +:+ tail in
  TrimSpace line = line -> parse_line line = Some (key, value).
Proof.
  intros Hne Hk Hhash Heq Hp2 Htail line Hline.
  unfold parse_line. rewrite Hline.
  assert (Hl : exists c r, line = String c r /\ Ascii.eqb "#" c = false).
  { subst line. destruct key as [|c r]; [contradiction |].
    rewrite app_cons. exists c, (r +:+ p2 +:+ "=" +:+ tail). split; [reflexivity |].
    cbn [HasPrefix] in Hhash. now rewrite andb_true_r in Hhash. }
  destruct Hl as (c & r & Hl & Hc).
  assert (Hnot : (len line =? 0)%nat || HasPrefix line "#" = false).
  { rewrite Hl. cbn [HasPrefix]. now rewrite Hc. }
  rewrite Hnot, SplitN_two by (rewrite Hl; discriminate).
  assert (Hcut : cut_first "="%char line = Some (key +:+ p2, tail)).
  { subst line. rewrite <- app_assoc_string.
    apply (cut_first_app "="%char).
    rewrite has_byte_app. change (code "=") with 61%N.
    now rewrite Heq, has_byte_blanks. }
  rewrite Hcut. f_equal. f_equal; [| exact Htail].
  rewrite <- (app_empty_l (key +:+ p2)).
  destruct key as [|k0 kr]; [contradiction |].
  cbn [tidy] in Hk. apply andb_prop in Hk as [Hs He].
  now apply TrimSpace_core.
Qed.

(** X19. A line [KEY=VALUE], with blanks before the key, around the [=]
    and behind the value, asks for exactly that key and that value, when
    the key is not empty, holds no [=], does not begin with [#] and
    begins and ends with a visible byte, and the value is empty or
    begins and ends with a visible byte.  The value may hold any byte
    inside, blanks and [=] included. *)
Theorem parse_line_reads_assignment (p1 p2 p3 p4 key value : string) :
  blanks p1 = true -> blanks p2 = true -> blanks p3 = true -> blanks p4 = true ->
  key <> "" -> tidy key = true -> HasPrefix key "#" = false ->
  has_byte 61 key = false -> tidy value = true ->
  parse_line (p1 +:+ key +:+ p2 +:+ "=" +:+ p3 +:+ value +:+ p4) = Some (key, value).
Proof.
  intros H1 H2 H3 H4 Hne Hk Hhash Heq Hv.
  assert (Hks : starts_visible key = true /\ ends_visible key = true).
  { destruct key; [contradiction |]. cbn [tidy] in Hk. now apply andb_prop in Hk. }
  destruct Hks as [Hks Hke].
  set (tail := match value with EmptyString => EmptyString | _ => p3 +:+ value end).
  set (pad := match value with EmptyString => p3 +:+ p4 | _ => p4 end).
  set (line := key +:+ p2 +:+ "=" +:+ tail).
  assert (Htext : p1 +:+ key +:+ p2 +:+ "=" +:+ p3 +:+ value +:+ p4
                  = p1 +:+ line +:+ pad).
  { subst line tail pad. destruct value as [|v0 vr].
    - now rewrite !app_assoc_string, !app_empty_l.
    - now rewrite !app_assoc_string. }
  assert (Hpad : blanks pad = true).
  { subst pad. destruct value; [now rewrite blanks_app, H3, H4 | exact H4]. }
  assert (Hls : starts_visible line = true).
  { subst line. now apply starts_visible_app. }
  assert (Hle : ends_visible line = true).
  { subst line tail. destruct value as [|v0 vr].
    - change ("=" +:+ "") with "=". rewrite <- app_assoc_string.
      now rewrite ends_visible_app by discriminate.
    - cbn [tidy] in Hv. apply andb_prop in Hv as [_ Hve].
      rewrite <- !app_assoc_string. now rewrite ends_visible_app by discriminate. }
  assert (Hline : TrimSpace (p1 +:+ line +:+ pad) = line)
    by now apply TrimSpace_core.
  assert (Hself : TrimSpace line = line).
  { pose proof (TrimSpace_core "" "" line eq_refl eq_refl Hls Hle) as H.
    now rewrite app_empty_l, app_empty_r in H. }
  assert (Htail : TrimSpace tail = value).
  { subst tail. destruct value as [|v0 vr]; [reflexivity |].
    cbn [tidy] in Hv. apply andb_prop in Hv as [Hvs Hve].
    pose proof (TrimSpace_core p3 "" (String v0 vr) H3 eq_refl Hvs Hve) as H.
    now rewrite app_empty_r in H. }
  rewrite Htext.
  transitivity (parse_line line).
  - unfold parse_line. now rewrite Hline, Hself.
  - now apply parse_line_core.
Qed.

Lemma parse_line_reads_assignment_witness :
  parse_line "  DSN = host=db port=5432  " = Some ("DSN", "host=db port=5432").
Proof.
  apply (parse_line_reads_assignment "  " " " " " "  " "DSN" "host=db port=5432");
    (reflexivity || discriminate).
Defined.

(** X20. The key that a line asks for never holds a [=].  So
    [os.Setenv] rejects the pair of a line, which ends the load with an
    error, in these cases only: the key is empty, or the key or the
    value holds a NUL byte. *)
Theorem parsed_key_has_no_equals_sign (text key value : string) (e : environ) :
  parse_line text = Some (key, value) ->
  has_byte 61 key = false /\
  (Setenv e key value = None <->
   key = "" \/ has_byte 0 key = true \/ has_byte 0 value = true).
Proof.
  intros H.
  assert (Hk : has_byte 61 key = false).
  { rewrite parse_line_is_rule in H. unfold parse_line_rule in H.
    destruct (decide _); [discriminate |]. destruct (decide _); [discriminate |].
    destruct (cut_first "="%char (TrimSpace text)) as [[k0 v0]|] eqn:Hcut;
      [| discriminate].
    injection H as <- <-. apply cut_first_before in Hcut as [Hk0 _].
    now apply has_byte_TrimSpace. }
  split; [exact Hk |].
  unfold Setenv, setenv_ok. rewrite Hk. cbn [negb]. rewrite andb_true_r.
  destruct (len key =? 0)%nat eqn:Hlen.
  - apply len_zero in Hlen. cbn. split; auto.
  - assert (Hne : key <> "") by (intros ->; discriminate Hlen).
    cbn [negb andb].
    destruct (has_byte 0 key), (has_byte 0 value); cbn; split; auto;
      try discriminate; intros [?|[?|?]]; congruence.
Qed.

Lemma parsed_key_has_no_equals_sign_witness :
  has_byte 61 "" = false /\
  (Setenv ∅ "" "x" = None <->
   "" = "" \/ has_byte 0 "" = true \/ has_byte 0 "x" = true).
Proof.
  apply (parsed_key_has_no_equals_sign "=x" "" "x" ∅). reflexivity.
Defined.

(** ** Integers and slices *)






Lemma uint_loop_range (s : string) (n m : Z) :
  (0 <= n <= 2 ^ 64 - 1)%Z -> uint_loop s n = inl m -> (0 <= m <= 2 ^ 64 - 1)%Z.
Proof.
  revert n. induction s as [|c s IH]; intros n Hn; cbn [uint_loop].
  - intros [= <-]. exact Hn.
  - destruct (is_digit c) eqn:Hd; [| discriminate].
    destruct (_ >=? _)%Z; [discriminate |].
    destruct (Z.gtb_spec (n * 10 + digit_val c) (2 ^ 64 - 1)); [discriminate |].
    apply IH. unfold is_digit in Hd. apply andb_prop in Hd as [Hd _].
    apply N.leb_le in Hd. unfold digit_val in *. lia.
Qed.

Lemma ParseUint_range (s : string) (n : Z) :
  ParseUint s = Ok n -> (0 <= n <= 2 ^ 64 - 1)%Z.
Proof.
  unfold ParseUint, uint_digits. destruct s as [|c r]; [discriminate |].
  destruct (uint_loop (String c r) 0) as [m|e] eqn:Hm; [| discriminate].
  intros [= <-]. apply (uint_loop_range (String c r) 0 m); [lia | exact Hm].
Qed.

(** X22. For a field of an unsigned integer kind [convert] reads a decimal
    number without a sign: a text that begins with a minus sign is a
    conversion error.  After a number that [strconv.ParseUint] accepts
    the field holds the number modulo two to the width of the field,
    with no error, so a number that fits the field, and every accepted
    number in a field 64 bits wide (uint64, and uint on a 64-bit
    platform, which [int_bits] assumes), is stored as it is. *)
Theorem convert_wraps_unsigned (value : string) (fld : field) :
  CanSet fld = true ->
  unsigned_kind (kind_of (ftype fld)) = true ->
  let w := int_bits (kind_of (ftype fld)) in
  (forall n, ParseUint value = Ok n ->
     (exists fld', convert value fld = Returned fld' /\
        fvalue fld' = VUint (n mod 2 ^ w) /\ same_declaration fld fld') /\
     (0 <= n mod 2 ^ w < 2 ^ w)%Z /\
     ((n < 2 ^ w)%Z -> (n mod 2 ^ w = n)%Z) /\
     (w = 64%Z -> (n mod 2 ^ w = n)%Z)) /\
  (forall r,
     convert (String "-" r) fld =
       Failed (ErrConversion (String "-" r) "uint"
                 (NumError "ParseUint" (String "-" r) ErrSyntax))).
Proof.
  intros Hset Hk w.
  assert (Hw : (0 < 2 ^ w)%Z).
  { subst w. destruct (kind_of (ftype fld)); cbn; lia. }
  split.
  - intros n Hn. pose proof (ParseUint_range _ _ Hn) as Hr.
    assert (Hfit : (n < 2 ^ w)%Z -> (n mod 2 ^ w = n)%Z).
    { intros Hlt. apply Z.mod_small. lia. }
    refine (conj _ (conj _ (conj Hfit _))).
    + unfold convert, SetUint. fold w.
      destruct (kind_of (ftype fld)); try discriminate Hk;
        rewrite Hn; now apply assign_stores.
    + apply Z.mod_pos_bound. exact Hw.
    + intros Hw64. apply Hfit. rewrite Hw64. lia.
  - intros r. unfold convert.
    destruct (kind_of (ftype fld)); try discriminate Hk; reflexivity.
Qed.

Lemma convert_wraps_unsigned_witness :
  exists fld',
    convert "300" {| name := "Retries"; tag := [("env", "RETRIES")];
                     ftype := Basic Uint8; exported := true; fvalue := VUint 0 |}
      = Returned fld' /\
    fvalue fld' = VUint 44.
Proof.
  destruct (proj1 (convert_wraps_unsigned "300"
                     {| name := "Retries"; tag := [("env", "RETRIES")];
                        ftype := Basic Uint8; exported := true; fvalue := VUint 0 |}
                     eq_refl eq_refl) 300%Z eq_refl)
    as ((fld' & Hc & Hv & _) & _).
  exists fld'. split; [exact Hc | exact Hv].
Defined.

Lemma cut_first_none_inv (sep : ascii) (s : string) :
  cut_first sep s = None -> has_byte (code sep) s = false.
Proof.
  induction s as [|c s IH]; [reflexivity |].
  cbn [cut_first]. destruct (Ascii.eqb_spec c sep) as [->|Hne]; [discriminate |].
  destruct (cut_first sep s) as [[a b]|]; [discriminate |].
  intros _. rewrite has_byte_cons, IH by reflexivity. rewrite orb_false_r.
  apply N.eqb_neq. intros E. apply Hne.
  unfold code in E. apply (f_equal ascii_of_N) in E.
  now rewrite !ascii_N_embedding in E.
Qed.

Lemma Index_comma (s : string) :
  match Index s "," with
  | Some m => has_byte 44 (take m s) = false /\
              s = take m s +:+ "," +:+ skip (m + 1) s
  | None => has_byte 44 s = false
  end.
Proof.
  pose proof (Index_byte ","%char s) as H.
  destruct (Index s ",") as [m|].
  - now apply cut_first_before in H.
  - now apply cut_first_none_inv in H.
Qed.

Lemma split_all (f : nat) (s : string) :
  len s <= f ->
  join "," (split_loop (count_loop f s ",") s ",") = s /\
  Forall (fun piece => has_byte 44 piece = false)
    (split_loop (count_loop f s ",") s ",") /\
  length (split_loop (count_loop f s ",") s ",") = S (count_loop f s ",") /\
  count_loop f s "," <= len s.
Proof.
  revert s. induction f as [|f IH]; intros s Hlen.
  - destruct s; [| cbn in Hlen; lia]. cbn. repeat split; try lia. repeat constructor.
  - cbn [count_loop]. pose proof (Index_comma s) as Hi.
    destruct (Index s ",") as [m|] eqn:Hm.
    + destruct Hi as [Hno Hs]. cbn [split_loop]. rewrite Hm.
      change (len ",") with 1.
      assert (Hshort : len (skip (m + 1) s) <= f /\ len (skip (m + 1) s) < len s).
      { apply (f_equal len) in Hs. rewrite !len_app in Hs.
        change (len ",") with 1 in Hs. lia. }
      destruct (IH (skip (m + 1) s) (proj1 Hshort)) as (Hj & Hall & Hn & Hc).
      refine (conj _ (conj _ (conj _ _))).
      * destruct (split_loop _ (skip (m + 1) s) ",") as [|a l] eqn:Hl;
          [discriminate Hn |].
        change (join "," (take m s :: a :: l))
          with (take m s +:+ "," +:+ join "," (a :: l)).
        now rewrite Hj, <- Hs.
      * now constructor.
      * cbn [length]. now rewrite Hn.
      * lia.
    + cbn [split_loop]. repeat split; try lia. now repeat constructor.
Qed.

(** X23. Into a field that holds a [[]string], [convert] puts the pieces
    of the text between its commas, as they stand: afterwards the field
    holds the list [strings.Split] gives, of which no piece holds a
    comma, which has one piece more than there are commas (an empty text
    gives one empty piece), and whose pieces joined by commas are the
    text again; nothing is trimmed or left out. *)
Theorem convert_splits_at_commas (value : string) (fld : field) :
  CanSet fld = true ->
  kind_of (ftype fld) = Slice -> assignable_from_strings (ftype fld) = true ->
  (exists fld', convert value fld = Returned fld' /\
     fvalue fld' = VStrings (Split value ",") /\ same_declaration fld fld') /\
  join "," (Split value ",") = value /\
  Forall (fun piece => has_byte 44 piece = false) (Split value ",") /\
  length (Split value ",") = S (Count value ",").
Proof.
  intros Hset Hk Ha. split.
  - unfold convert. rewrite Hk, Ha, andb_false_r. now apply assign_stores.
  - unfold Split, SplitN, Count.
    destruct (split_all (len value) value (le_n _)) as (Hj & Hall & Hn & Hc).
    replace (Nat.min (S (count_loop (len value) value ",")) (S (len value)))
      with (S (count_loop (len value) value ",")) by lia.
    auto.
Qed.

Lemma convert_splits_at_commas_witness :
  exists fld',
    convert "a, b,,c" {| name := "Hosts"; tag := [("env", "HOSTS")];
                         ftype := SliceOf (Basic String_); exported := true;
                         fvalue := VStrings [] |} = Returned fld' /\
    fvalue fld' = VStrings ["a"; " b"; ""; "c"].
Proof.
  destruct (proj1 (convert_splits_at_commas "a, b,,c"
                     {| name := "Hosts"; tag := [("env", "HOSTS")];
                        ftype := SliceOf (Basic String_); exported := true;
                        fvalue := VStrings [] |} eq_refl eq_refl eq_refl))
    as (fld' & Hc & Hv & _).
  exists fld'. split; [exact Hc | exact Hv].
Defined.
